(** * Import/export pipeline of the blog: a shallow embedding

    The development follows the layout of [src/features/import-export]:
    the archive codec ([utils/zip.ts]), the metadata normaliser
    ([utils/frontmatter.ts]), the document-to-markdown converter
    ([utils/markdown-serializer.ts]), the relative path resolver and the
    single-post importer ([workflows/import-helpers.ts]) and the two
    workflows ([workflows/import.workflow.ts], [workflows/export.workflow.ts]).

    Part I holds the definitions, Part II the theorems. *)

From Stdlib Require Import ZArith NArith List String Ascii Bool Lia.
From Stdlib Require Import DecimalString DecimalPos.
From stdpp Require Import base option list gmap.

(** * Part I: definitions *)

(** ** JavaScript strings

    A JavaScript string is a sequence of UTF-16 code units; it is modelled
    as the list of its code units.  [str] turns a literal of 7-bit
    characters into such a list. *)

Definition jsstring := list N.

Definition str (s : string) : jsstring :=
  map Byte.to_N (list_byte_of_string s).
Arguments str s%_string.

Definition LF : N := 10%N.

(** The code units that [String.prototype.trim] and the regular expression
    class [\s] remove: WhiteSpace and LineTerminator of ECMAScript. *)
Definition is_whitespace (c : N) : bool :=
  (((9 <=? c) && (c <=? 13)) || (c =? 32) || (c =? 160) || (c =? 5760)
   || ((8192 <=? c) && (c <=? 8202)) || (c =? 8232) || (c =? 8233)
   || (c =? 8239) || (c =? 8287) || (c =? 12288) || (c =? 65279))%N.

Fixpoint drop_while {A} (p : A -> bool) (l : list A) : list A :=
  match l with
  | [] => []
  | x :: l' => if p x then drop_while p l' else l
  end.

Definition trimStart (s : jsstring) : jsstring := drop_while is_whitespace s.
Definition trimEnd (s : jsstring) : jsstring :=
  rev (drop_while is_whitespace (rev s)).
Definition trim (s : jsstring) : jsstring := trimEnd (trimStart s).

(** [s.split(c)] for a one-character separator: never empty. *)
Fixpoint str_split (c : N) (s : jsstring) : list jsstring :=
  match s with
  | [] => [[]]
  | x :: s' =>
      if (x =? c)%N then [] :: str_split c s'
      else match str_split c s' with
           | [] => [[x]]
           | seg :: rest => (x :: seg) :: rest
           end
  end.

(** [parts.join(sep)]. *)
Fixpoint str_join (sep : jsstring) (parts : list jsstring) : jsstring :=
  match parts with
  | [] => []
  | [p] => p
  | p :: rest => p ++ sep ++ str_join sep rest
  end.

Fixpoint startsWith (s p : jsstring) {struct p} : bool :=
  match p, s with
  | [], _ => true
  | _ :: _, [] => false
  | a :: p', b :: s' => (a =? b)%N && startsWith s' p'
  end.

Definition endsWith (s p : jsstring) : bool := startsWith (rev s) (rev p).

(** [s.includes(x)]. *)
Fixpoint includes (s x : jsstring) : bool :=
  startsWith s x ||
  match s with
  | [] => false
  | _ :: s' => includes s' x
  end.

(** [s.repeat(n)]. *)
Fixpoint str_repeat (s : jsstring) (n : nat) : jsstring :=
  match n with
  | O => []
  | S n' => s ++ str_repeat s n'
  end.

Definition jsstring_eqb (a b : jsstring) : bool := bool_decide (a = b).

(** Decimal rendering of an integer, as a template literal prints it. *)
Definition str_of_Z (z : Z) : jsstring :=
  str (NilEmpty.string_of_int (Z.to_int z)).

(** ** Results of code that may throw *)

Inductive result (A : Type) : Type :=
  | Ok (a : A)
  | Throw (message : jsstring).
Arguments Ok {A} a.
Arguments Throw {A} message.

Definition bind {A B} (r : result A) (k : A -> result B) : result B :=
  match r with
  | Ok a => k a
  | Throw m => Throw m
  end.

(** ** Archive codec ([utils/zip.ts]) *)

Definition bytes := list Byte.byte.

(** A [Record<string, Uint8Array>]: the entries in enumeration order. *)
Definition Archive := list (jsstring * bytes).

(** A value of [Uint8Array | string]. *)
Inductive Content : Type :=
  | Binary (data : bytes)
  | Text (text : jsstring).

(** [path in files] and [files[path]]. *)
Fixpoint archive_get {V} (files : list (jsstring * V)) (path : jsstring) : option V :=
  match files with
  | [] => None
  | (p, v) :: rest => if jsstring_eqb p path then Some v else archive_get rest path
  end.

(** [files[path] = v]: overwrite in place, else append. *)
Fixpoint archive_set {V} (files : list (jsstring * V)) (path : jsstring) (v : V)
  : list (jsstring * V) :=
  match files with
  | [] => [(path, v)]
  | (p, w) :: rest =>
      if jsstring_eqb p path then (p, v) :: rest
      else (p, w) :: archive_set rest path v
  end.

(** [object[key] = value] on a plain object, for a value that is itself an
    object: the key [__proto__] names the prototype, so that assignment adds
    no entry.  (What a later enumeration finds in the prototype is outside
    the model; a prototype that is an array of no bytes holds nothing to
    find.) *)
Definition object_set {V} (files : list (jsstring * V)) (key : jsstring) (v : V)
  : list (jsstring * V) :=
  if bool_decide (key = str "__proto__") then files else archive_set files key v.

(** The functions of the [fflate] package used by the codec. *)
Class Fflate := {
  strToU8 : jsstring -> bytes;
  strFromU8 : bytes -> jsstring;
  zipSync : Archive -> nat -> bytes;
  unzipSync : bytes -> result Archive;
}.

(** What the package promises: decoding no bytes gives the empty string and a
    built archive opens to the entries it was built from. *)
Class FflateLaws (F : Fflate) : Prop := {
  strFromU8_nil : strFromU8 [] = [];
  unzipSync_zipSync : forall (files : Archive) (level : nat),
    NoDup (map fst files) -> unzipSync (zipSync files level) = Ok files;
}.

(** [JSON.parse], which throws on malformed text. *)
Class Json := {
  json : Type;
  JSON_parse : jsstring -> result json;
}.

Section Zip.
Context `{Fflate} `{Json}.

Definition toU8 (content : Content) : bytes :=
  match content with
  | Text s => strToU8 s
  | Binary b => b
  end.

Definition buildZip (files : list (jsstring * Content)) : bytes :=
  let prepared :=
    fold_left (fun prepared '(path, content) =>
                 object_set prepared path (toU8 content))
              files [] in
  zipSync prepared 6.

Definition parseZip (data : bytes) : result Archive := unzipSync data.

Definition readTextFile (files : Archive) (path : jsstring) : option jsstring :=
  match archive_get files path with
  | None => None
  | Some data => Some (strFromU8 data)
  end.

(** A line written by [console.error]. *)
Inductive LogLine (I : Type) : Type :=
  | ZipJsonValidationFailed (path : jsstring) (issues : I).

(** [readValidatedJsonFile]: the value and what was logged.  [schema] is
    [schema.safeParse]: the issues or the parsed data. *)
Definition readValidatedJsonFile {T I} (files : Archive) (path : jsstring)
    (schema : json -> I + T) : option T * list (LogLine I) :=
  match readTextFile files path with
  | None => (None, [])
  | Some [] => (None, [])
  | Some text =>
      match JSON_parse text with
      | Throw _ => (None, [])
      | Ok j =>
          match schema j with
          | inl issues => (None, [ZipJsonValidationFailed I path issues])
          | inr data => (Some data, [])
          end
      end
  end.

Definition readJsonFile (files : Archive) (path : jsstring) : option json :=
  match readTextFile files path with
  | None => None
  | Some [] => None
  | Some text =>
      match JSON_parse text with
      | Throw _ => None
      | Ok j => Some j
      end
  end.

Definition listFiles (files : Archive) (prefix : jsstring) : list jsstring :=
  filter (fun p => startsWith p prefix = true) (map fst files).

(** [Set.add] keeps the first occurrence. *)
Definition set_add (dirs : list jsstring) (d : jsstring) : list jsstring :=
  if bool_decide (d ∈ dirs) then dirs else dirs ++ [d].

Definition listDirectories (files : Archive) (prefix : jsstring) : list jsstring :=
  fold_left (fun dirs path =>
               if startsWith path prefix then
                 let rest := drop (length prefix) path in
                 match str_split 47%N rest with
                 | dirName :: _ =>
                     if bool_decide (dirName = []) then dirs else set_add dirs dirName
                 | [] => dirs
                 end
               else dirs)
            (map fst files) [].
End Zip.

(** ** Relative path resolution ([workflows/import-helpers.ts]) *)

Definition SLASH : N := 47%N.

(** [relative.replace(/^\.\//, "")]: one leading [./] is removed. *)
Definition strip_dot_slash (relative : jsstring) : jsstring :=
  if startsWith relative (str "./") then drop 2 relative else relative.

(** The [for (const segment of ...)] loop over the mutable array [parts];
    [parts.pop()] on an empty array does nothing. *)
Fixpoint resolve_loop (parts segments : list jsstring) : list jsstring :=
  match segments with
  | [] => parts
  | segment :: more =>
      if bool_decide (segment = str "..") then resolve_loop (removelast parts) more
      else if negb (bool_decide (segment = str ".")) then
        resolve_loop (parts ++ [segment]) more
      else resolve_loop parts more
  end.

Definition resolveRelativePath (base relative : jsstring) : jsstring :=
  let cleaned := strip_dot_slash relative in
  if bool_decide (base = []) then cleaned
  else str_join (str "/") (resolve_loop (str_split SLASH base) (str_split SLASH cleaned)).

(** The resolver as the specification words it: a stack machine whose stack
    starts as the segments of the base. *)
Definition resolve_step (stack : list jsstring) (segment : jsstring) : list jsstring :=
  if bool_decide (segment = str "..") then removelast stack
  else if bool_decide (segment = str ".") then stack
  else stack ++ [segment].

Definition resolve_spec (base relative : jsstring) : jsstring :=
  let reference := strip_dot_slash relative in
  match base with
  | [] => reference
  | _ => str_join (str "/")
           (fold_left resolve_step (str_split SLASH reference) (str_split SLASH base))
  end.

(** ** Metadata normaliser ([utils/frontmatter.ts]) *)

(** The parts of the JavaScript runtime the normaliser relies on: numbers
    (IEEE doubles) and [Date].  [Date_parse s] is the time value of
    [new Date(s)], [None] when the date is invalid. *)
Class JsRuntime := {
  number : Type;
  number_one : number;
  number_truthy : number -> bool;
  time : Type;
  Date_parse : jsstring -> option time;
  Date_toISOString : time -> jsstring;
  time_leb : time -> time -> bool;
  toLowerCase : jsstring -> jsstring;
}.

(** ECMAScript: [Date.parse(d.toISOString())] is the time value of [d], and
    an ISO string is never empty. *)
Class JsRuntimeLaws (R : JsRuntime) : Prop := {
  Date_parse_toISOString : forall t, Date_parse (Date_toISOString t) = Some t;
  Date_toISOString_nonempty : forall t, Date_toISOString t <> [];
}.

(** [z.number()] of the [zod] package. *)
Class Zod `{JsRuntime} := {
  z_number : number -> bool;
}.

Class ZodLaws `{Zod} : Prop := {
  z_number_one : z_number number_one = true;
}.

Inductive PostStatus : Type := draft | published.

#[global] Instance PostStatus_eq_dec : EqDecision PostStatus.
Proof. solve_decision. Defined.

Definition status_name (s : PostStatus) : jsstring :=
  match s with
  | draft => str "draft"
  | published => str "published"
  end.

(** Modelled from the spec: the constant [POST_STATUSES] of [lib/db/schema],
    which is not among the sources; the data model gives the status as
    [enum{draft, published}], and [global.d.ts] types the status of an export,
    which is validated by the same enum, as ["draft" | "published"]. *)
Definition POST_STATUSES : list PostStatus := [draft; published].

(** [z.enum(POST_STATUSES)]. *)
Definition z_enum_POST_STATUSES (s : jsstring) : option PostStatus :=
  find (fun st => jsstring_eqb (status_name st) s) POST_STATUSES.

Section Frontmatter.
Context `{Zod}.

(** A value of type [unknown] as a YAML or JSON parser produces it. *)
Inductive jsval : Type :=
  | JUndefined
  | JNull
  | JBool (b : bool)
  | JNum (n : number)
  | JStr (s : jsstring)
  | JArr (items : list jsval)
  | JObj (fields : list (jsstring * jsval))
  | JDate (t : time).

(** [v === true]. *)
Definition is_true_literal (v : jsval) : bool :=
  match v with
  | JBool true => true
  | _ => false
  end.

(** A [Record<string, unknown>]; a missing key reads as [undefined]. *)
Definition rawdata := list (jsstring * jsval).

Definition field (data : rawdata) (key : string) : jsval :=
  default JUndefined (archive_get data (str key)).

(** [a ?? b]. *)
Definition coalesce (a b : jsval) : jsval :=
  match a with
  | JUndefined | JNull => b
  | _ => a
  end.

(** Truthiness, as [if (v)] tests it. *)
Definition truthy (v : jsval) : bool :=
  match v with
  | JUndefined | JNull => false
  | JBool b => b
  | JNum n => number_truthy n
  | JStr s => negb (bool_decide (s = []))
  | JArr _ | JObj _ | JDate _ => true
  end.

Definition toISOString (value : jsval) : option jsstring :=
  match value with
  | JDate t => Some (Date_toISOString t)
  | JStr s =>
      match Date_parse s with
      | Some t => Some (Date_toISOString t)
      | None => None
      end
  | _ => None
  end.

(** The canonical record, [PostFrontmatter]. *)
Record PostFrontmatter : Type := {
  title : jsstring;
  slug : jsstring;
  summary : option jsstring;
  status : PostStatus;
  publishedAt : option jsstring;
  createdAt : option jsstring;
  updatedAt : option jsstring;
  readTimeInMinutes : number;
  tags : list jsstring;
}.

(** The object [mapped] that [normalizeFrontmatter] fills in before it is
    validated; a field that was not assigned is [None]. *)
Record Mapped : Type := {
  m_title : option jsstring;
  m_slug : option jsstring;
  m_summary : option jsstring;
  m_status : jsstring;
  m_publishedAt : option jsstring;
  m_createdAt : option jsstring;
  m_updatedAt : option jsstring;
  m_readTimeInMinutes : option number;
  m_tags : option (list jsstring);
}.

(** [PostFrontmatterSchema.safeParse(mapped)]: [title] is required, [status]
    must be one of [POST_STATUSES], a given [readTimeInMinutes] must pass
    [z.number()], missing fields take their defaults. *)
Definition PostFrontmatterSchema_safeParse (m : Mapped) : option PostFrontmatter :=
  match m_title m, z_enum_POST_STATUSES (m_status m) with
  | Some t, Some st =>
      match m_readTimeInMinutes m with
      | Some n =>
          if z_number n then
            Some {| title := t; slug := default [] (m_slug m);
                    summary := m_summary m; status := st;
                    publishedAt := m_publishedAt m; createdAt := m_createdAt m;
                    updatedAt := m_updatedAt m; readTimeInMinutes := n;
                    tags := default [] (m_tags m) |}
          else None
      | None =>
          Some {| title := t; slug := default [] (m_slug m);
                  summary := m_summary m; status := st;
                  publishedAt := m_publishedAt m; createdAt := m_createdAt m;
                  updatedAt := m_updatedAt m; readTimeInMinutes := number_one;
                  tags := default [] (m_tags m) |}
      end
  | _, _ => None
  end.

Definition as_string (v : jsval) : option jsstring :=
  match v with
  | JStr s => Some s
  | _ => None
  end.

(** [slugSource.split("/").filter(Boolean)], then the last segment, else
    the source itself. *)
Definition last_segment (slugSource : jsstring) : jsstring :=
  let segments := filter (fun seg => seg <> []) (str_split SLASH slugSource) in
  default slugSource (last segments).

Definition date_field (source : jsval) : option jsstring :=
  if truthy source then toISOString source else None.

Definition string_items (items : list jsval) : list jsstring :=
  omap as_string items.

Definition normalizeFrontmatter (data : rawdata) : option PostFrontmatter :=
  let slugSource :=
    coalesce (coalesce (field data "slug") (field data "url")) (field data "permalink") in
  let summarySource :=
    coalesce (coalesce (field data "summary") (field data "description"))
             (field data "excerpt") in
  let dateSource :=
    coalesce (coalesce (field data "publishedAt") (field data "date"))
             (field data "published_at") in
  let createdSource :=
    coalesce (coalesce (field data "createdAt") (field data "created_at"))
             (field data "date") in
  let updatedSource :=
    coalesce (coalesce (coalesce (field data "updatedAt") (field data "updated_at"))
                       (field data "lastmod"))
             (field data "modified") in
  let tagsSource := coalesce (field data "tags") (field data "categories") in
  PostFrontmatterSchema_safeParse
    {| m_title := as_string (field data "title");
       m_slug := last_segment <$> as_string slugSource;
       m_summary := as_string summarySource;
       m_status :=
         if is_true_literal (field data "draft") then str "draft"
         else match field data "status" with
              | JStr s => s
              | _ => str "published"
              end;
       m_publishedAt := date_field dateSource;
       m_createdAt := date_field createdSource;
       m_updatedAt := date_field updatedSource;
       m_readTimeInMinutes :=
         match field data "readTimeInMinutes" with
         | JNum n => Some n
         | _ => None
         end;
       m_tags :=
         match tagsSource with
         | JArr items => Some (string_items items)
         | _ => None
         end |}.

(** The fields of a canonical record as a raw record: what
    [JSON.parse(JSON.stringify(frontmatter))] keeps, undefined fields
    being dropped. *)
Definition optional_field (key : string) (v : option jsstring) : rawdata :=
  match v with
  | Some s => [(str key, JStr s)]
  | None => []
  end.

(** The value read from an optional field. *)
Definition optional_value (v : option jsstring) : jsval :=
  match v with
  | Some s => JStr s
  | None => JUndefined
  end.

(** What every record that [normalizeFrontmatter] returns satisfies: the
    slug is a last path segment, the timestamps are ISO strings and the
    read time passed [z.number()]. *)
Definition iso_timestamp (v : option jsstring) : Prop :=
  forall iso, v = Some iso -> exists t, iso = Date_toISOString t.

Definition canonical (m : PostFrontmatter) : Prop :=
  last_segment (slug m) = slug m
  /\ iso_timestamp (publishedAt m)
  /\ iso_timestamp (createdAt m)
  /\ iso_timestamp (updatedAt m)
  /\ z_number (readTimeInMinutes m) = true.

Definition fields_of (m : PostFrontmatter) : rawdata :=
  [(str "title", JStr (title m)); (str "slug", JStr (slug m))]
  ++ optional_field "summary" (summary m)
  ++ [(str "status", JStr (status_name (status m)))]
  ++ optional_field "publishedAt" (publishedAt m)
  ++ optional_field "createdAt" (createdAt m)
  ++ optional_field "updatedAt" (updatedAt m)
  ++ [(str "readTimeInMinutes", JNum (readTimeInMinutes m));
      (str "tags", JArr (JStr <$> tags m))].

(** The [gray-matter] package: [matter(raw)] splits a metadata block from
    the body and throws what its YAML loader throws. *)
Class GrayMatter := {
  matter : jsstring -> result (rawdata * jsstring);
  matter_stringify : jsstring -> rawdata -> jsstring;
}.

Context `{GrayMatter}.

Definition parseFrontmatter (raw : jsstring) : result (rawdata * jsstring) :=
  bind (matter raw) (fun '(data, content) => Ok (data, content)).

Definition stringifyFrontmatter (frontmatter : PostFrontmatter)
    (markdownContent : jsstring) : jsstring :=
  let clean := fields_of frontmatter in
  matter_stringify markdownContent clean.
End Frontmatter.

(** ** Document tree and markdown serialiser ([utils/markdown-serializer.ts]) *)

(** The [type] discriminator of a node. *)
Inductive node_type : Type :=
  | ty_doc | ty_paragraph | ty_heading | ty_codeBlock | ty_blockquote
  | ty_bulletList | ty_orderedList | ty_listItem | ty_image
  | ty_table | ty_tableRow | ty_tableCell | ty_tableHeader
  | ty_horizontalRule | ty_hardBreak | ty_text
  | ty_other (name : jsstring).

(** The type-specific attributes; one that is absent is [None]. *)
Record Attrs : Type := {
  level : option nat;
  language : option jsstring;
  src : option jsstring;
  alt : option jsstring;
  start : option Z;
  highlightedHtml : option jsstring;
}.

Definition no_attrs : Attrs :=
  {| level := None; language := None; src := None; alt := None; start := None;
     highlightedHtml := None |}.

Inductive mark_type : Type :=
  | mk_bold | mk_italic | mk_strike | mk_code | mk_underline | mk_link
  | mk_other (name : jsstring).

Record Mark : Type := {
  mark_kind : mark_type;
  href : option jsstring;
}.

(** A [JSONContent] node: [content] is [None] when the property is absent;
    absent [marks] are the empty list. *)
Inductive JSONContent : Type :=
  | Node (type : node_type) (attrs : Attrs) (content : option (list JSONContent))
         (marks : list Mark) (text : option jsstring).

Definition node_kind (node : JSONContent) : node_type :=
  match node with Node ty _ _ _ _ => ty end.
Definition node_attrs (node : JSONContent) : Attrs :=
  match node with Node _ a _ _ _ => a end.
Definition node_content (node : JSONContent) : option (list JSONContent) :=
  match node with Node _ _ c _ _ => c end.
Definition node_marks (node : JSONContent) : list Mark :=
  match node with Node _ _ _ m _ => m end.
Definition node_text (node : JSONContent) : option jsstring :=
  match node with Node _ _ _ _ t => t end.

(** [array.map((x, i) => f(i, x))], counting from [i]. *)
Fixpoint mapi_from {A B} (f : nat -> A -> B) (i : nat) (l : list A) : list B :=
  match l with
  | [] => []
  | x :: l' => f i x :: mapi_from f (S i) l'
  end.

(** [s.replace(/^\n+/, "")]. *)
Definition strip_leading_newlines (s : jsstring) : jsstring :=
  drop_while (fun c => (c =? LF)%N) s.

(** [s.replace(/\n{3,}/g, "\n\n")]: of every run of line feeds at most two
    are kept; [run] counts those already kept of the current run. *)
Fixpoint squeeze (run : nat) (s : jsstring) : jsstring :=
  match s with
  | [] => []
  | c :: s' =>
      if (c =? LF)%N then
        if (run <? 2)%nat then c :: squeeze (S run) s' else squeeze run s'
      else c :: squeeze 0 s'
  end.

Definition applyMark (mark : Mark) (text : jsstring) : jsstring :=
  match mark_kind mark with
  | mk_bold => str "**" ++ text ++ str "**"
  | mk_italic => str "_" ++ text ++ str "_"
  | mk_strike => str "~~" ++ text ++ str "~~"
  | mk_code => str "`" ++ text ++ str "`"
  | mk_underline => str "<u>" ++ text ++ str "</u>"
  | mk_link => str "[" ++ text ++ str "](" ++ default [] (href mark) ++ str ")"
  | mk_other _ => text
  end.

(** The loop [for (const mark of marks) text = applyMark(mark, text)]. *)
Definition applyMarks (marks : list Mark) (text : jsstring) : jsstring :=
  fold_left (fun text mark => applyMark mark text) marks text.

(** One row of a markdown table. *)
Definition table_line (cells : list jsstring) : jsstring :=
  str "| " ++ str_join (str " | ") cells ++ str " |".

Section Serializer.
(** [options?.rewriteImageSrc]. *)
Variable rewriteImageSrc : option (jsstring -> jsstring).

Definition image_markdown (attrs : Attrs) : jsstring :=
  let src := default [] (src attrs) in
  let alt := default [] (alt attrs) in
  let finalSrc :=
    match rewriteImageSrc with
    | Some rewrite => rewrite src
    | None => src
    end in
  str "![" ++ alt ++ str "](" ++ finalSrc ++ str ")".

Definition serializeInlineNode (node : JSONContent) : jsstring :=
  match node_kind node with
  | ty_text => applyMarks (node_marks node) (default [] (node_text node))
  | ty_image => image_markdown (node_attrs node)
  | ty_hardBreak => str "  " ++ [LF]
  | _ => []
  end.

Definition serializeInline (content : option (list JSONContent)) : jsstring :=
  match content with
  | None => []
  | Some nodes => concat (map serializeInlineNode nodes)
  end.

(** [cell.content?.[0]?.content]. *)
Definition first_child_content (cell : JSONContent) : option (list JSONContent) :=
  match node_content cell with
  | Some (first :: _) => node_content first
  | _ => None
  end.

(** The cells of one row, each serialised from its first child. *)
Definition serializeRow (row : JSONContent) : list jsstring :=
  map (fun cell => trim (serializeInline (first_child_content cell)))
      (default [] (node_content row)).

Definition serializeTable (table : JSONContent) : jsstring :=
  let rows := default [] (node_content table) in
  match rows with
  | [] => []
  | _ :: _ =>
      let serializedRows := map serializeRow rows in
      match serializedRows with
      | [] => []
      | header :: data =>
          let colCount := length header in
          if (colCount =? 0)%nat then []
          else
            let lines :=
              [table_line header; table_line (repeat (str "---") colCount)]
              ++ map table_line data in
            str_join [LF] lines
      end
  end.

Fixpoint serializeNode (node : JSONContent) (listDepth : nat) {struct node} : jsstring :=
  match node with
  | Node ty attrs content marks text =>
      match ty with
      | ty_paragraph => [LF] ++ serializeInline content ++ [LF]
      | ty_heading =>
          let level := default 1%nat (level attrs) in
          let hashes := str_repeat (str "#") level in
          [LF] ++ hashes ++ str " " ++ serializeInline content ++ [LF]
      | ty_codeBlock =>
          let lang := default [] (language attrs) in
          let code :=
            match content with
            | Some nodes => concat (map (fun n => default [] (node_text n)) nodes)
            | None => []
            end in
          [LF] ++ str "```" ++ lang ++ [LF] ++ code ++ [LF] ++ str "```" ++ [LF]
      | ty_blockquote =>
          let inner :=
            trim match content with
                 | Some children =>
                     concat (map (fun child => serializeNode child listDepth) children)
                 | None => []
                 end in
          let quoted :=
            str_join [LF] (map (fun line => str "> " ++ line) (str_split LF inner)) in
          [LF] ++ quoted ++ [LF]
      | ty_bulletList =>
          [LF] ++ match content with
                  | Some items =>
                      concat (map (fun item =>
                                     serializeListItem item (str "-") listDepth)
                                  items)
                  | None => []
                  end
      | ty_orderedList =>
          let start := default 1%Z (start attrs) in
          [LF] ++ match content with
                  | Some items =>
                      concat (mapi_from
                                (fun i item =>
                                   serializeListItem item
                                     (str_of_Z (start + Z.of_nat i) ++ str ".")
                                     listDepth)
                                0 items)
                  | None => []
                  end
      | ty_image => [LF] ++ image_markdown attrs ++ [LF]
      | ty_table => [LF] ++ serializeTable node ++ [LF]
      | ty_horizontalRule => [LF] ++ str "---" ++ [LF]
      | ty_hardBreak => [LF]
      | _ =>
          match content with
          | Some children =>
              concat (map (fun child => serializeNode child listDepth) children)
          | None => serializeInline content
          end
      end
  end
with serializeListItem (item : JSONContent) (marker : jsstring) (depth : nat)
    {struct item} : jsstring :=
  match item with
  | Node _ _ content _ _ =>
      let indent := str_repeat (str "  ") depth in
      let parts :=
        match content with
        | None => []
        | Some children =>
            map (fun child =>
                   match child with
                   | Node cty cattrs ccontent _ _ =>
                       match cty with
                       | ty_paragraph => serializeInline ccontent
                       | ty_bulletList =>
                           match ccontent with
                           | Some subs =>
                               concat (map (fun sub =>
                                              serializeListItem sub (str "-") (S depth))
                                           subs)
                           | None => []
                           end
                       | ty_orderedList =>
                           let start := default 1%Z (start cattrs) in
                           match ccontent with
                           | Some subs =>
                               concat (mapi_from
                                         (fun i sub =>
                                            serializeListItem sub
                                              (str_of_Z (start + Z.of_nat i) ++ str ".")
                                              (S depth))
                                         0 subs)
                           | None => []
                           end
                       | _ => serializeNode child depth
                       end
                   end)
                children
        end in
      let first := default [] (head parts) in
      let rest := concat (tail parts) in
      indent ++ marker ++ str " " ++ trim first ++ [LF] ++ rest
  end.

Definition jsonContentToMarkdown (doc : JSONContent) : jsstring :=
  match node_kind doc, node_content doc with
  | ty_doc, Some content =>
      let lines := concat (map (fun node => serializeNode node 0) content) in
      trimEnd (squeeze 0 (strip_leading_newlines lines)) ++ [LF]
  | _, _ => []
  end.
End Serializer.

(** The node builders of the serialiser's test-suite. *)
Definition mk_doc (content : list JSONContent) : JSONContent :=
  Node ty_doc no_attrs (Some content) [] None.
Definition mk_paragraph (content : list JSONContent) : JSONContent :=
  Node ty_paragraph no_attrs (Some content) [] None.
Definition mk_text (value : jsstring) (marks : list Mark) : JSONContent :=
  Node ty_text no_attrs None marks (Some value).
Definition mk_heading (lvl : nat) (content : list JSONContent) : JSONContent :=
  Node ty_heading {| level := Some lvl; language := None; src := None; alt := None;
                     start := None; highlightedHtml := None |}
       (Some content) [] None.
Definition mk_node (ty : node_type) (content : list JSONContent) : JSONContent :=
  Node ty no_attrs (Some content) [] None.
Definition mark (kind : mark_type) : Mark := {| mark_kind := kind; href := None |}.
Definition link_to (url : jsstring) : Mark := {| mark_kind := mk_link; href := Some url |}.

(** *** Reading the produced markdown *)

(** [x] occurs in [s]. *)
Definition contains (s x : jsstring) : Prop := exists a b, s = a ++ x ++ b.

(** No three line feeds in a row; [run] counts the line feeds just before. *)
Fixpoint no_blank_run (run : nat) (s : jsstring) : bool :=
  match s with
  | [] => true
  | c :: s' =>
      if (c =? LF)%N then (run <? 2)%nat && no_blank_run (S run) s'
      else no_blank_run 0 s'
  end.

(** The last code unit is not white space. *)
Definition ends_visibly (s : jsstring) : Prop :=
  exists s' c, s = s' ++ [c] /\ is_whitespace c = false.

(** The first code unit is not white space. *)
Definition starts_visibly (s : jsstring) : Prop :=
  exists c s', s = c :: s' /\ is_whitespace c = false.

(** The markdown of a table: header row, separator row, data rows. *)
Definition table_markdown (header : list jsstring) (data : list (list jsstring))
  : jsstring :=
  table_line header ++ [LF] ++ table_line (repeat (str "---") (length header))
  ++ concat (map (fun cells => [LF] ++ table_line cells) data).

(** Converter fidelity read to the letter: whatever the heading text, the
    bold text and the table are, they appear verbatim. *)
Definition converter_fidelity_as_stated : Prop :=
  forall rewrite nodes heading inline text_node bold table header data,
    mk_heading 2 heading ∈ nodes ->
    mk_paragraph inline ∈ nodes ->
    text_node ∈ inline -> node_kind text_node = ty_text ->
    bold ∈ node_marks text_node -> mark_kind bold = mk_bold ->
    table ∈ nodes -> node_kind table = ty_table ->
    node_content table = Some (header :: data) ->
    let out := jsonContentToMarkdown rewrite (mk_doc nodes) in
    contains out (str "## " ++ serializeInline rewrite (Some heading))
    /\ contains out (str "**" ++ default [] (node_text text_node) ++ str "**")
    /\ contains out (table_markdown (serializeRow rewrite header)
                                    (map (serializeRow rewrite) data)).

(** ** Slugs ([features/posts/utils/content.ts]) *)

Definition DASH : N := 45%N.

(** [s.replace(/[\s_]+/g, "-")]: every run of white space and underscores
    becomes one dash; [in_run] tells that the previous code unit belonged to
    such a run. *)
Fixpoint dash_runs (in_run : bool) (s : jsstring) : jsstring :=
  match s with
  | [] => []
  | c :: s' =>
      if is_whitespace c || (c =? 95)%N then
        if in_run then dash_runs true s' else DASH :: dash_runs true s'
      else c :: dash_runs false s'
  end.

(** The class [a-z0-9\-一-龥]. *)
Definition slug_char (c : N) : bool :=
  (((97 <=? c) && (c <=? 122)) || ((48 <=? c) && (c <=? 57)) || (c =? DASH)
   || ((19968 <=? c) && (c <=? 40869)))%N.

(** [s.replace(/-{2,}/g, "-")]. *)
Fixpoint single_dashes (after_dash : bool) (s : jsstring) : jsstring :=
  match s with
  | [] => []
  | c :: s' =>
      if (c =? DASH)%N then
        if after_dash then single_dashes true s' else c :: single_dashes true s'
      else c :: single_dashes false s'
  end.

Definition is_dash (c : N) : bool := (c =? DASH)%N.

Definition slugify `{JsRuntime} (text : jsstring) : jsstring :=
  if bool_decide (text = []) then str "untitled-log"
  else
    let cleaned :=
      rev (drop_while is_dash
             (rev (drop_while is_dash
                     (single_dashes false
                        (filter (fun c => slug_char c = true)
                                (dash_runs false (trim (toLowerCase text)))))))) in
    if bool_decide (cleaned = []) then str "untitled-log" else cleaned.

(** The shape of a slug: only code units of the class above, no dash at
    either end and no two dashes in a row. *)
Definition slug_shaped (s : jsstring) : Prop :=
  Forall (fun c => slug_char c = true) s
  /\ head s <> Some DASH
  /\ last s <> Some DASH
  /\ ~ contains s (str "--").

(** ECMAScript: [toLowerCase] changes only code units that have a lower-case
    mapping; lower-case Latin letters, digits, the dash and the Chinese
    characters of the class above have none. *)
Class LowerCaseLaws (R : JsRuntime) : Prop := {
  toLowerCase_slug_chars : forall s,
    Forall (fun c => slug_char c = true) s -> toLowerCase s = s;
}.

(** [convertToPlainText]: the block-level node types, after which a line
    feed is pushed. *)
Definition is_block (ty : node_type) : bool :=
  match ty with
  | ty_paragraph | ty_heading | ty_codeBlock | ty_blockquote | ty_listItem
  | ty_bulletList | ty_orderedList => true
  | _ => false
  end.

(** What the traversal of one node pushes onto [textParts], joined: the text
    of a text node or the padded alt text of an image, then the parts of the
    children, then the line feed of a block. *)
Fixpoint text_parts (node : JSONContent) : jsstring :=
  match node with
  | Node ty attrs content _ text =>
      match ty with
      | ty_text => default [] text
      | ty_image =>
          match alt attrs with
          | Some (c :: a) => str " " ++ (c :: a) ++ str " "
          | _ => []
          end
      | _ => []
      end
      ++ match content with
         | Some children => concat (map text_parts children)
         | None => []
         end
      ++ (if is_block ty then [LF] else [])
  end.

(** [s.replace(/\n+/g, "\n")]. *)
Fixpoint single_newlines (after_newline : bool) (s : jsstring) : jsstring :=
  match s with
  | [] => []
  | c :: s' =>
      if (c =? LF)%N then
        if after_newline then single_newlines true s' else c :: single_newlines true s'
      else c :: single_newlines false s'
  end.

Definition convertToPlainText (doc : option JSONContent) : jsstring :=
  match doc with
  | None => []
  | Some tree => trim (single_newlines false (text_parts tree))
  end.

(** ** Image references ([utils/image-rewriter.ts]) *)

(** The image pattern of the rewriter tried at the start of [s]: an
    exclamation mark, the alt text in square brackets (any code units but a
    closing square bracket), the source in round brackets (one or more code
    units but a closing round bracket).  The result is the alt text, the
    source and the length of the match.  Both character classes stop at the
    first bracket they exclude, so there is no choice in a match. *)
Fixpoint span_until (stop : N) (s : jsstring) : jsstring * jsstring :=
  match s with
  | [] => ([], [])
  | c :: s' =>
      if (c =? stop)%N then ([], s)
      else let '(taken, rest) := span_until stop s' in (c :: taken, rest)
  end.

Definition match_image (s : jsstring) : option (jsstring * jsstring * nat) :=
  match s with
  | 33%N :: 91%N :: s1 =>
      let '(alt, s2) := span_until 93%N s1 in
      match s2 with
      | 93%N :: 40%N :: s3 =>
          let '(source, s4) := span_until 41%N s3 in
          match source, s4 with
          | _ :: _, 41%N :: _ => Some (alt, source, (length alt + length source + 5)%nat)
          | _, _ => None
          end
      | _ => None
      end
  | _ => None
  end.

Inductive image_kind : Type := relative | remote | data_uri.

Definition classify_image (source : jsstring) : image_kind :=
  if startsWith source (str "data:") then data_uri
  else if startsWith source (str "http://") || startsWith source (str "https://")
       then remote
       else relative.

(** The [while ((match = regex.exec(markdown)) !== null)] loop; [skip] is the
    number of code units still covered by the previous match. *)
Fixpoint extract_images_from (skip : nat) (markdown : jsstring)
  : list (jsstring * image_kind) :=
  match markdown with
  | [] => []
  | _ :: rest =>
      match skip with
      | S skip' => extract_images_from skip' rest
      | O =>
          match match_image markdown with
          | Some (_, source, len) =>
              (source, classify_image source) :: extract_images_from (len - 1) rest
          | None => extract_images_from 0 rest
          end
      end
  end.

Definition extractMarkdownImages (markdown : jsstring) : list (jsstring * image_kind) :=
  extract_images_from 0 markdown.

(** A [Map<string, string>] in insertion order. *)
Definition RewriteMap := list (jsstring * jsstring).

(** [markdown.replace(regex, callback)]. *)
Fixpoint rewrite_images_from (rewriteMap : RewriteMap) (skip : nat) (markdown : jsstring)
  : jsstring :=
  match markdown with
  | [] => []
  | c :: rest =>
      match skip with
      | S skip' => rewrite_images_from rewriteMap skip' rest
      | O =>
          match match_image markdown with
          | Some (alt, source, len) =>
              let replacement :=
                match archive_get rewriteMap source with
                | Some (n :: newSrc) =>
                    str "![" ++ alt ++ str "](" ++ (n :: newSrc) ++ str ")"
                | _ => take len markdown
                end in
              replacement ++ rewrite_images_from rewriteMap (len - 1) rest
          | None => c :: rewrite_images_from rewriteMap 0 rest
          end
      end
  end.

Definition rewriteMarkdownImagePaths (markdown : jsstring) (rewriteMap : RewriteMap)
  : jsstring :=
  rewrite_images_from rewriteMap 0 markdown.

(** ** Storage and the world the workflows run in *)

Section World.
Context `{Zod}.

Record PostRow : Type := {
  post_id : nat;
  post_title : jsstring;
  post_slug : jsstring;
  post_summary : option jsstring;
  post_contentJson : option JSONContent;
  post_status : PostStatus;
  post_readTimeInMinutes : number;
  post_publishedAt : option time;
  post_createdAt : time;
  post_updatedAt : time;
}.

Record TagRow : Type := {
  tag_id : nat;
  tag_name : jsstring;
  tag_createdAt : time;
}.

Record MediaRow : Type := {
  media_id : nat;
  media_key : jsstring;
  media_url : jsstring;
  media_fileName : jsstring;
  media_mimeType : jsstring;
  media_sizeInBytes : nat;
}.

(** The tables the import touches; [PostMediaTable] links posts to media
    keys. *)
Record Database : Type := {
  PostsTable : list PostRow;
  TagsTable : list TagRow;
  PostTagsTable : list (nat * nat);
  MediaTable : list MediaRow;
  PostMediaTable : list (nat * jsstring);
}.

Inductive TaskStatus : Type := pending | processing | completed | failed.

Record ImportReport : Type := {
  succeeded : list (jsstring * jsstring);
  failed_posts : list (jsstring * jsstring);
  report_warnings : list jsstring;
}.

Record TaskProgress : Type := {
  task_status : TaskStatus;
  total : nat;
  completed_count : nat;
  current : jsstring;
  errors : list (jsstring * jsstring);
  warnings : list jsstring;
  downloadKey : option jsstring;
  report : option ImportReport;
}.

(** The world: the database, the blob store [env.R2], the progress store
    behind [CacheService], the clock read by [new Date()] and the source of
    the random part of generated keys. *)
Record World : Type := {
  db : Database;
  R2 : gmap jsstring bytes;
  cache : gmap jsstring TaskProgress;
  now : time;
  seed : nat;
}.

(** Code of this repository that is not among the sources, the packages
    behind [markdownToJsonContent] and [highlight], and [JSON.stringify]. *)
Class Collaborators `{Json} := {
  generateKey : nat -> jsstring -> jsstring;
  getContentTypeFromKey : jsstring -> option jsstring;
  extractImageKey : jsstring -> option jsstring;
  markdownToJsonContent : jsstring -> result JSONContent;
  highlight : jsstring -> jsstring -> result jsstring;
  syncPostMedia : Database -> nat -> JSONContent -> Database;
  json_as_content : json -> option JSONContent;
  JSON_stringify_content : JSONContent -> jsstring;
  JSON_stringify_tags : list (jsstring * jsstring) -> jsstring;
  JSON_stringify_manifest : jsstring -> jsstring -> nat -> jsstring -> jsstring;
}.

(** *** Computations on the world that may throw *)

Definition M (A : Type) : Type := World -> World * result A.

Definition ret {A} (a : A) : M A := fun w => (w, Ok a).
Definition throw {A} (message : jsstring) : M A := fun w => (w, Throw message).
Definition bindM {A B} (c : M A) (k : A -> M B) : M B :=
  fun w =>
    match c w with
    | (w', Ok a) => k a w'
    | (w', Throw message) => (w', Throw message)
    end.
Definition try_catch {A} (c : M A) (handler : jsstring -> M A) : M A :=
  fun w =>
    match c w with
    | (w', Ok a) => (w', Ok a)
    | (w', Throw message) => handler message w'
    end.
Definition get_world : M World := fun w => (w, Ok w).
Definition lift {A} (r : result A) : M A := fun w => (w, r).

Definition set_db (f : Database -> Database) : M unit :=
  fun w => ({| db := f (db w); R2 := R2 w; cache := cache w; now := now w;
               seed := seed w |}, Ok tt).
Definition set_R2 (f : gmap jsstring bytes -> gmap jsstring bytes) : M unit :=
  fun w => ({| db := db w; R2 := f (R2 w); cache := cache w; now := now w;
               seed := seed w |}, Ok tt).
Definition set_cache (f : gmap jsstring TaskProgress -> gmap jsstring TaskProgress)
  : M unit :=
  fun w => ({| db := db w; R2 := R2 w; cache := f (cache w); now := now w;
               seed := seed w |}, Ok tt).
Definition fresh_seed : M nat :=
  fun w => ({| db := db w; R2 := R2 w; cache := cache w; now := now w;
               seed := S (seed w) |}, Ok (seed w)).

(** A [for] loop threading an accumulator. *)
Fixpoint foldM {A S} (step : S -> A -> M S) (l : list A) (acc : S) : M S :=
  match l with
  | [] => ret acc
  | x :: l' => bindM (step acc x) (fun acc' => foldM step l' acc')
  end.
End World.

Notation "'let*' x ':=' c 'in' k" := (bindM c (fun x => k))
  (at level 10, x pattern, c at level 100, k at level 200, only parsing).

(** The blob store can fail: [R2_put_error key w] is the exception that
    [env.R2.put] throws for [key] in the world [w], if it throws, and
    [R2_delete_error] the one of [env.R2.delete]. *)
Class BlobStoreFaults `{Zod} := {
  R2_put_error : jsstring -> World -> option jsstring;
  R2_delete_error : jsstring -> World -> option jsstring;
}.

(** [c], run in [w], returns: it does not throw, and the world it leaves and
    the value it returns satisfy [post]. *)
Definition returns_with `{Zod} {A} (c : M A) (w : World) (post : World -> A -> Prop)
  : Prop :=
  match c w with
  | (w', Ok a) => post w' a
  | (_, Throw _) => False
  end.

(** ** Repositories ([features/posts/data/posts.data.ts] and others) *)

Section Repositories.
Context {R : JsRuntime} {Z : Zod} {J : Json} {C : Collaborators} {B : BlobStoreFaults}.

Definition next_id (ids : list nat) : nat := S (foldr Nat.max 0%nat ids).

(** [PostRepo.slugExists]. *)
Definition slugExists (d : Database) (slug : jsstring) (excludeId : option nat) : bool :=
  existsb (fun p =>
             jsstring_eqb (post_slug p) slug
             && match excludeId with
                | Some (S n) => negb (post_id p =? S n)%nat
                | _ => true
                end)
          (PostsTable d).

(** [PostRepo.findSimilarSlugs]: the slugs that match [baseSlug-%]. *)
Definition findSimilarSlugs (d : Database) (baseSlug : jsstring) (excludeId : option nat)
  : list jsstring :=
  map post_slug
      (List.filter (fun p =>
                      startsWith (post_slug p) (baseSlug ++ str "-")
                      && match excludeId with
                         | Some (S n) => negb (post_id p =? S n)%nat
                         | _ => true
                         end)
                   (PostsTable d)).

(** The fields of [PostsTable.$inferInsert] that the import gives. *)
Record NewPost : Type := {
  new_title : jsstring;
  new_slug : jsstring;
  new_summary : option jsstring;
  new_contentJson : option JSONContent;
  new_status : PostStatus;
  new_readTimeInMinutes : number;
  new_publishedAt : option time;
}.

(** [PostRepo.insertPost]: the row gets the next id and the current time. *)
Definition insertPost (data : NewPost) : M PostRow :=
  let* w := get_world in
  let post :=
    {| post_id := next_id (map post_id (PostsTable (db w)));
       post_title := new_title data; post_slug := new_slug data;
       post_summary := new_summary data; post_contentJson := new_contentJson data;
       post_status := new_status data;
       post_readTimeInMinutes := new_readTimeInMinutes data;
       post_publishedAt := new_publishedAt data;
       post_createdAt := now w; post_updatedAt := now w |} in
  let* _ := set_db (fun d =>
              {| PostsTable := PostsTable d ++ [post]; TagsTable := TagsTable d;
                 PostTagsTable := PostTagsTable d; MediaTable := MediaTable d;
                 PostMediaTable := PostMediaTable d |}) in
  ret post.

(** [MediaRepo.insertMedia]. *)
Definition insertMedia (key url fileName mimeType : jsstring) (sizeInBytes : nat)
  : M MediaRow :=
  let* w := get_world in
  let row :=
    {| media_id := next_id (map media_id (MediaTable (db w)));
       media_key := key; media_url := url; media_fileName := fileName;
       media_mimeType := mimeType; media_sizeInBytes := sizeInBytes |} in
  let* _ := set_db (fun d =>
              {| PostsTable := PostsTable d; TagsTable := TagsTable d;
                 PostTagsTable := PostTagsTable d; MediaTable := MediaTable d ++ [row];
                 PostMediaTable := PostMediaTable d |}) in
  ret row.

(** Modelled from the spec: [TagRepo.findTagByName] and [TagRepo.insertTag]
    of [features/tags/data/tags.data], which is not among the sources; tags
    are reused by name and inserted if absent. *)
Definition findTagByName (d : Database) (name : jsstring) : option TagRow :=
  find (fun t => jsstring_eqb (tag_name t) name) (TagsTable d).

Definition insertTag (name : jsstring) : M TagRow :=
  let* w := get_world in
  let tag :=
    {| tag_id := next_id (map tag_id (TagsTable (db w))); tag_name := name;
       tag_createdAt := now w |} in
  let* _ := set_db (fun d =>
              {| PostsTable := PostsTable d; TagsTable := TagsTable d ++ [tag];
                 PostTagsTable := PostTagsTable d; MediaTable := MediaTable d;
                 PostMediaTable := PostMediaTable d |}) in
  ret tag.

(** [db.insert(PostTagsTable).values(...)]. *)
Definition insertPostTags (links : list (nat * nat)) : M unit :=
  set_db (fun d =>
    {| PostsTable := PostsTable d; TagsTable := TagsTable d;
       PostTagsTable := PostTagsTable d ++ links; MediaTable := MediaTable d;
       PostMediaTable := PostMediaTable d |}).

(** [env.R2.put] and [env.R2.delete]: a call that throws leaves the store
    as it was. *)
Definition R2_put (key : jsstring) (data : bytes) : M unit :=
  fun w =>
    match R2_put_error key w with
    | Some message => (w, Throw message)
    | None => set_R2 (fun store => <[key := data]> store) w
    end.
Definition R2_delete (key : jsstring) : M unit :=
  fun w =>
    match R2_delete_error key w with
    | Some message => (w, Throw message)
    | None => set_R2 (fun store => delete key store) w
    end.

(** *** The numbers of [generateSlug]

    [parseInt], [number > maxSuffix], [maxSuffix + 1] and the template
    literal work on IEEE doubles.  The values that occur there are
    non-negative integers and [Infinity]: [Finite n] is the double whose
    value is the integer [n]. *)
Inductive double : Type :=
  | Finite (n : N)
  | Infinity.

(** The double nearest to the integer [n]: 53 significant bits, a tie goes
    to the even significand, and [Infinity] from [2^1024 - 2^970] on. *)
Definition round_to_double (n : N) : double :=
  let bits := N.size n in
  if (bits <=? 53)%N then Finite n
  else
    let e := (bits - 53)%N in
    let q := N.shiftr n e in
    let r := N.land n (N.ones e) in
    let half := N.shiftl 1 (e - 1) in
    let q' :=
      if (r <? half)%N then q
      else if (half <? r)%N then (q + 1)%N
      else if N.even q then q else (q + 1)%N in
    let v := N.shiftl q' e in
    if (N.size v <=? 1024)%N then Finite v else Infinity.

(** [a < b]. *)
Definition double_ltb (a b : double) : bool :=
  match a, b with
  | Finite x, Finite y => (x <? y)%N
  | Finite _, Infinity => true
  | Infinity, _ => false
  end.

(** [a + 1]. *)
Definition double_succ (a : double) : double :=
  match a with
  | Finite n => round_to_double (n + 1)
  | Infinity => Infinity
  end.

Definition decimal (n : N) : jsstring := str_of_Z (Z.of_N n).

(** Number::toString prints the integer with the fewest significant digits
    that reads back as [x]; of two with that many digits the nearer one.
    [k] digits are tried before [k + 1]; [n] is the number of digits of
    [x]. *)
Fixpoint shortest_decimal (x : N) (n k fuel : nat) : N :=
  match fuel with
  | O => x
  | S fuel' =>
      let step := (10 ^ N.of_nat (n - k))%N in
      let low := (x / step * step)%N in
      let high := (low + step)%N in
      let reads_back y :=
        match round_to_double y with
        | Finite v => (v =? x)%N
        | Infinity => false
        end in
      match reads_back low, reads_back high with
      | true, true => if (x - low <=? high - x)%N then low else high
      | true, false => low
      | false, true => high
      | false, false => shortest_decimal x n (S k) fuel'
      end
  end.

(** The form with an exponent, for a numeral of more than 21 digits:
    [d.ddde+n]. *)
Definition exponent_form (digits : jsstring) : jsstring :=
  let significant := rev (drop_while (fun c => (c =? 48)%N) (rev digits)) in
  let exponent := decimal (N.of_nat (length digits - 1)) in
  match significant with
  | [] => digits
  | [d] => [d] ++ str "e+" ++ exponent
  | d :: more => d :: str "." ++ more ++ str "e+" ++ exponent
  end.

(** What a template literal prints for a number.  Up to [2^53] every
    integer is a double of its own, so the shortest numeral that reads back
    is the decimal numeral itself. *)
Definition Number_toString (x : double) : jsstring :=
  match x with
  | Infinity => str "Infinity"
  | Finite n =>
      if (n <=? 2 ^ 53)%N then decimal n
      else
        let count := length (decimal n) in
        let digits := decimal (shortest_decimal n count 1 count) in
        if (length digits <=? 21)%nat then digits else exponent_form digits
  end.

(** The value of a decimal numeral, as [(\d+)] captures it: none when the
    text is empty or holds another character. *)
Definition digit_value (c : N) : option N :=
  if ((48 <=? c) && (c <=? 57))%N then Some (c - 48)%N else None.

Definition parse_digits (s : jsstring) : option N :=
  match s with
  | [] => None
  | _ =>
      foldl (fun acc c =>
               match acc, digit_value c with
               | Some n, Some v => Some (10 * n + v)%N
               | _, _ => None
               end)
            (Some 0%N) s
  end.

(** [PostService.generateSlug], with no [excludeId].  [parseInt] reads the
    captured digits as the nearest double. *)
Definition generateSlug (title : jsstring) : M jsstring :=
  let* w := get_world in
  let baseSlug := slugify title in
  if negb (slugExists (db w) baseSlug None) then ret baseSlug
  else
    let similarSlugs := findSimilarSlugs (db w) baseSlug None in
    let maxSuffix :=
      foldl (fun maxSuffix slug =>
               if startsWith slug (baseSlug ++ str "-") then
                 match parse_digits (drop (length baseSlug + 1) slug) with
                 | Some value =>
                     let number := round_to_double value in
                     if double_ltb maxSuffix number then number else maxSuffix
                 | None => maxSuffix
                 end
               else maxSuffix)
            (Finite 0) similarSlugs in
    ret (baseSlug ++ str "-" ++ Number_toString (double_succ maxSuffix)).

(** Every number that follows [baseSlug-] in a stored slug is a safe
    integer: below [2^53], where doubles count exactly. *)
Definition safe_suffixes (d : Database) (baseSlug : jsstring) : bool :=
  forallb (fun slug =>
             match parse_digits (drop (length baseSlug + 1) slug) with
             | Some value => (value <? 2 ^ 53)%N
             | None => true
             end)
          (findSimilarSlugs d baseSlug None).
End Repositories.

(** ** Import helpers ([workflows/import-helpers.ts]) *)

(** The messages, as lists of code units. *)
Definition msg_markdown_failed : jsstring :=
  str "Markdown " ++ [36716; 25442; 22833; 36133; 58; 32]%N.
Definition msg_image_missing : jsstring :=
  [22270; 29255; 26410; 22312; 32; 90; 73; 80; 32; 20013; 25214; 21040; 58; 32]%N.
Definition msg_upload_failed : jsstring :=
  [22270; 29255; 19978; 20256; 22833; 36133; 58; 32]%N.
Definition msg_bad_metadata : jsstring :=
  [26080; 27861; 35299; 26512; 25991; 31456; 20803; 25968; 25454; 25110; 20803;
   25968; 25454; 19981; 31526; 21512; 35268; 33539]%N.
Definition msg_zip_not_found : jsstring :=
  str "ZIP " ++ [25991; 20214; 26410; 25214; 21040]%N.
Definition msg_nothing_to_import : jsstring :=
  str "ZIP " ++ [20013; 27809; 26377; 25214; 21040; 21487; 23548; 20837; 30340;
                  25991; 31456]%N.
Definition msg_nothing_to_export : jsstring :=
  [27809; 26377; 25214; 21040; 21487; 23548; 20986; 30340; 25991; 31456]%N.
Definition msg_slug_exists : jsstring :=
  str "] " ++ [24050; 23384; 22312; 30456; 21516]%N ++ str " slug"
  ++ [65292; 36339; 36807; 23548; 20837]%N.

(** A post found in the archive. *)
Record PostEntry : Type := {
  dir : jsstring;
  entry_title : jsstring;
  prefix : jsstring;
  mdPath : option jsstring;
}.

Inductive ImportMode : Type := native | markdown.

(** What [importSinglePost] returns; [skipped] is [true] or absent. *)
Record ImportResult : Type := {
  result_title : jsstring;
  result_slug : jsstring;
  skipped : bool;
  result_warnings : list jsstring;
}.

(** [path.lastIndexOf("/")], as the length of the prefix it selects:
    [path.substring(0, path.lastIndexOf("/"))]. *)
Fixpoint last_slash (path : jsstring) : option nat :=
  match path with
  | [] => None
  | c :: rest =>
      match last_slash rest with
      | Some i => Some (S i)
      | None => if (c =? SLASH)%N then Some 0%nat else None
      end
  end.

Definition directory_of (path : jsstring) : jsstring :=
  match last_slash path with
  | Some i => take i path
  | None => []
  end.

(** [x || fallback] on strings. *)
Definition or_else (x fallback : jsstring) : jsstring :=
  match x with
  | [] => fallback
  | _ => x
  end.

(** [path.split("/").pop()]. *)
Definition last_part (path : jsstring) : jsstring :=
  default [] (last (str_split SLASH path)).

Section ImportHelpers.
Context {R : JsRuntime} {Z : Zod} {G : GrayMatter} {F : Fflate} {J : Json}
        {C : Collaborators} {B : BlobStoreFaults}.

(** The entry of one file: null unless the file has text whose metadata
    normalises.  [parseFrontmatter] may throw. *)
Definition read_entry (zipFiles : Archive) (path : jsstring)
  : result (option PostFrontmatter) :=
  match readTextFile zipFiles path with
  | Some (c :: text) =>
      bind (parseFrontmatter (c :: text))
           (fun parsed => Ok (normalizeFrontmatter (fst parsed)))
  | _ => Ok None
  end.

(** [array.map(f).filter(e => e !== null)], where [f] may throw. *)
Fixpoint map_entries {A B} (f : A -> result (option B)) (l : list A) : result (list B) :=
  match l with
  | [] => Ok []
  | x :: l' =>
      bind (f x) (fun e =>
      bind (map_entries f l') (fun es =>
      Ok match e with
         | Some b => b :: es
         | None => es
         end))
  end.

Definition enumerateNativePosts (zipFiles : Archive) : result (list PostEntry) :=
  let dirs := listDirectories zipFiles (str "posts/") in
  map_entries
    (fun dir =>
       bind (read_entry zipFiles (str "posts/" ++ dir ++ str "/index.md"))
            (fun normalized =>
               Ok match normalized with
                  | None => None
                  | Some fm =>
                      Some {| dir := dir; entry_title := title fm;
                              prefix := str "posts/" ++ dir; mdPath := None |}
                  end))
    dirs.

Definition strip_md (path : jsstring) : jsstring :=
  if endsWith path (str ".md") then take (length path - 3) path else path.

Definition enumerateMarkdownPosts (zipFiles : Archive) : result (list PostEntry) :=
  let mdFiles :=
    List.filter (fun p => endsWith p (str ".md") && negb (startsWith p (str "__MACOSX")))
                (map fst zipFiles) in
  map_entries
    (fun path =>
       let dir := or_else (last_part (strip_md path)) path in
       bind (read_entry zipFiles path)
            (fun normalized =>
               Ok match normalized with
                  | None => None
                  | Some fm =>
                      Some {| dir := dir; entry_title := title fm;
                              prefix := directory_of path; mdPath := Some path |}
                  end))
    mdFiles.

(** [getContentTypeFromKey(name) || "application/octet-stream"]. *)
Definition mime_type_of (name : jsstring) : jsstring :=
  match getContentTypeFromKey name with
  | Some (c :: mime) => c :: mime
  | _ => str "application/octet-stream"
  end.

(** The body of the [try] block of both upload loops: put the bytes in the
    blob store and record a media row. *)
Definition store_image (newKey fileName : jsstring) (imageData : bytes) : M unit :=
  let mimeType := mime_type_of fileName in
  let* _ := R2_put newKey imageData in
  let* _ := insertMedia newKey (str "/images/" ++ newKey) fileName mimeType
                        (length imageData) in
  ret tt.

(** One turn of the loop of [uploadImages]. *)
Definition upload_image (zipFiles : Archive) (imagePrefix : jsstring)
    (state : RewriteMap * list jsstring) (imagePath : jsstring)
  : M (RewriteMap * list jsstring) :=
  let '(rewriteMap, warnings) := state in
  match archive_get zipFiles imagePath with
  | None => ret (rewriteMap, warnings)
  | Some [] => ret (rewriteMap, warnings)
  | Some imageData =>
      let oldKey := drop (length imagePrefix) imagePath in
      let* s := fresh_seed in
      let newKey := generateKey s oldKey in
      try_catch
        (let* _ := store_image newKey oldKey imageData in
         ret (archive_set rewriteMap oldKey newKey, warnings))
        (fun _ => ret (rewriteMap, warnings ++ [msg_upload_failed ++ oldKey]))
  end.

Definition uploadImages (zipFiles : Archive) (entry : PostEntry)
  : M (RewriteMap * list jsstring) :=
  let imagePrefix := prefix entry ++ str "/images/" in
  let imageFiles := listFiles zipFiles imagePrefix in
  foldM (upload_image zipFiles imagePrefix) imageFiles ([], []).

(** One turn of the loop of [uploadMarkdownImages]. *)
Definition upload_markdown_image (zipFiles : Archive) (mdDir : jsstring)
    (state : RewriteMap * list jsstring) (img : jsstring * image_kind)
  : M (RewriteMap * list jsstring) :=
  let '(rewriteMap, warnings) := state in
  let original := fst img in
  let resolvedPath := resolveRelativePath mdDir original in
  match archive_get zipFiles resolvedPath with
  | None => ret (rewriteMap, warnings ++ [msg_image_missing ++ original])
  | Some [] => ret (rewriteMap, warnings)
  | Some imageData =>
      let fileName := or_else (last_part resolvedPath) resolvedPath in
      let* s := fresh_seed in
      let newKey := generateKey s fileName in
      try_catch
        (let* _ := store_image newKey fileName imageData in
         ret (archive_set rewriteMap original
                (str "/images/" ++ newKey ++ str "?quality=80"),
              warnings))
        (fun _ => ret (rewriteMap, warnings ++ [msg_upload_failed ++ original]))
  end.

Definition uploadMarkdownImages (zipFiles : Archive) (markdown mdDir : jsstring)
  : M (jsstring * list jsstring) :=
  let images := extractMarkdownImages markdown in
  let relativeImages :=
    List.filter (fun img => match snd img with relative => true | _ => false end)
                images in
  match relativeImages with
  | [] => ret (markdown, [])
  | _ =>
      let* (rewriteMap, warnings) :=
        foldM (upload_markdown_image zipFiles mdDir) relativeImages ([], []) in
      let rewrittenMarkdown :=
        match rewriteMap with
        | [] => markdown
        | _ => rewriteMarkdownImagePaths markdown rewriteMap
        end in
      ret (rewrittenMarkdown, warnings)
  end.

(** [rewriteImagePaths] of [utils/image-rewriter.ts]: a rewritten copy. *)
Fixpoint rewriteImagePaths (doc : JSONContent) (rewriteMap : RewriteMap) : JSONContent :=
  match doc with
  | Node ty attrs content marks text =>
      let attrs' :=
        match ty, src attrs with
        | ty_image, Some (c :: source) =>
            match extractImageKey (c :: source) with
            | Some (k :: oldKey) =>
                match archive_get rewriteMap (k :: oldKey) with
                | Some newKey =>
                    {| level := level attrs; language := language attrs;
                       src := Some (str "/images/" ++ newKey ++ str "?quality=80");
                       alt := alt attrs; start := start attrs;
                       highlightedHtml := highlightedHtml attrs |}
                | None => attrs
                end
            | _ => attrs
            end
        | _, _ => attrs
        end in
      Node ty attrs'
           match content with
           | Some children =>
               Some (map (fun child => rewriteImagePaths child rewriteMap) children)
           | None => None
           end
           marks text
  end.

(** [highlightCodeBlocks] of [features/posts/utils/content.ts]; a failure of
    [highlight] leaves the block as it is. *)
Fixpoint highlightCodeBlocks (doc : JSONContent) : JSONContent :=
  match doc with
  | Node ty attrs content marks text =>
      let attrs' :=
        match ty with
        | ty_codeBlock =>
            let code :=
              match content with
              | Some nodes => concat (map (fun n => default [] (node_text n)) nodes)
              | None => []
              end in
            let lang := or_else (default [] (language attrs)) (str "text") in
            match highlight (trim code) lang with
            | Ok html =>
                {| level := level attrs; language := language attrs; src := src attrs;
                   alt := alt attrs; start := start attrs;
                   highlightedHtml := Some html |}
            | Throw _ => attrs
            end
        | _ => attrs
        end in
      Node ty attrs'
           match content with
           | Some children => Some (map highlightCodeBlocks children)
           | None => None
           end
           marks text
  end.

(** [[...new Set(tags)]]. *)
Definition unique (l : list jsstring) : list jsstring :=
  foldl (fun seen x => if bool_decide (x ∈ seen) then seen else seen ++ [x]) [] l.

(** Step 1 of [importSinglePost]: the content tree, the raw metadata and the
    warnings so far.  [content.json] is read as a document of the data model
    ([json_as_content]); the code casts whatever [JSON.parse] returns, and
    what it does with a value that is no such document is outside the
    model. *)
Definition parse_native (zipFiles : Archive) (entry : PostEntry)
  : M (option JSONContent * rawdata * list jsstring) :=
  let rawJson := readJsonFile zipFiles (prefix entry ++ str "/content.json") in
  let contentJson := rawJson ≫= json_as_content in
  match readTextFile zipFiles (prefix entry ++ str "/index.md") with
  | Some (c :: mdContent) =>
      let* (data, content) := lift (parseFrontmatter (c :: mdContent)) in
      match contentJson, trim content with
      | None, _ :: _ =>
          match markdownToJsonContent content with
          | Ok tree => ret (Some tree, data, [])
          | Throw message => ret (None, data, [msg_markdown_failed ++ message])
          end
      | _, _ => ret (contentJson, data, [])
      end
  | _ => ret (contentJson, [], [])
  end.

Definition parse_markdown (zipFiles : Archive) (entry : PostEntry)
  : M (option JSONContent * rawdata * list jsstring) :=
  let path :=
    match mdPath entry with
    | Some (c :: p) => c :: p
    | _ => prefix entry ++ str "/" ++ dir entry ++ str ".md"
    end in
  match readTextFile zipFiles path with
  | Some (c :: mdContent) =>
      let* (data, content) := lift (parseFrontmatter (c :: mdContent)) in
      match trim content with
      | _ :: _ =>
          let mdDir := directory_of path in
          let* (rewrittenMarkdown, warnings) :=
            uploadMarkdownImages zipFiles content mdDir in
          match markdownToJsonContent rewrittenMarkdown with
          | Ok tree => ret (Some tree, data, warnings)
          | Throw message =>
              ret (None, data, warnings ++ [msg_markdown_failed ++ message])
          end
      | [] => ret (None, data, [])
      end
  | _ => ret (None, [], [])
  end.

Definition importSinglePost (zipFiles : Archive) (entry : PostEntry) (mode : ImportMode)
  : M ImportResult :=
  (* 1. Parse content *)
  let* (contentJson, metadata, warnings) :=
    match mode with
    | native => parse_native zipFiles entry
    | markdown => parse_markdown zipFiles entry
    end in
  match normalizeFrontmatter metadata with
  | None => throw msg_bad_metadata
  | Some normalized =>
      let title := or_else (title normalized) (str "Untitled") in
      let candidateSlug := or_else (slug normalized) title in
      let* w := get_world in
      if slugExists (db w) (slugify candidateSlug) None then
        ret {| result_title := title; result_slug := candidateSlug; skipped := true;
               result_warnings := warnings |}
      else
        (* 3. Upload images and rewrite paths (native mode only) *)
        let* (contentJson, warnings) :=
          match contentJson, mode with
          | Some tree, native =>
              let* (rewriteMap, imageWarnings) := uploadImages zipFiles entry in
              ret (match rewriteMap with
                   | [] => Some tree
                   | _ => Some (rewriteImagePaths tree rewriteMap)
                   end,
                   warnings ++ imageWarnings)
          | _, _ => ret (contentJson, warnings)
          end in
        (* 4. Highlight code blocks *)
        let contentJson := highlightCodeBlocks <$> contentJson in
        (* 5. Generate unique slug *)
        let* slug := generateSlug (or_else (slug normalized) title) in
        (* 6. Resolve tags *)
        let* tagIds :=
          foldM (fun tagIds tagName =>
                   let* w := get_world in
                   match findTagByName (db w) tagName with
                   | Some tag => ret (tagIds ++ [tag_id tag])
                   | None =>
                       let* tag := insertTag tagName in
                       ret (tagIds ++ [tag_id tag])
                   end)
                (unique (tags normalized)) [] in
        (* 7. Insert post *)
        let* w := get_world in
        let* post :=
          insertPost
            {| new_title := title; new_slug := slug;
               new_summary := summary normalized; new_contentJson := contentJson;
               new_status := status normalized;
               new_readTimeInMinutes := readTimeInMinutes normalized;
               new_publishedAt :=
                 match publishedAt normalized with
                 | Some (c :: iso) => Date_parse (c :: iso)
                 | _ =>
                     match status normalized with
                     | draft => None
                     | published => Some (now w)
                     end
                 end |} in
        (* 8. Link tags *)
        let* _ := insertPostTags (map (fun tagId => (post_id post, tagId)) tagIds) in
        (* 9. Sync post-media relationships *)
        let* _ :=
          match contentJson with
          | Some tree => set_db (fun d => syncPostMedia d (post_id post) tree)
          | None => ret tt
          end in
        ret {| result_title := post_title post; result_slug := post_slug post;
               skipped := false; result_warnings := warnings |}
  end.
End ImportHelpers.

(** ** The workflows ([workflows/import.workflow.ts], [workflows/export.workflow.ts]) *)

Definition msg_image_not_in_r2 (key title : jsstring) : jsstring :=
  [22270; 29255; 32]%N ++ key
  ++ [32; 22312; 32; 82; 50; 32; 20013; 26410; 25214; 21040; 65288; 25991; 31456;
      58; 32]%N
  ++ title ++ [65289]%N.

(** [EXPORT_MANIFEST_VERSION]. *)
Definition EXPORT_MANIFEST_VERSION : jsstring := str "1.0".

Section Workflows.
Context {R : JsRuntime} {Z : Zod} {G : GrayMatter} {F : Fflate} {J : Json}
        {C : Collaborators} {B : BlobStoreFaults}.

(** [IMPORT_EXPORT_CACHE_KEYS] and [IMPORT_EXPORT_R2_KEYS]. *)
Definition exportProgress (taskId : jsstring) : jsstring :=
  str "export:progress:" ++ taskId.
Definition importProgress (taskId : jsstring) : jsstring :=
  str "import:progress:" ++ taskId.
Definition exportZip (taskId : jsstring) : jsstring :=
  str "exports/" ++ taskId ++ str ".zip".

(** [updateProgress]: the progress record replaces the one stored under the
    key. *)
Definition updateProgress (key : jsstring) (progress : TaskProgress) : M unit :=
  set_cache (fun store => <[key := progress]> store).

Definition fetchZipFiles (r2Key : jsstring) : M Archive :=
  let* w := get_world in
  match R2 w !! r2Key with
  | None => throw msg_zip_not_found
  | Some data => lift (parseZip data)
  end.

Definition empty_report : ImportReport :=
  {| succeeded := []; failed_posts := []; report_warnings := [] |}.

Definition entry_label (entry : PostEntry) : jsstring :=
  or_else (entry_title entry) (dir entry).

(** The body of the step [import post i/n]: the delta of one entry.  What
    the import throws becomes a [failed] line. *)
Definition import_post_step (r2Key : jsstring) (mode : ImportMode) (entry : PostEntry)
  : M ImportReport :=
  try_catch
    (let* zipFiles := fetchZipFiles r2Key in
     let* result := importSinglePost zipFiles entry mode in
     let tagged := map (fun w => str "[" ++ result_title result ++ str "] " ++ w)
                       (result_warnings result) in
     if skipped result then
       ret {| succeeded := []; failed_posts := [];
              report_warnings :=
                [str "[" ++ result_title result ++ msg_slug_exists] ++ tagged |}
     else
       ret {| succeeded := [(result_title result, result_slug result)];
              failed_posts := []; report_warnings := tagged |})
    (fun reason =>
       ret {| succeeded := []; failed_posts := [(entry_label entry, reason)];
              report_warnings := [] |}).

(** The loop over the entries: accumulate the delta, then write progress. *)
Fixpoint import_loop (progressKey r2Key : jsstring) (mode : ImportMode) (count : nat)
    (i : nat) (entries : list PostEntry) (report : ImportReport) : M ImportReport :=
  match entries with
  | [] => ret report
  | entry :: more =>
      let* delta := import_post_step r2Key mode entry in
      let report :=
        {| succeeded := succeeded report ++ succeeded delta;
           failed_posts := failed_posts report ++ failed_posts delta;
           report_warnings := report_warnings report ++ report_warnings delta |} in
      let* _ :=
        updateProgress progressKey
          {| task_status := processing; total := count; completed_count := i + 1;
             current := entry_label entry; errors := failed_posts report;
             warnings := report_warnings report; downloadKey := None;
             report := None |} in
      import_loop progressKey r2Key mode count (S i) more report
  end.

(** The step [enumerate posts]. *)
Definition enumerate_posts (r2Key : jsstring) (mode : ImportMode) : M (list PostEntry) :=
  let* zipFiles := fetchZipFiles r2Key in
  match mode with
  | native => lift (enumerateNativePosts zipFiles)
  | markdown => lift (enumerateMarkdownPosts zipFiles)
  end.

(** [ImportWorkflow.run]. *)
Definition ImportWorkflow_run (taskId r2Key : jsstring) (mode : ImportMode) : M unit :=
  let progressKey := importProgress taskId in
  try_catch
    (let* postEntries := enumerate_posts r2Key mode in
     match postEntries with
     | [] =>
         updateProgress progressKey
           {| task_status := completed; total := 0; completed_count := 0;
              current := []; errors := []; warnings := [msg_nothing_to_import];
              downloadKey := None; report := Some empty_report |}
     | _ =>
         let count := length postEntries in
         let* report :=
           import_loop progressKey r2Key mode count 0 postEntries empty_report in
         (* finalize: an error of the clean-up is ignored *)
         let* _ := try_catch (R2_delete r2Key) (fun _ => ret tt) in
         updateProgress progressKey
           {| task_status := completed; total := count; completed_count := count;
              current := []; errors := failed_posts report;
              warnings := report_warnings report; downloadKey := None;
              report := Some report |}
     end)
    (fun message =>
       updateProgress progressKey
         {| task_status := failed; total := 0; completed_count := 0; current := [];
            errors := []; warnings := [message]; downloadKey := None;
            report := None |}).

(** A post with its tags, as [PostRepo.findFullPosts] returns it. *)
Definition FullPost : Type := PostRow * list TagRow.

(** [ORDER BY createdAt DESC]. *)
Fixpoint insert_desc (p : PostRow) (sorted : list PostRow) : list PostRow :=
  match sorted with
  | [] => [p]
  | q :: rest =>
      if time_leb (post_createdAt q) (post_createdAt p) then p :: sorted
      else q :: insert_desc p rest
  end.

Definition findFullPosts (d : Database) (ids : option (list nat))
    (status : option PostStatus) : list FullPost :=
  let selected :=
    List.filter (fun p =>
                   match ids with
                   | Some (i :: more) => bool_decide (post_id p ∈ i :: more)
                   | _ => true
                   end
                   && match status with
                      | Some st => bool_decide (post_status p = st)
                      | None => true
                      end)
                (PostsTable d) in
  map (fun p =>
         (p, omap (fun link =>
                     if (fst link =? post_id p)%nat then
                       find (fun t => (tag_id t =? snd link)%nat) (TagsTable d)
                     else None)
                  (PostTagsTable d)))
      (foldr insert_desc [] selected).

(** [extractAllImageKeys] of [features/posts/utils/content.ts]. *)
Fixpoint image_keys (node : JSONContent) : list jsstring :=
  match node with
  | Node ty attrs content _ _ =>
      match ty, src attrs with
      | ty_image, Some (c :: source) =>
          match extractImageKey (c :: source) with
          | Some (k :: key) => [k :: key]
          | _ => []
          end
      | _, _ => []
      end
      ++ match content with
         | Some children => concat (map image_keys children)
         | None => []
         end
  end.

Definition extractAllImageKeys (doc : option JSONContent) : list jsstring :=
  match doc with
  | Some tree => unique (image_keys tree)
  | None => []
  end.

(** [makeExportImageRewriter]. *)
Definition makeExportImageRewriter (source : jsstring) : jsstring :=
  match extractImageKey source with
  | Some (k :: key) => str "./images/" ++ k :: key
  | _ => source
  end.

(** One turn of the loop over the posts inside the step [build and upload
    export]. *)
Definition export_post (progressKey : jsstring) (count : nat)
    (state : list (jsstring * Content) * list jsstring) (indexed : nat * FullPost)
  : M (list (jsstring * Content) * list jsstring) :=
  let '(zipFiles, warnings) := state in
  let '(i, (post, postTags)) := indexed in
  let prefix := str "posts/" ++ post_slug post in
  let frontmatter :=
    {| title := post_title post; slug := post_slug post; summary := post_summary post;
       status := post_status post;
       publishedAt := Date_toISOString <$> post_publishedAt post;
       createdAt := Some (Date_toISOString (post_createdAt post));
       updatedAt := Some (Date_toISOString (post_updatedAt post));
       readTimeInMinutes := post_readTimeInMinutes post;
       tags := map tag_name postTags |} in
  let markdown :=
    match post_contentJson post with
    | Some tree => jsonContentToMarkdown (Some makeExportImageRewriter) tree
    | None => []
    end in
  let zipFiles :=
    archive_set zipFiles (prefix ++ str "/index.md")
                (Text (stringifyFrontmatter frontmatter markdown)) in
  let zipFiles :=
    match post_contentJson post with
    | Some tree =>
        archive_set zipFiles (prefix ++ str "/content.json")
                    (Text (JSON_stringify_content tree))
    | None => zipFiles
    end in
  let* w := get_world in
  let '(zipFiles, warnings) :=
    foldl (fun '(zipFiles, warnings) key =>
             match R2 w !! key with
             | Some data =>
                 (archive_set zipFiles (prefix ++ str "/images/" ++ key) (Binary data),
                  warnings)
             | None => (zipFiles, warnings ++ [msg_image_not_in_r2 key (post_title post)])
             end)
          (zipFiles, warnings) (extractAllImageKeys (post_contentJson post)) in
  let* _ :=
    updateProgress progressKey
      {| task_status := processing; total := count; completed_count := i + 1;
         current := post_title post; errors := []; warnings := warnings;
         downloadKey := None; report := None |} in
  ret (zipFiles, warnings).

(** [ExportWorkflow.run]; the run ends after the clean-up that follows the
    24 hour sleep. *)
Definition ExportWorkflow_run (taskId : jsstring) (postIds : option (list nat))
    (status : option PostStatus) : M unit :=
  let progressKey := exportProgress taskId in
  try_catch
    (let* w := get_world in
     let posts := findFullPosts (db w) postIds status in
     match posts with
     | [] =>
         updateProgress progressKey
           {| task_status := completed; total := 0; completed_count := 0;
              current := []; errors := []; warnings := [msg_nothing_to_export];
              downloadKey := None; report := None |}
     | _ =>
         let count := length posts in
         let* (zipFiles, warnings) :=
           foldM (export_post progressKey count)
                 (mapi_from (fun i p => (i, p)) 0 posts) ([], []) in
         let uniqueTags :=
           foldl (fun seen tag =>
                    archive_set seen (tag_name tag) (Date_toISOString (tag_createdAt tag)))
                 [] (concat (map snd posts)) in
         let zipFiles :=
           archive_set zipFiles (str "tags.json") (Text (JSON_stringify_tags uniqueTags)) in
         let* w := get_world in
         let zipFiles :=
           archive_set zipFiles (str "manifest.json")
             (Text (JSON_stringify_manifest EXPORT_MANIFEST_VERSION
                      (Date_toISOString (now w)) count (str "blog-cms"))) in
         let zipData := buildZip zipFiles in
         let r2Key := exportZip taskId in
         let* _ := R2_put r2Key zipData in
         let* _ :=
           updateProgress progressKey
             {| task_status := completed; total := count; completed_count := count;
                current := []; errors := []; warnings := warnings;
                downloadKey := Some r2Key; report := None |} in
         (* cleanup after the delay: an error of the clean-up is ignored *)
         try_catch (R2_delete r2Key) (fun _ => ret tt)
     end)
    (fun message =>
       updateProgress progressKey
         {| task_status := failed; total := 0; completed_count := 0; current := [];
            errors := []; warnings := [message]; downloadKey := None;
            report := None |}).
End Workflows.

(** ** Starting a task ([import-export.service.ts], [posts.service.ts]) *)

Definition msg_preparing_import : jsstring :=
  [20934; 22791; 23548; 20837]%N ++ str "...".

(** [IMPORT_EXPORT_R2_KEYS.importZip]. *)
Definition importZip (taskId : jsstring) : jsstring :=
  str "imports/" ++ taskId ++ str ".zip".

(** A [File] of the upload: its name and its bytes. *)
Record UploadedFile : Type := {
  file_name : jsstring;
  file_data : bytes;
}.

(** What [startImport] calls besides the archive codec: [crypto.randomUUID],
    which draws on the seed of the world; the [create] method of the
    workflow binding, which may throw; and [ExportManifestSchema.safeParse],
    which gives the issues or the manifest. *)
Class ServicePlatform `{Json} := {
  randomUUID : nat -> jsstring;
  IMPORT_WORKFLOW_create : jsstring -> jsstring -> ImportMode -> result unit;
  manifest_issues : Type;
  ExportManifest : Type;
  ExportManifestSchema_safeParse : json -> manifest_issues + ExportManifest;
}.

(** The [reason] of an error result. *)
Inductive StartError : Type := NO_FILES | UPLOAD_FAILED | WORKFLOW_CREATE_FAILED.

Section Service.
Context {R : JsRuntime} {Z : Zod} {F : Fflate} {J : Json} {C : Collaborators}
        {B : BlobStoreFaults} {P : ServicePlatform}.

(** [initialProgress]. *)
Definition pending_progress (current : jsstring) : TaskProgress :=
  {| task_status := pending; total := 0; completed_count := 0; current := current;
     errors := []; warnings := []; downloadKey := None; report := None |}.

(** [CacheService.deleteKey]. *)
Definition deleteKey (key : jsstring) : M unit :=
  set_cache (fun store => delete key store).

(** [startImport]: [ok({ taskId, mode })] or [err({ reason })]. *)
Definition startImport (files : list UploadedFile)
  : M (StartError + jsstring * ImportMode) :=
  match files with
  | [] => ret (inl NO_FILES)
  | first :: more =>
      let* s := fresh_seed in
      let taskId := randomUUID s in
      let r2Key := importZip taskId in
      (* 1. Build ZIP data + detect mode *)
      let isZip :=
        match more with
        | [] => endsWith (file_name first) (str ".zip")
        | _ :: _ => false
        end in
      let zipData :=
        if isZip then file_data first
        else
          let zipEntries :=
            fold_left (fun zipEntries file =>
                         object_set zipEntries (file_name file)
                                    (Binary (file_data file)))
                      files [] in
          buildZip zipEntries in
      match parseZip zipData with
      | Throw _ => ret (inl UPLOAD_FAILED)
      | Ok zipFiles =>
          let manifest :=
            fst (readValidatedJsonFile zipFiles (str "manifest.json")
                                       ExportManifestSchema_safeParse) in
          let mode :=
            match manifest with
            | Some _ => native
            | None => markdown
            end in
          (* 2. Upload to R2 *)
          let* uploaded :=
            try_catch (let* _ := R2_put r2Key zipData in ret true)
                      (fun _ => ret false) in
          if uploaded then
            (* 3. Init progress + start workflow *)
            let* _ :=
              updateProgress (importProgress taskId)
                             (pending_progress msg_preparing_import) in
            match IMPORT_WORKFLOW_create taskId r2Key mode with
            | Ok _ => ret (inr (taskId, mode))
            | Throw _ =>
                let* _ := deleteKey (importProgress taskId) in
                ret (inl WORKFLOW_CREATE_FAILED)
            end
          else ret (inl UPLOAD_FAILED)
      end
  end.

(** [createEmptyPost] of [posts.service.ts]: the id of the new draft. *)
Definition createEmptyPost : M nat :=
  let* slug := generateSlug [] in
  let* post :=
    insertPost {| new_title := []; new_slug := slug; new_summary := Some [];
                  new_contentJson := None; new_status := draft;
                  new_readTimeInMinutes := number_one; new_publishedAt := None |} in
  ret (post_id post).
End Service.

(** ** A reference platform

    Small executable instances of the interfaces above, on which the
    definitions can be run. *)

(** Integer numbers; every number passes [z.number()]. *)
#[local] Instance ref_runtime : JsRuntime := {|
  number := Z;
  number_one := 1%Z;
  number_truthy := fun n => negb (n =? 0)%Z;
  time := jsstring;
  Date_parse := fun s =>
    match s with
    | c :: t => if (c =? 84)%N then Some t else None
    | [] => None
    end;
  Date_toISOString := fun t => 84%N :: t;
  time_leb := fun a b => bool_decide (length a <= length b)%nat;
  toLowerCase := map (fun c => if ((65 <=? c) && (c <=? 90))%N then (c + 32)%N else c);
|}.

#[local] Instance ref_zod : Zod := {| z_number := fun _ => true |}.

(** A small metadata parser in the manner of [gray-matter]: text without a
    leading [---] line passes through with empty metadata; otherwise the lines
    up to the closing [---] are loaded as [key: value] pairs and, like the YAML
    loader behind [matter], the loader raises [YAMLException] on a line it
    cannot load (no [": "], or a flow sequence that is not closed). *)
Fixpoint split_key_value (line : jsstring) : option (jsstring * jsstring) :=
  match line with
  | [] => None
  | c :: rest =>
      if startsWith line (str ": ") then Some ([], drop 2 line)
      else match split_key_value rest with
           | Some (key, value) => Some (c :: key, value)
           | None => None
           end
  end.

Definition load_value (value : jsstring) : result (@jsval ref_runtime) :=
  if jsstring_eqb value (str "true") then Ok (JBool true)
  else if jsstring_eqb value (str "false") then Ok (JBool false)
  else if startsWith value (str "[") && negb (endsWith value (str "]"))
       then Throw (str "YAMLException")
       else Ok (JStr value).

Fixpoint load_block (lines : list jsstring)
  : result (@rawdata ref_runtime * list jsstring) :=
  match lines with
  | [] => Ok ([], [])
  | line :: more =>
      if jsstring_eqb line (str "---") then Ok ([], more)
      else match split_key_value line with
           | None => Throw (str "YAMLException")
           | Some (key, value) =>
               bind (load_value value) (fun v =>
               bind (load_block more) (fun '(data, body) =>
               Ok ((key, v) :: data, body)))
           end
  end.

#[local] Instance simple_matter : GrayMatter := {|
  matter := fun raw =>
    if startsWith raw (str "---" ++ [LF]) then
      bind (load_block (str_split LF (drop 4 raw)))
           (fun '(data, body) => Ok (data, str_join [LF] body))
    else Ok ([], raw);
  matter_stringify := fun content data =>
    str "---" ++ [LF]
    ++ concat (map (fun '(key, v) =>
                      key ++ str ": "
                      ++ match v with JStr s => s | _ => [] end ++ [LF])
                   data)
    ++ str "---" ++ [LF] ++ content;
|}.

(** A store-only archive format: every length and code unit in unary. *)
Definition enc_nat (n : nat) : bytes := repeat Byte.x01 n ++ [Byte.x00].

Fixpoint dec_nat (data : bytes) : option (nat * bytes) :=
  match data with
  | Byte.x00 :: rest => Some (O, rest)
  | Byte.x01 :: rest =>
      match dec_nat rest with
      | Some (n, rest') => Some (S n, rest')
      | None => None
      end
  | _ => None
  end.

Definition enc_unit (c : N) : bytes := enc_nat (N.to_nat c).
Definition dec_unit (data : bytes) : option (N * bytes) :=
  match dec_nat data with
  | Some (n, rest) => Some (N.of_nat n, rest)
  | None => None
  end.

Definition enc_byte (b : Byte.byte) : bytes := [b].
Definition dec_byte (data : bytes) : option (Byte.byte * bytes) :=
  match data with
  | b :: rest => Some (b, rest)
  | [] => None
  end.

Definition enc_list {A} (enc : A -> bytes) (l : list A) : bytes :=
  enc_nat (length l) ++ concat (map enc l).

Fixpoint dec_items {A} (dec : bytes -> option (A * bytes)) (n : nat) (data : bytes)
  : option (list A * bytes) :=
  match n with
  | O => Some ([], data)
  | S n' =>
      match dec data with
      | Some (x, rest) =>
          match dec_items dec n' rest with
          | Some (l, rest') => Some (x :: l, rest')
          | None => None
          end
      | None => None
      end
  end.

Definition dec_list {A} (dec : bytes -> option (A * bytes)) (data : bytes)
  : option (list A * bytes) :=
  match dec_nat data with
  | Some (n, rest) => dec_items dec n rest
  | None => None
  end.

Definition enc_entry (e : jsstring * bytes) : bytes :=
  enc_list enc_unit (fst e) ++ enc_list enc_byte (snd e).
Definition dec_entry (data : bytes) : option ((jsstring * bytes) * bytes) :=
  match dec_list dec_unit data with
  | Some (p, rest) =>
      match dec_list dec_byte rest with
      | Some (b, rest') => Some ((p, b), rest')
      | None => None
      end
  | None => None
  end.

#[local] Instance store_codec : Fflate := {|
  strToU8 := fun s => flat_map (fun c => [default Byte.x3f (Byte.of_N (c mod 256))]) s;
  strFromU8 := fun b => map Byte.to_N b;
  zipSync := fun files _ => enc_list enc_entry files;
  unzipSync := fun data =>
    match dec_list dec_entry data with
    | Some (files, []) => Ok files
    | _ => Throw (str "invalid zip data")
    end;
|}.

(** [JSON.parse] on the reference platform accepts only the literal [null]. *)
#[local] Instance ref_json : Json := {|
  json := unit;
  JSON_parse := fun text =>
    if jsstring_eqb text (str "null") then Ok tt else Throw (str "SyntaxError");
|}.

(** Stand-ins for the collaborators: keys are numbered, the storage key of
    [/images/key?query] is [key], markdown becomes one paragraph. *)
#[local] Instance ref_collaborators : Collaborators := {|
  generateKey := fun s name => str_of_Z (Z.of_nat s) ++ str "-" ++ name;
  getContentTypeFromKey := fun name =>
    if endsWith name (str ".png") then Some (str "image/png") else None;
  extractImageKey := fun source =>
    if startsWith source (str "/images/")
    then Some (fst (span_until 63%N (drop 8 source)))
    else None;
  markdownToJsonContent := fun markdown =>
    Ok (mk_doc [mk_paragraph [mk_text markdown []]]);
  highlight := fun code _ => Ok code;
  syncPostMedia := fun d _ _ => d;
  json_as_content := fun _ => None;
  JSON_stringify_content := fun _ => str "{}";
  JSON_stringify_tags := fun _ => str "[]";
  JSON_stringify_manifest := fun _ _ _ _ => str "{}";
|}.

(** A blob store that never fails. *)
#[local] Instance ref_faults : BlobStoreFaults := {|
  R2_put_error := fun _ _ => None;
  R2_delete_error := fun _ _ => None;
|}.

(** A blob store whose every call fails. *)
Definition broken_store : BlobStoreFaults := {|
  R2_put_error := fun _ _ => Some (str "R2 unavailable");
  R2_delete_error := fun _ _ => Some (str "R2 unavailable");
|}.

(** Task ids are numbered, the workflow is always created and every JSON
    value is a manifest. *)
#[local] Instance ref_service : ServicePlatform := {|
  randomUUID := fun s => str "task-" ++ str_of_Z (Z.of_nat s);
  IMPORT_WORKFLOW_create := fun _ _ _ => Ok tt;
  manifest_issues := unit;
  ExportManifest := unit;
  ExportManifestSchema_safeParse := fun _ => inr tt;
|}.

(** Two markdown files as a browser uploads them. *)
Definition loose_files : list UploadedFile :=
  [ {| file_name := str "a.md"; file_data := strToU8 (str "first") |};
    {| file_name := str "b.md"; file_data := strToU8 (str "second") |} ].

(** A mapping whose only path is [__proto__], with no bytes. *)
Definition proto_mapping : list (jsstring * Content) :=
  [(str "__proto__", Binary [])].

(** A Hugo-style raw record. *)
Definition hugo_post : @rawdata ref_runtime :=
  [ (str "title", JStr (str "Hello"));
    (str "url", JStr (str "/posts/my-post/"));
    (str "draft", JBool true);
    (str "status", JStr (str "published"));
    (str "date", JStr (84%N :: str "2024-01-15"));
    (str "categories", JArr [JStr (str "A"); JStr (str "B")]) ].

(** A platform whose numbers include [NaN] (here [None]), which
    [z.number()] rejects. *)
Definition nan_runtime : JsRuntime := {|
  number := option Z;
  number_one := Some 1%Z;
  number_truthy := fun n =>
    match n with
    | Some z => negb (z =? 0)%Z
    | None => false
    end;
  time := jsstring;
  Date_parse := @Date_parse ref_runtime;
  Date_toISOString := @Date_toISOString ref_runtime;
  time_leb := @time_leb ref_runtime;
  toLowerCase := @toLowerCase ref_runtime;
|}.

Definition nan_zod : @Zod nan_runtime :=
  {| z_number := fun n : @number nan_runtime =>
       match n with
       | Some _ => true
       | None => false
       end |}.

(** A raw record with a title, the draft flag, an explicit status, two
    categories and a read time that is [NaN]. *)
Definition nan_post : @rawdata nan_runtime :=
  [ (str "title", JStr (str "Hello"));
    (str "draft", JBool true);
    (str "status", JStr (str "published"));
    (str "categories", JArr [JStr (str "A"); JStr (str "B")]);
    (str "readTimeInMinutes", JNum (None : @number nan_runtime)) ].

(** A file whose metadata block holds YAML with an unclosed bracket. *)
Definition malformed_post : jsstring :=
  str "---" ++ [LF] ++ str "title: [unclosed" ++ [LF] ++ str "---" ++ [LF]
  ++ str "Body".

(** The table of the test-suite: a header row and one data row. *)
Definition sample_table : JSONContent :=
  mk_node ty_table
    [ mk_node ty_tableRow
        [ mk_node ty_tableHeader [mk_paragraph [mk_text (str "Name") []]];
          mk_node ty_tableHeader [mk_paragraph [mk_text (str "Age") []]] ];
      mk_node ty_tableRow
        [ mk_node ty_tableCell [mk_paragraph [mk_text (str "Alice") []]];
          mk_node ty_tableCell [mk_paragraph [mk_text (str "30") []]] ] ].

Definition sample_doc : JSONContent :=
  mk_doc [ mk_heading 2 [mk_text (str "Title") []];
           mk_paragraph [mk_text (str "hello ") []; mk_text (str "bold") [mark mk_bold]];
           sample_table ].

Definition nested_list_doc : JSONContent :=
  mk_doc [ mk_node ty_bulletList
             [ mk_node ty_listItem
                 [ mk_paragraph [mk_text (str "parent") []];
                   mk_node ty_bulletList
                     [ mk_node ty_listItem [mk_paragraph [mk_text (str "child") []]] ] ] ] ].

(** A document with one stored image. *)
Definition image_doc : JSONContent :=
  mk_doc [ mk_paragraph [mk_text (str "see") []];
           Node ty_image
                {| level := None; language := None;
                   src := Some (str "/images/a.png?quality=80");
                   alt := Some (str "a"); start := None; highlightedHtml := None |}
                None [] None ].

(** A document whose bold text holds a blank run and whose table has an
    empty header row. *)
Definition gapped_text : jsstring := str "a" ++ [LF; LF; LF] ++ str "b".

Definition headless_table : JSONContent :=
  mk_node ty_table
    [ mk_node ty_tableRow [];
      mk_node ty_tableRow
        [ mk_node ty_tableCell [mk_paragraph [mk_text (str "x") []]] ] ].

Definition tricky_doc_nodes : list JSONContent :=
  [ mk_heading 2 [mk_text (str "Title") []];
    mk_paragraph [mk_text gapped_text [mark mk_bold]];
    headless_table ].

(** The title and slug under which a stored post is reported. *)
Definition reported `{Zod} (post : PostRow) : jsstring * jsstring :=
  (post_title post, post_slug post).

(** What the posts table and a report gain together: rows are only
    appended, the appended rows are the posts listed as succeeded, and the
    slugs stay pairwise distinct if they were. *)
Definition report_matches `{Zod} (w w' : World)
    (succeeded : list (jsstring * jsstring)) : Prop :=
  exists more,
    PostsTable (db w') = PostsTable (db w) ++ more
    /\ succeeded = map reported more
    /\ (NoDup (map post_slug (PostsTable (db w))) ->
        NoDup (map post_slug (PostsTable (db w')))).

(** *** What a skipped import must leave alone *)

(** The slug [importSinglePost] looks up before it imports. *)
Definition candidate_slug `{Zod} (normalized : PostFrontmatter) : jsstring :=
  or_else (slug normalized) (or_else (title normalized) (str "Untitled")).

(** The posts, tags, links and progress records of two worlds agree; media
    rows and blobs may differ. *)
Definition same_posts `{Zod} (w w' : World) : Prop :=
  PostsTable (db w') = PostsTable (db w)
  /\ TagsTable (db w') = TagsTable (db w)
  /\ PostTagsTable (db w') = PostTagsTable (db w)
  /\ PostMediaTable (db w') = PostMediaTable (db w)
  /\ cache w' = cache w.

(** *** Sample worlds *)

Definition no_rows : @Database ref_runtime :=
  {| PostsTable := []; TagsTable := []; PostTagsTable := []; MediaTable := [];
     PostMediaTable := [] |}.

(** A database that already holds a post with the slug [existing-post]. *)
Definition existing_post : @PostRow ref_runtime :=
  {| post_id := 1; post_title := str "Existing Post"; post_slug := str "existing-post";
     post_summary := None; post_contentJson := None; post_status := published;
     post_readTimeInMinutes := 1%Z; post_publishedAt := None;
     post_createdAt := str "2024-01-01"; post_updatedAt := str "2024-01-01" |}.

Definition seeded_db : @Database ref_runtime :=
  {| PostsTable := [existing_post]; TagsTable := []; PostTagsTable := [];
     MediaTable := []; PostMediaTable := [] |}.

(** Untitled drafts, as [createEmptyPost] leaves them. *)
Definition draft_post (id : nat) (slug : jsstring) : @PostRow ref_runtime :=
  {| post_id := id; post_title := []; post_slug := slug; post_summary := Some [];
     post_contentJson := None; post_status := draft; post_readTimeInMinutes := 1%Z;
     post_publishedAt := None; post_createdAt := str "2024-01-01";
     post_updatedAt := str "2024-01-01" |}.

Definition world_of_posts (posts : list (@PostRow ref_runtime)) : @World ref_runtime :=
  {| db := {| PostsTable := posts; TagsTable := []; PostTagsTable := [];
              MediaTable := []; PostMediaTable := [] |};
     R2 := ∅; cache := ∅; now := str "2024-06-01"; seed := 0 |}.

(** Two drafts, the second with the suffix 1. *)
Definition drafts_world : @World ref_runtime :=
  world_of_posts [draft_post 1 (str "untitled-log"); draft_post 2 (str "untitled-log-1")].

(** Two drafts, the second with the suffix [2^53]. *)
Definition crowded_world : @World ref_runtime :=
  world_of_posts [draft_post 1 (str "untitled-log");
                  draft_post 2 (str "untitled-log-9007199254740992")].

(** A plain-markdown archive: one post that reuses the slug and refers to an
    image next to it. *)
Definition duplicate_markdown : jsstring :=
  str "---" ++ [LF] ++ str "title: Duplicate" ++ [LF] ++ str "slug: existing-post"
  ++ [LF] ++ str "---" ++ [LF] ++ str "![pic](./pic.png)".

Definition markdown_archive : Archive :=
  [ (str "post.md", strToU8 duplicate_markdown);
    (str "pic.png", [Byte.x89; Byte.x50; Byte.x4e; Byte.x47]) ].

Definition markdown_entry : PostEntry :=
  {| dir := str "post"; entry_title := str "Duplicate"; prefix := [];
     mdPath := Some (str "post.md") |}.

(** The same post in the native layout, with its image under [images/]. *)
Definition native_archive : Archive :=
  [ (str "posts/existing-post/index.md", strToU8 duplicate_markdown);
    (str "posts/existing-post/images/pic.png", [Byte.x89; Byte.x50; Byte.x4e; Byte.x47]) ].

Definition native_entry : PostEntry :=
  {| dir := str "existing-post"; entry_title := str "Duplicate";
     prefix := str "posts/existing-post"; mdPath := None |}.

Definition seeded_world : @World ref_runtime :=
  {| db := seeded_db; R2 := ∅; cache := ∅; now := str "2024-06-01"; seed := 0 |}.

(** A world with no post whose blob store holds the archive in the native
    layout. *)
Definition native_import_world : @World ref_runtime :=
  {| db := no_rows; R2 := {[ str "imports/t2.zip" := zipSync native_archive 6 ]};
     cache := ∅; now := str "2024-06-01"; seed := 0 |}.

(** A world whose blob store holds an archive without posts. *)
Definition empty_import_world : @World ref_runtime :=
  {| db := no_rows;
     R2 := {[ str "imports/t1.zip" := zipSync [(str "readme.txt", [Byte.x68; Byte.x69])] 6 ]};
     cache := ∅; now := str "2024-06-01"; seed := 0 |}.

(** * Part II: theorems *)

(** ** Lists of code units *)

Lemma jsstring_eqb_true (a b : jsstring) : jsstring_eqb a b = true <-> a = b.
Proof. unfold jsstring_eqb. apply bool_decide_eq_true. Qed.

Lemma jsstring_eqb_false (a b : jsstring) : jsstring_eqb a b = false <-> a <> b.
Proof. unfold jsstring_eqb. apply bool_decide_eq_false. Qed.

Lemma jsstring_eqb_refl (a : jsstring) : jsstring_eqb a a = true.
Proof. by apply jsstring_eqb_true. Qed.

(** ** The archive codec *)

Section ZipFacts.
Context `{FL : FflateLaws} `{J : Json}.

Lemma archive_set_fresh {V} (files : list (jsstring * V)) path v :
  path ∉ map fst files -> archive_set files path v = files ++ [(path, v)].
Proof.
  induction files as [|[p w] files IH]; simpl; intros Hfresh; [done|].
  rewrite not_elem_of_cons in Hfresh. destruct Hfresh as [Hne Hfresh].
  destruct (jsstring_eqb p path) eqn:E.
  - apply jsstring_eqb_true in E. congruence.
  - by rewrite IH.
Qed.

Lemma object_set_fresh {V} (files : list (jsstring * V)) path v :
  path <> str "__proto__" -> path ∉ map fst files ->
  object_set files path v = files ++ [(path, v)].
Proof.
  intros Hproto Hfresh. unfold object_set.
  rewrite bool_decide_eq_false_2 by done. by apply archive_set_fresh.
Qed.

(** Filling [prepared] from entries with distinct paths, none of them
    [__proto__], appends them in order. *)
Lemma prepared_entries (files : list (jsstring * Content)) (acc : Archive) :
  str "__proto__" ∉ map fst files ->
  NoDup (map fst acc ++ map fst files) ->
  fold_left (fun prepared '(path, content) =>
               object_set prepared path (toU8 content)) files acc
  = acc ++ map (fun '(path, content) => (path, toU8 content)) files.
Proof.
  revert acc. induction files as [|[p c] files IH]; simpl; intros acc Hproto Hnd.
  - by rewrite app_nil_r.
  - rewrite not_elem_of_cons in Hproto. destruct Hproto as [Hp Hproto].
    rewrite object_set_fresh.
    + rewrite IH.
      * by rewrite <- app_assoc.
      * done.
      * rewrite map_app. simpl. rewrite <- app_assoc. exact Hnd.
    + done.
    + apply NoDup_app in Hnd as (_ & Hdisj & _).
      intros Hin. apply (Hdisj p Hin). left.
Qed.

Lemma prepared_paths (files : list (jsstring * Content)) :
  map fst (map (fun '(path, content) => (path, toU8 content)) files) = map fst files.
Proof. induction files as [|[p c] files IH]; simpl; congruence. Qed.

(** C10. A file that is present with a zero-length payload reads as the
    empty string with [readTextFile], while [readJsonFile] and
    [readValidatedJsonFile] both return null for it, exactly as they do for
    a path that is missing, and nothing is logged. *)
Theorem empty_file_reads_as_missing (files : Archive) (path : jsstring) :
  archive_get files path = Some [] ->
  readTextFile files path = Some []
  /\ readJsonFile files path = None
  /\ (forall T I (schema : json -> I + T),
        readValidatedJsonFile files path schema = (None, []))
  /\ (forall other missing, archive_get other missing = None ->
        readJsonFile other missing = readJsonFile files path
        /\ forall T I (schema : json -> I + T),
             readValidatedJsonFile other missing schema
             = readValidatedJsonFile files path schema).
Proof.
  intros Hget.
  assert (Htext : readTextFile files path = Some []).
  { unfold readTextFile. rewrite Hget. by rewrite strFromU8_nil. }
  split; [exact Htext|].
  assert (Hjson : readJsonFile files path = None).
  { unfold readJsonFile. by rewrite Htext. }
  assert (Hval : forall T I (schema : json -> I + T),
             readValidatedJsonFile files path schema = (None, [])).
  { intros. unfold readValidatedJsonFile. by rewrite Htext. }
  split; [exact Hjson|]. split; [exact Hval|].
  intros other missing Hmiss. split.
  - rewrite Hjson. unfold readJsonFile, readTextFile. by rewrite Hmiss.
  - intros. rewrite Hval. unfold readValidatedJsonFile, readTextFile.
    by rewrite Hmiss.
Qed.
End ZipFacts.

(** The store-only format opens what it built. *)

Lemma dec_nat_enc_nat (n : nat) (rest : bytes) :
  dec_nat (enc_nat n ++ rest) = Some (n, rest).
Proof.
  unfold enc_nat. induction n as [|n IH]; simpl; [done|]. by rewrite IH.
Qed.

Lemma dec_unit_enc_unit (c : N) (rest : bytes) :
  dec_unit (enc_unit c ++ rest) = Some (c, rest).
Proof.
  unfold dec_unit, enc_unit. rewrite dec_nat_enc_nat. by rewrite N2Nat.id.
Qed.

Lemma dec_items_enc {A} (enc : A -> bytes) dec (l : list A) (rest : bytes) :
  (forall x r, dec (enc x ++ r) = Some (x, r)) ->
  dec_items dec (length l) (concat (map enc l) ++ rest) = Some (l, rest).
Proof.
  intros Hdec. induction l as [|x l IH]; simpl; [done|].
  rewrite <- app_assoc, Hdec. by rewrite IH.
Qed.

Lemma dec_list_enc_list {A} (enc : A -> bytes) dec (l : list A) (rest : bytes) :
  (forall x r, dec (enc x ++ r) = Some (x, r)) ->
  dec_list dec (enc_list enc l ++ rest) = Some (l, rest).
Proof.
  intros Hdec. unfold dec_list, enc_list.
  rewrite <- app_assoc, dec_nat_enc_nat. by apply dec_items_enc.
Qed.

Lemma dec_entry_enc_entry (e : jsstring * bytes) (rest : bytes) :
  dec_entry (enc_entry e ++ rest) = Some (e, rest).
Proof.
  destruct e as [p b]. unfold dec_entry, enc_entry. simpl.
  rewrite <- app_assoc.
  rewrite (dec_list_enc_list enc_unit dec_unit) by apply dec_unit_enc_unit.
  by rewrite (dec_list_enc_list enc_byte dec_byte).
Qed.

#[local] Instance store_codec_laws : FflateLaws store_codec.
Proof.
  split; [done|].
  intros files level _. simpl.
  rewrite <- (app_nil_r (enc_list enc_entry files)).
  by rewrite (dec_list_enc_list enc_entry dec_entry) by apply dec_entry_enc_entry.
Qed.


(** With a package that opens what it built, the archive of that mapping
    opens to no entry at all. *)
Lemma proto_mapping_opens_empty : parseZip (buildZip proto_mapping) = Ok [].
Proof. by vm_compute. Qed.

Lemma empty_file_reads_as_missing_witness :
  archive_get [(str "content.json", [] : bytes)] (str "content.json") = Some []
  /\ readJsonFile [(str "content.json", [] : bytes)] (str "content.json") = None.
Proof.
  split; [reflexivity|].
  destruct (empty_file_reads_as_missing (FL := store_codec_laws) (J := ref_json)
              [(str "content.json", [])] (str "content.json") eq_refl)
    as (_ & Hjson & _).
  exact Hjson.
Defined.

(** ** Relative path resolution *)

Lemma resolve_loop_fold (segments parts : list jsstring) :
  resolve_loop parts segments = fold_left resolve_step segments parts.
Proof.
  revert parts. induction segments as [|seg more IH]; intros parts; simpl; [done|].
  unfold resolve_step at 2.
  destruct (bool_decide (seg = str "..")); [apply IH|].
  destruct (bool_decide (seg = str ".")); simpl; apply IH.
Qed.

(** C6. [resolveRelativePath] strips one leading [./] from the reference and
    then walks its [/]-separated segments over the segments of the base: [..]
    pops the last segment, [.] does nothing, any other segment is appended;
    with an empty base the reference is returned as it is, less the leading
    [./].  So ["a/b/c"], ["../../img.jpg"] gives ["a/img.jpg"] and [""],
    ["./x.jpg"] gives ["x.jpg"]. *)
Theorem resolveRelativePath_correct :
  (forall base relative, resolveRelativePath base relative = resolve_spec base relative)
  /\ (forall rest, strip_dot_slash (str "./" ++ rest) = rest)
  /\ (forall relative, startsWith relative (str "./") = false ->
        strip_dot_slash relative = relative)
  /\ (forall stack, resolve_step stack (str "..") = removelast stack)
  /\ (forall stack, resolve_step stack (str ".") = stack)
  /\ (forall stack segment, segment <> str ".." -> segment <> str "." ->
        resolve_step stack segment = stack ++ [segment])
  /\ (forall relative, resolveRelativePath [] relative = strip_dot_slash relative)
  /\ resolveRelativePath (str "a/b/c") (str "../../img.jpg") = str "a/img.jpg"
  /\ resolveRelativePath (str "") (str "./x.jpg") = str "x.jpg".
Proof.
  split.
  { intros base relative. unfold resolveRelativePath, resolve_spec.
    destruct base as [|c base]; [done|].
    rewrite bool_decide_eq_false_2 by done. by rewrite resolve_loop_fold. }
  split; [intros; reflexivity|]. split.
  { intros relative Hno. unfold strip_dot_slash. by rewrite Hno. }
  split; [intros; reflexivity|]. split; [intros; reflexivity|]. split.
  { intros stack segment H1 H2. unfold resolve_step.
    by rewrite !bool_decide_eq_false_2. }
  repeat split; reflexivity.
Qed.

Lemma resolveRelativePath_correct_witness :
  startsWith (str "img.jpg") (str "./") = false
  /\ strip_dot_slash (str "img.jpg") = str "img.jpg"
  /\ resolve_step [str "a"] (str "img.jpg") = [str "a"; str "img.jpg"]
  /\ resolveRelativePath (str "a/b") (str "../img.jpg")
     = resolve_spec (str "a/b") (str "../img.jpg").
Proof.
  destruct resolveRelativePath_correct
    as (Hspec & _ & Hkeep & _ & _ & Hpush & _).
  split; [reflexivity|]. split; [by apply Hkeep|].
  split; [by apply Hpush|]. apply Hspec.
Defined.

(** ** The metadata normaliser *)

Lemma str_split_cons (c : N) (s : jsstring) :
  exists seg rest, str_split c s = seg :: rest.
Proof.
  induction s as [|x s (seg & rest & IH)]; simpl; [by eexists _, _|].
  destruct (x =? c)%N; [by eexists _, _|]. rewrite IH. by eexists _, _.
Qed.

Lemma str_split_no_sep (c : N) (s seg : jsstring) :
  seg ∈ str_split c s -> c ∉ seg.
Proof.
  revert seg. induction s as [|x s IH]; simpl; intros seg Hin.
  - apply list_elem_of_singleton in Hin. subst. apply not_elem_of_nil.
  - destruct (x =? c)%N eqn:E.
    + apply elem_of_cons in Hin as [->|Hin]; [apply not_elem_of_nil|by apply IH].
    + destruct (str_split_cons c s) as (seg0 & rest & Hs). rewrite Hs in Hin, IH.
      apply elem_of_cons in Hin as [->|Hin].
      * apply not_elem_of_cons. split.
        -- apply N.eqb_neq in E. congruence.
        -- apply IH. left.
      * apply IH. by right.
Qed.

Lemma str_split_whole (c : N) (s : jsstring) :
  c ∉ s -> str_split c s = [s].
Proof.
  induction s as [|x s IH]; simpl; intros Hno; [done|].
  apply not_elem_of_cons in Hno as [Hne Hno].
  destruct (x =? c)%N eqn:E; [apply N.eqb_eq in E; congruence|].
  by rewrite IH.
Qed.

Lemma last_elem_of {A} (l : list A) (x : A) : last l = Some x -> x ∈ l.
Proof.
  intros Hl. apply last_Some in Hl as [l' ->]. apply elem_of_app. right. left.
Qed.

Lemma last_segment_cases (s : jsstring) :
  last_segment s = s \/ (last_segment s <> [] /\ SLASH ∉ last_segment s).
Proof.
  unfold last_segment.
  destruct (last (filter (fun seg => seg <> []) (str_split SLASH s))) as [x|] eqn:E;
    simpl; [right|by left].
  apply last_elem_of, list_elem_of_filter in E as [Hne Hin].
  split; [done|]. by eapply str_split_no_sep.
Qed.

(** Taking the last path segment of a slug twice is taking it once. *)
Lemma last_segment_idempotent (s : jsstring) :
  last_segment (last_segment s) = last_segment s.
Proof.
  destruct (last_segment_cases s) as [Hs|[Hne Hno]]; [by rewrite !Hs|].
  generalize dependent (last_segment s). intros x Hne Hno.
  unfold last_segment. rewrite str_split_whole by done.
  by rewrite filter_cons_True.
Qed.

Section FrontmatterFacts.
Context {R : JsRuntime} {Z : Zod}.

Lemma z_enum_status_name (st : PostStatus) :
  z_enum_POST_STATUSES (status_name st) = Some st.
Proof. by destruct st. Qed.

Lemma string_items_strings (l : list jsstring) : string_items (JStr <$> l) = l.
Proof.
  unfold string_items. induction l as [|x l IH]; [done|]. simpl. by f_equal.
Qed.

Lemma safeParse_null_iff (m : Mapped) :
  PostFrontmatterSchema_safeParse m = None <->
    m_title m = None
    \/ z_enum_POST_STATUSES (m_status m) = None
    \/ (exists n, m_readTimeInMinutes m = Some n /\ z_number n = false).
Proof.
  unfold PostFrontmatterSchema_safeParse.
  destruct (m_title m) as [t|]; [|by split; [left|]].
  destruct (z_enum_POST_STATUSES (m_status m)) as [st|];
    [|by split; [right; left|]].
  destruct (m_readTimeInMinutes m) as [n|].
  - destruct (z_number n) eqn:E.
    + split; [done|]. intros [?|[?|(k & ? & ?)]]; congruence.
    + split; [|done]. intros _. right; right. by exists n.
  - split; [done|]. intros [?|[?|(k & ? & ?)]]; congruence.
Qed.

Lemma is_true_literal_spec (v : jsval) :
  is_true_literal v = true <-> v = JBool true.
Proof. destruct v as [| |[|]| | | | | ]; simpl; split; congruence. Qed.

Lemma mapped_status_invalid (d s : jsval) :
  z_enum_POST_STATUSES
    (if is_true_literal d then str "draft"
     else match s with JStr s0 => s0 | _ => str "published" end) = None
  <-> d <> JBool true /\ exists s0, s = JStr s0 /\ z_enum_POST_STATUSES s0 = None.
Proof.
  assert (Hd : z_enum_POST_STATUSES (str "draft") = Some draft) by done.
  assert (Hp : z_enum_POST_STATUSES (str "published") = Some published) by done.
  destruct (is_true_literal d) eqn:Hlit.
  { apply is_true_literal_spec in Hlit as ->. rewrite Hd.
    split; [done|]. by intros [? _]. }
  assert (Hne : d <> JBool true).
  { intros Heq. apply is_true_literal_spec in Heq. congruence. }
  destruct s; rewrite ?Hp; split; try done;
    try (by intros [_ (? & ? & ?)]).
  - intros Hs. split; [done|by eexists].
  - intros [_ (? & ? & ?)]. congruence.
Qed.

Lemma mapped_readTime (v : jsval) (n : number) :
  match v with JNum k => Some k | _ => None end = Some n <-> v = JNum n.
Proof. destruct v; split; congruence. Qed.

(** C2, as the code has it.  [normalizeFrontmatter] returns null exactly
    when the mapped record fails the schema: the record has no string
    [title], or (without [draft: true]) its [status] is a string that is
    not a post status, or its [readTimeInMinutes] is a number that
    [z.number()] rejects.  So a record with a string title, no such status
    and no such read time always normalises to a canonical record. *)
Theorem normalizeFrontmatter_null_iff (data : rawdata) :
  normalizeFrontmatter data = None <->
    as_string (field data "title") = None
    \/ (field data "draft" <> JBool true
        /\ exists s, field data "status" = JStr s /\ z_enum_POST_STATUSES s = None)
    \/ (exists n, field data "readTimeInMinutes" = JNum n /\ z_number n = false).
Proof.
  unfold normalizeFrontmatter. rewrite safeParse_null_iff.
  cbv [m_title m_status m_readTimeInMinutes].
  rewrite mapped_status_invalid.
  apply or_iff_compat_l, or_iff_compat_l.
  split; intros (n & Hn & Hz); exists n; (split; [|done]); by apply mapped_readTime.
Qed.
(** Reading the fields of a canonical record back. *)
Ltac read_field :=
  let m := fresh "m" in
  intros m; destruct m as [t sl [sm|] st [pa|] [ca|] [ua|] rt tg]; reflexivity.

Lemma field_title : forall m, field (fields_of m) "title" = JStr (title m).
Proof. read_field. Qed.
Lemma field_slug : forall m, field (fields_of m) "slug" = JStr (slug m).
Proof. read_field. Qed.
Lemma field_status :
  forall m, field (fields_of m) "status" = JStr (status_name (status m)).
Proof. read_field. Qed.
Lemma field_readTime :
  forall m, field (fields_of m) "readTimeInMinutes" = JNum (readTimeInMinutes m).
Proof. read_field. Qed.
Lemma field_tags : forall m, field (fields_of m) "tags" = JArr (JStr <$> tags m).
Proof. read_field. Qed.
Lemma field_summary :
  forall m, field (fields_of m) "summary" = optional_value (summary m).
Proof. read_field. Qed.
Lemma field_publishedAt :
  forall m, field (fields_of m) "publishedAt" = optional_value (publishedAt m).
Proof. read_field. Qed.
Lemma field_createdAt :
  forall m, field (fields_of m) "createdAt" = optional_value (createdAt m).
Proof. read_field. Qed.
Lemma field_updatedAt :
  forall m, field (fields_of m) "updatedAt" = optional_value (updatedAt m).
Proof. read_field. Qed.

(** The dialect spellings are not fields of a canonical record. *)
Lemma field_dialect :
  forall m,
    Forall (fun key => field (fields_of m) key = JUndefined)
      ["url"; "permalink"; "description"; "excerpt"; "draft"; "date";
       "published_at"; "created_at"; "updated_at"; "lastmod"; "modified";
       "categories"]%string.
Proof.
  intros m; destruct m as [t sl [sm|] st [pa|] [ca|] [ua|] rt tg];
    repeat constructor.
Qed.
End FrontmatterFacts.

(** C2: a record with a string title and an unknown status normalises to
    null, so a usable title does not by itself give a canonical record. *)
Lemma normalizeFrontmatter_null_with_title :
  ~ (forall data : @rawdata ref_runtime,
       @normalizeFrontmatter ref_runtime ref_zod data = None ->
       as_string (field data "title") = None).
Proof.
  intros Hstated.
  specialize (Hstated [(str "title", JStr (str "Hello")); (str "status", JStr (str "archived"))]).
  by specialize (Hstated eq_refl).
Qed.

Section Idempotence.
Context {R : JsRuntime} {Z : Zod} {RL : JsRuntimeLaws R} {ZL : ZodLaws}.

Lemma safeParse_inv (mp : Mapped) (m : PostFrontmatter) :
  PostFrontmatterSchema_safeParse mp = Some m ->
  m_title mp = Some (title m)
  /\ z_enum_POST_STATUSES (m_status mp) = Some (status m)
  /\ slug m = default [] (m_slug mp)
  /\ summary m = m_summary mp
  /\ publishedAt m = m_publishedAt mp
  /\ createdAt m = m_createdAt mp
  /\ updatedAt m = m_updatedAt mp
  /\ tags m = default [] (m_tags mp)
  /\ (m_readTimeInMinutes mp = Some (readTimeInMinutes m)
        /\ z_number (readTimeInMinutes m) = true
      \/ m_readTimeInMinutes mp = None /\ readTimeInMinutes m = number_one).
Proof.
  unfold PostFrontmatterSchema_safeParse.
  destruct (m_title mp) as [t|]; [|done].
  destruct (z_enum_POST_STATUSES (m_status mp)) as [st|]; [|done].
  destruct (m_readTimeInMinutes mp) as [n|].
  - destruct (z_number n) eqn:E; [|done].
    intros [= <-]; simpl. repeat split; try done. by left.
  - intros [= <-]; simpl. repeat split; try done. by right.
Qed.

Lemma date_field_iso (source : jsval) : iso_timestamp (date_field source).
Proof.
  intros iso. unfold date_field, toISOString.
  destruct (truthy source); [|done].
  destruct source as [| | | |s| | |t]; try done.
  - destruct (Date_parse s) as [t|]; [|done]. intros [= <-]. by exists t.
  - intros [= <-]. by exists t.
Qed.

Lemma date_field_again (v : option jsstring) :
  iso_timestamp v -> date_field (optional_value v) = v.
Proof.
  intros Hiso. destruct v as [iso|]; [|done].
  destruct (Hiso iso eq_refl) as [t ->].
  unfold date_field; simpl.
  rewrite bool_decide_eq_false_2 by apply Date_toISOString_nonempty.
  simpl. by rewrite Date_parse_toISOString.
Qed.

Lemma coalesce_optional (v : option jsstring) :
  coalesce (optional_value v) JUndefined = optional_value v.
Proof. by destruct v. Qed.

Lemma as_string_optional (v : option jsstring) : as_string (optional_value v) = v.
Proof. by destruct v. Qed.

(** What [normalizeFrontmatter] returns is canonical. *)
Lemma normalizeFrontmatter_canonical (data : rawdata) (m : PostFrontmatter) :
  normalizeFrontmatter data = Some m -> canonical m.
Proof.
  intros Hn. apply safeParse_inv in Hn.
  destruct Hn as (_ & _ & Hslug & _ & Hpa & Hca & Hua & _ & Hrt).
  cbv [m_slug m_publishedAt m_createdAt m_updatedAt m_readTimeInMinutes] in *.
  repeat split.
  - rewrite Hslug. match goal with |- context [as_string ?v] => destruct (as_string v) end;
      simpl; [apply last_segment_idempotent|done].
  - rewrite Hpa. apply date_field_iso.
  - rewrite Hca. apply date_field_iso.
  - rewrite Hua. apply date_field_iso.
  - destruct Hrt as [[_ Hz]|[_ ->]]; [done|apply z_number_one].
Qed.

(** A canonical record is a fixed point of the normaliser. *)
Lemma canonical_fixed_point (m : PostFrontmatter) :
  canonical m -> normalizeFrontmatter (fields_of m) = Some m.
Proof.
  intros (Hslug & Hpa & Hca & Hua & Hrt).
  pose proof (field_dialect m) as Hd.
  repeat (apply Forall_cons in Hd as [? Hd]).
  unfold normalizeFrontmatter.
  repeat match goal with Heq : field (fields_of m) _ = JUndefined |- _ =>
           rewrite Heq; clear Heq end.
  rewrite field_title, field_slug, field_status, field_readTime, field_tags,
    field_summary, field_publishedAt, field_createdAt, field_updatedAt.
  rewrite !coalesce_optional. cbn [coalesce].
  rewrite !date_field_again by done.
  rewrite as_string_optional, string_items_strings. simpl.
  rewrite Hslug.
  unfold PostFrontmatterSchema_safeParse; simpl.
  rewrite z_enum_status_name, Hrt. by destruct m.
Qed.

(** C4. [normalizeFrontmatter] is idempotent: when it turns a raw record
    into a canonical record [m], feeding the fields of [m] back in gives
    [m] again. *)
Theorem normalizeFrontmatter_idempotent (data : rawdata) (m : PostFrontmatter) :
  normalizeFrontmatter data = Some m ->
  normalizeFrontmatter (fields_of m) = Some m.
Proof.
  intros Hn. by eapply canonical_fixed_point, normalizeFrontmatter_canonical.
Qed.
End Idempotence.

#[local] Instance ref_runtime_laws : JsRuntimeLaws ref_runtime.
Proof. by split. Qed.

#[local] Instance ref_zod_laws : ZodLaws (H0 := ref_zod).
Proof. by split. Qed.

Lemma normalizeFrontmatter_idempotent_witness :
  exists m, normalizeFrontmatter hugo_post = Some m
            /\ normalizeFrontmatter (fields_of m) = Some m.
Proof.
  eexists. split; [reflexivity|].
  apply (normalizeFrontmatter_idempotent (RL := ref_runtime_laws) (ZL := ref_zod_laws)
           hugo_post _ eq_refl).
Defined.

Section DialectMapping.
Context {R : JsRuntime} {Z : Zod}.

(** C5, as the code has it.  Dialect mapping for every raw record that
    [normalizeFrontmatter] accepts: in the record normalised from a raw
    record with [draft: true] the status is [draft], whatever explicit
    [status] (such as ["published"]) the raw record carries; and from a raw
    record with [categories: [a, b]] and no [tags] field the normalised tags
    are [[a, b]]. *)
Theorem dialect_mapping (data : rawdata) (m : PostFrontmatter) :
  normalizeFrontmatter data = Some m ->
  (field data "draft" = JBool true -> status m = draft)
  /\ (forall a b, field data "categories" = JArr [JStr a; JStr b] ->
        archive_get data (str "tags") = None -> tags m = [a; b]).
Proof.
  intros Hn. apply safeParse_inv in Hn.
  destruct Hn as (_ & Hst & _ & _ & _ & _ & _ & Htags & _).
  cbv [m_status m_tags] in *. split.
  - intros Hd. rewrite Hd in Hst. cbn [is_true_literal] in Hst.
    assert (Hdraft : z_enum_POST_STATUSES (str "draft") = Some draft) by done.
    congruence.
  - intros a b Hc Ht. rewrite Htags. unfold field at 1. rewrite Ht. simpl.
    by rewrite Hc.
Qed.
End DialectMapping.

Lemma dialect_mapping_witness :
  exists m, normalizeFrontmatter hugo_post = Some m
            /\ status m = draft /\ tags m = [str "A"; str "B"].
Proof.
  eexists. split; [reflexivity|].
  destruct (dialect_mapping hugo_post _ eq_refl) as [Hdraft Htags].
  split; [by apply Hdraft|by apply Htags].
Defined.

(** C5, as stated: a record with a title, [draft: true], two categories and
    a read time that the schema rejects normalises to null, so it has
    neither a normalised status nor normalised tags. *)
Lemma dialect_mapping_null :
  ~ (forall data : @rawdata nan_runtime,
       as_string (field data "title") <> None ->
       (field data "draft" = JBool true ->
        exists m, @normalizeFrontmatter nan_runtime nan_zod data = Some m
                  /\ status m = draft)
       /\ (forall a b,
             field data "categories" = JArr [JStr a; JStr b] ->
             archive_get data (str "tags") = None ->
             exists m, @normalizeFrontmatter nan_runtime nan_zod data = Some m
                       /\ tags m = [a; b])).
Proof.
  intros Hstated. destruct (Hstated nan_post) as [Hdraft _]; [done|].
  destruct (Hdraft eq_refl) as (m & Hm & _). discriminate Hm.
Qed.

(** ** The markdown serialiser *)

Lemma drop_while_app_stop {A} (p : A -> bool) (a : list A) (c : A) (b : list A) :
  p c = false -> drop_while p (a ++ c :: b) = drop_while p a ++ c :: b.
Proof.
  intros Hc. induction a as [|x a IH]; simpl; [by rewrite Hc|].
  by destruct (p x).
Qed.

Lemma trimEnd_app_visible (a : jsstring) (c : N) (b : jsstring) :
  is_whitespace c = false -> trimEnd (a ++ c :: b) = a ++ c :: trimEnd b.
Proof.
  intros Hc. unfold trimEnd.
  rewrite rev_app_distr. simpl. rewrite <- app_assoc. simpl.
  rewrite drop_while_app_stop by done.
  rewrite rev_app_distr. simpl. rewrite rev_involutive.
  by rewrite <- app_assoc.
Qed.

Lemma visible_not_LF (c : N) : is_whitespace c = false -> (c =? LF)%N = false.
Proof.
  intros Hc. destruct (c =? LF)%N eqn:E; [|done].
  apply N.eqb_eq in E. subst. discriminate Hc.
Qed.

Lemma squeeze_app_stop (run : nat) (a : jsstring) (c : N) (b : jsstring) :
  (c =? LF)%N = false ->
  squeeze run (a ++ c :: b) = squeeze run a ++ c :: squeeze 0 b.
Proof.
  intros Hc. revert run. induction a as [|x a IH]; intros run; simpl.
  - by rewrite Hc.
  - destruct (x =? LF)%N; [destruct (run <? 2)%nat|]; simpl; by rewrite IH.
Qed.

Lemma squeeze_fixed (run : nat) (s : jsstring) :
  no_blank_run run s = true -> squeeze run s = s.
Proof.
  revert run. induction s as [|x s IH]; intros run; simpl; [done|].
  destruct (x =? LF)%N.
  - destruct (run <? 2)%nat; [|done]. simpl. intros Hs. by rewrite IH.
  - intros Hs. by rewrite IH.
Qed.

Lemma no_blank_run_app_stop (run : nat) (a : jsstring) (c : N) (b : jsstring) :
  (c =? LF)%N = false ->
  no_blank_run run (a ++ c :: b) = no_blank_run run a && no_blank_run 0 b.
Proof.
  intros Hc. revert run. induction a as [|x a IH]; intros run; simpl.
  - by rewrite Hc.
  - destruct (x =? LF)%N; [|apply IH]. rewrite IH. by rewrite andb_assoc.
Qed.

Lemma contains_app_l (s x a : jsstring) : contains s x -> contains (a ++ s) x.
Proof.
  intros (l & r & ->). exists (a ++ l), r. by rewrite <- app_assoc.
Qed.

Lemma contains_app_r (s x b : jsstring) : contains s x -> contains (s ++ b) x.
Proof.
  intros (l & r & ->). exists l, (r ++ b). by rewrite <- !app_assoc.
Qed.

Lemma contains_refl (x : jsstring) : contains x x.
Proof. exists [], []. by rewrite app_nil_r. Qed.

Lemma contains_trans (s x y : jsstring) : contains s x -> contains x y -> contains s y.
Proof.
  intros (l & r & ->) (l' & r' & ->). exists (l ++ l'), (r' ++ r).
  by rewrite <- !app_assoc.
Qed.

Lemma includes_startsWith (s x : jsstring) :
  startsWith s x = true <-> exists b, s = x ++ b.
Proof.
  revert s. induction x as [|c x IH]; intros s; simpl.
  - split; [by exists s|done].
  - destruct s as [|d s]; [split; [done|by intros [b Hb]]|].
    rewrite andb_true_iff, N.eqb_eq, IH. split.
    + intros [-> [b ->]]. by exists b.
    + intros [b [= -> ->]]. split; [done|by exists b].
Qed.

Lemma includes_contains (s x : jsstring) : contains s x -> includes s x = true.
Proof.
  intros (a & b & ->). induction a as [|c a IH]; simpl.
  - destruct x as [|d x]; simpl.
    + by destruct b.
    + apply orb_true_iff. left. rewrite N.eqb_refl. simpl.
      apply includes_startsWith. by exists b.
  - apply orb_true_iff. by right.
Qed.

(** The final clean-up keeps a piece that begins and ends with a visible
    code unit and has no blank run. *)
Lemma cleanup_keeps (a x b : jsstring) :
  starts_visibly x -> ends_visibly x -> no_blank_run 0 x = true ->
  contains (trimEnd (squeeze 0 (strip_leading_newlines (a ++ x ++ b))) ++ [LF]) x.
Proof.
  intros (c & x' & Hx & Hc) (x'' & d & Hx' & Hd) Hrun.
  pose proof (visible_not_LF c Hc) as HcLF.
  pose proof (visible_not_LF d Hd) as HdLF.
  unfold strip_leading_newlines.
  rewrite Hx. simpl. rewrite drop_while_app_stop by done.
  rewrite squeeze_app_stop by done.
  replace (c :: squeeze 0 (x' ++ b)) with (squeeze 0 (x ++ b))
    by (rewrite Hx; simpl; by rewrite HcLF).
  assert (Hfix : squeeze 0 x'' = x'').
  { apply squeeze_fixed in Hrun. rewrite Hx' in Hrun.
    rewrite squeeze_app_stop in Hrun by done. simpl in Hrun.
    by apply app_inv_tail in Hrun. }
  rewrite Hx', <- app_assoc. simpl.
  rewrite squeeze_app_stop, Hfix by done.
  rewrite app_assoc, trimEnd_app_visible by done.
  exists (squeeze 0 (drop_while (fun c0 => (c0 =? LF)%N) a)),
    (trimEnd (squeeze 0 b) ++ [LF]).
  rewrite <- !app_assoc. simpl. f_equal.
  transitivity (x ++ trimEnd (squeeze 0 b) ++ [LF]).
  - rewrite Hx'. by rewrite <- app_assoc.
  - by rewrite Hx.
Qed.

Lemma concat_map_elem {A} (f : A -> jsstring) (l : list A) (x : A) :
  x ∈ l -> exists a b, concat (map f l) = a ++ f x ++ b.
Proof.
  intros (l1 & l2 & ->)%list_elem_of_split.
  exists (concat (map f l1)), (concat (map f l2)).
  by rewrite map_app, concat_app.
Qed.

Lemma applyMark_wraps (m : Mark) (x : jsstring) :
  exists pre post, applyMark m x = pre ++ x ++ post.
Proof.
  unfold applyMark. destruct (mark_kind m);
    try (eexists _, _; reflexivity).
  exists [], []. by rewrite app_nil_r.
Qed.

Lemma applyMarks_wraps (ms : list Mark) (x : jsstring) :
  exists pre post, applyMarks ms x = pre ++ x ++ post.
Proof.
  revert x. induction ms as [|m ms IH]; intros x; simpl.
  - exists [], []. by rewrite app_nil_r.
  - destruct (applyMark_wraps m x) as (p1 & q1 & H1).
    destruct (IH (applyMark m x)) as (p2 & q2 & H2).
    exists (p2 ++ p1), (q1 ++ q2). unfold applyMarks in *. simpl.
    rewrite H2, H1. by rewrite <- !app_assoc.
Qed.

Lemma applyMarks_app (before after : list Mark) (x : jsstring) :
  applyMarks (before ++ after) x = applyMarks after (applyMarks before x).
Proof. unfold applyMarks. by rewrite fold_left_app. Qed.

Lemma no_blank_run_app_end (run : nat) (a b : jsstring) (a' : jsstring) (c : N) :
  a = a' ++ [c] -> (c =? LF)%N = false ->
  no_blank_run run (a ++ b) = no_blank_run run a && no_blank_run 0 b.
Proof.
  intros -> Hc. rewrite <- app_assoc. simpl.
  rewrite !no_blank_run_app_stop by done. simpl. by rewrite andb_true_r.
Qed.

Lemma no_blank_run_app_start (run : nat) (a : jsstring) (c : N) (b : jsstring) :
  (c =? LF)%N = false ->
  no_blank_run run (a ++ c :: b) = no_blank_run run a && no_blank_run 0 (c :: b).
Proof.
  intros Hc. rewrite no_blank_run_app_stop by done. simpl. by rewrite Hc.
Qed.

Lemma str_join_cons (sep p : jsstring) (rest : list jsstring) :
  str_join sep (p :: rest) = p ++ concat (map (fun q => sep ++ q) rest).
Proof.
  revert p. induction rest as [|q rest IH]; intros p.
  - simpl. by rewrite app_nil_r.
  - change (str_join sep (p :: q :: rest)) with (p ++ sep ++ str_join sep (q :: rest)).
    rewrite IH. simpl. by rewrite <- app_assoc.
Qed.

Lemma no_blank_run_join (cells : list jsstring) :
  Forall (fun cell => no_blank_run 0 cell = true) cells ->
  no_blank_run 0 (str_join (str " | ") cells) = true.
Proof.
  destruct cells as [|c cells]; [done|]. rewrite str_join_cons.
  revert c. induction cells as [|q cells IH]; intros c Hall.
  - simpl. rewrite app_nil_r. by apply Forall_cons in Hall as [? _].
  - apply Forall_cons in Hall as [Hc Hall]. simpl.
    rewrite no_blank_run_app_stop by done. rewrite Hc. simpl.
    by apply IH.
Qed.

Lemma table_line_shape (cells : list jsstring) :
  table_line cells = 124%N :: 32%N :: str_join (str " | ") cells ++ [32; 124]%N.
Proof. reflexivity. Qed.

Lemma no_blank_run_table_line (cells : list jsstring) :
  Forall (fun cell => no_blank_run 0 cell = true) cells ->
  no_blank_run 0 (table_line cells) = true.
Proof.
  intros Hall. rewrite table_line_shape. simpl.
  rewrite no_blank_run_app_stop by done. by rewrite no_blank_run_join.
Qed.

Lemma table_line_bar (cells : list jsstring) :
  exists body, table_line cells = body ++ [124%N].
Proof.
  exists (124%N :: 32%N :: str_join (str " | ") cells ++ [32%N]).
  rewrite table_line_shape. simpl. by rewrite <- app_assoc.
Qed.

Lemma data_rows_bar (pre : jsstring) (rows : list (list jsstring)) :
  (exists body, pre = body ++ [124%N]) ->
  exists body,
    pre ++ concat (map (fun cells => [LF] ++ table_line cells) rows) = body ++ [124%N].
Proof.
  revert pre. induction rows as [|cells rows IH]; intros pre Hpre.
  - simpl. by rewrite app_nil_r.
  - rewrite map_cons, concat_cons, app_assoc. apply IH.
    destruct (table_line_bar cells) as [body ->].
    exists (pre ++ LF :: body). by rewrite <- app_assoc.
Qed.

Lemma no_blank_run_data_rows (pre : jsstring) (rows : list (list jsstring)) :
  (exists body, pre = body ++ [124%N]) ->
  no_blank_run 0 pre = true ->
  Forall (Forall (fun cell => no_blank_run 0 cell = true)) rows ->
  no_blank_run 0 (pre ++ concat (map (fun cells => [LF] ++ table_line cells) rows))
  = true.
Proof.
  revert pre. induction rows as [|cells rows IH]; intros pre Hbar Hpre Hall.
  - simpl. by rewrite app_nil_r.
  - apply Forall_cons in Hall as [Hcells Hall].
    rewrite map_cons, concat_cons, app_assoc. apply IH; [|  |done].
    + destruct (table_line_bar cells) as [body ->].
      exists (pre ++ LF :: body). by rewrite <- app_assoc.
    + destruct Hbar as [body Hbody].
      rewrite (no_blank_run_app_end 0 pre _ body 124%N) by done.
      rewrite Hpre.
      pose proof (no_blank_run_table_line cells Hcells) as Hline.
      rewrite table_line_shape in Hline |- *. exact Hline.
Qed.

Lemma repeat_dashes_ok (k : nat) :
  Forall (fun cell => no_blank_run 0 cell = true) (repeat (str "---") k).
Proof. induction k; simpl; by constructor. Qed.

Lemma table_markdown_visible (cells : list jsstring) (rows : list (list jsstring)) :
  Forall (Forall (fun cell => no_blank_run 0 cell = true)) (cells :: rows) ->
  starts_visibly (table_markdown cells rows)
  /\ ends_visibly (table_markdown cells rows)
  /\ no_blank_run 0 (table_markdown cells rows) = true.
Proof.
  intros Hall. apply Forall_cons in Hall as [Hcells Hrows].
  unfold table_markdown.
  set (head_lines := table_line cells ++ [LF]
                     ++ table_line (repeat (str "---") (length cells))).
  assert (Hbar : exists body, head_lines = body ++ [124%N]).
  { unfold head_lines.
    destruct (table_line_bar (repeat (str "---") (length cells))) as [body ->].
    exists (table_line cells ++ LF :: body). by rewrite <- !app_assoc. }
  assert (Hok : no_blank_run 0 head_lines = true).
  { unfold head_lines. destruct (table_line_bar cells) as [body Hbody].
    rewrite (no_blank_run_app_end 0 (table_line cells) _ body 124%N) by done.
    rewrite no_blank_run_table_line by done. cbn [andb].
    pose proof (no_blank_run_table_line _ (repeat_dashes_ok (length cells))) as Hsep.
    rewrite table_line_shape in Hsep |- *. exact Hsep. }
  replace (table_line cells ++ [LF]
           ++ table_line (repeat (str "---") (length cells))
           ++ concat (map (fun cells0 => [LF] ++ table_line cells0) rows))
    with (head_lines ++ concat (map (fun cells0 => [LF] ++ table_line cells0) rows))
    by (unfold head_lines; by rewrite <- !app_assoc).
  split; [|split].
  - eexists 124%N, _. split; [|done]. unfold head_lines.
    rewrite table_line_shape. reflexivity.
  - destruct (data_rows_bar head_lines rows Hbar) as [body ->].
    by exists body, 124%N.
  - by apply no_blank_run_data_rows.
Qed.

Section ConverterFidelity.
Variable rewrite : option (jsstring -> jsstring).

Lemma markdown_keeps (doc : JSONContent) (nodes : list JSONContent) (x : jsstring) :
  node_kind doc = ty_doc -> node_content doc = Some nodes ->
  (exists a b, concat (map (fun n => serializeNode rewrite n 0) nodes) = a ++ x ++ b) ->
  starts_visibly x -> ends_visibly x -> no_blank_run 0 x = true ->
  contains (jsonContentToMarkdown rewrite doc) x.
Proof.
  intros Hkind Hcontent (a & b & Hraw) Hs He Hrun.
  unfold jsonContentToMarkdown. rewrite Hkind, Hcontent, Hraw.
  by apply cleanup_keeps.
Qed.

Lemma serializeNode_heading (h : JSONContent) (depth : nat) :
  node_kind h = ty_heading ->
  serializeNode rewrite h depth
  = [LF] ++ str_repeat (str "#") (default 1%nat (level (node_attrs h))) ++ str " "
    ++ serializeInline rewrite (node_content h) ++ [LF].
Proof. destruct h as [ty a c m t]; simpl; by intros ->. Qed.

Lemma serializeNode_paragraph (p : JSONContent) (depth : nat) :
  node_kind p = ty_paragraph ->
  serializeNode rewrite p depth = [LF] ++ serializeInline rewrite (node_content p) ++ [LF].
Proof. destruct p as [ty a c m t]; simpl; by intros ->. Qed.

Lemma serializeNode_table (table : JSONContent) (depth : nat) :
  node_kind table = ty_table ->
  serializeNode rewrite table depth = [LF] ++ serializeTable rewrite table ++ [LF].
Proof. destruct table as [ty a c m t]; simpl; by intros ->. Qed.

Lemma serializeTable_markdown (table header : JSONContent) (data : list JSONContent) :
  node_content table = Some (header :: data) ->
  serializeRow rewrite header <> [] ->
  serializeTable rewrite table
  = table_markdown (serializeRow rewrite header) (map (serializeRow rewrite) data).
Proof.
  intros Hcontent Hcells. unfold serializeTable. rewrite Hcontent.
  cbn [default from_option id map].
  destruct (serializeRow rewrite header) as [|cell cells] eqn:Erow; [done|].
  cbn [length Nat.eqb app].
  rewrite str_join_cons. unfold table_markdown. f_equal.
  rewrite map_cons, concat_cons, <- app_assoc. cbn [length]. do 2 f_equal.
  by rewrite map_map.
Qed.

(** C7, as the code has it.  In the markdown of a document whose top-level
    nodes include a heading of level 2, a paragraph with a bold-marked text
    node and a table with a non-empty header row:
    - [##] occurs, and [## ] followed by the heading's inline text occurs when
      that text ends with a visible character and has no blank run;
    - the bold text occurs wrapped as [**text**], where the text carries the
      marks listed before [bold] and has no blank run;
    - the header row, a [---] separator row with as many columns as the
      header row, and the data rows occur on consecutive lines, when no cell
      has a blank run.
    A blank run is three line feeds in a row, which the final clean-up
    shortens; it also trims the end of the document. *)
Theorem converter_fidelity (doc : JSONContent) (nodes : list JSONContent) :
  node_kind doc = ty_doc -> node_content doc = Some nodes ->
  let out := jsonContentToMarkdown rewrite doc in
  (forall h, h ∈ nodes -> node_kind h = ty_heading ->
     level (node_attrs h) = Some 2%nat ->
     let heading_text := serializeInline rewrite (node_content h) in
     contains out (str "##")
     /\ (no_blank_run 0 heading_text = true -> ends_visibly heading_text ->
         contains out (str "## " ++ heading_text)))
  /\ (forall p inline t before bold after,
        p ∈ nodes -> node_kind p = ty_paragraph -> node_content p = Some inline ->
        t ∈ inline -> node_kind t = ty_text ->
        node_marks t = before ++ bold :: after -> mark_kind bold = mk_bold ->
        let marked := applyMarks before (default [] (node_text t)) in
        no_blank_run 0 marked = true ->
        contains out (str "**" ++ marked ++ str "**"))
  /\ (forall table header data,
        table ∈ nodes -> node_kind table = ty_table ->
        node_content table = Some (header :: data) ->
        let cells := serializeRow rewrite header in
        let rows := map (serializeRow rewrite) data in
        cells <> [] ->
        Forall (Forall (fun cell => no_blank_run 0 cell = true)) (cells :: rows) ->
        contains out (table_markdown cells rows)).
Proof.
  intros Hkind Hcontent out. split; [|split].
  - intros h Hin Hh Hlevel heading_text.
    destruct (concat_map_elem (fun n => serializeNode rewrite n 0) nodes h Hin)
      as (a & b & Hraw).
    rewrite serializeNode_heading, Hlevel in Hraw by done.
    fold heading_text in Hraw. split.
    + apply (markdown_keeps doc nodes); try done.
      * exists (a ++ [LF]), (str " " ++ heading_text ++ [LF] ++ b).
        rewrite Hraw. simpl. by rewrite <- !app_assoc.
      * by exists 35%N, [35%N].
      * by exists [35%N], 35%N.
    + intros Hrun (body & c & Hbody & Hc).
      apply (markdown_keeps doc nodes); try done.
      * exists (a ++ [LF]), ([LF] ++ b).
        rewrite Hraw. simpl. by rewrite <- !app_assoc.
      * by eexists 35%N, _.
      * exists (str "## " ++ body), c. rewrite Hbody. split; [|done].
        by rewrite <- app_assoc.
  - intros p inline t before bold after Hin Hp Hinline Ht Hkt Hmarks Hbold marked Hrun.
    destruct (concat_map_elem (fun n => serializeNode rewrite n 0) nodes p Hin)
      as (a & b & Hraw).
    rewrite serializeNode_paragraph, Hinline in Hraw by done.
    destruct (concat_map_elem (serializeInlineNode rewrite) inline t Ht)
      as (a' & b' & Hinl).
    simpl in Hraw. rewrite Hinl in Hraw.
    assert (Hnode : exists pre post,
               serializeInlineNode rewrite t
               = pre ++ (str "**" ++ marked ++ str "**") ++ post).
    { unfold serializeInlineNode. rewrite Hkt, Hmarks.
      rewrite applyMarks_app.
      change (applyMarks (bold :: after) ?x)
        with (applyMarks after (applyMark bold x)).
      unfold applyMark at 1. rewrite Hbold.
      apply applyMarks_wraps. }
    destruct Hnode as (pre & post & Hnode). rewrite Hnode in Hraw.
    apply (markdown_keeps doc nodes); try done.
    + exists (a ++ [LF] ++ a' ++ pre), (post ++ b' ++ [LF] ++ b).
      rewrite Hraw. simpl. rewrite <- !app_assoc. simpl.
      by rewrite <- !app_assoc.
    + by eexists 42%N, _.
    + exists (str "**" ++ marked ++ str "*"), 42%N. split; [|done].
      by rewrite <- !app_assoc.
    + change (str "**" ++ marked ++ str "**")
        with (42%N :: 42%N :: marked ++ 42%N :: [42%N]).
      change (no_blank_run 0 (marked ++ 42%N :: [42%N]) = true).
      rewrite no_blank_run_app_stop by done. by rewrite Hrun.
  - intros table header data Hin Htable Hrows cells rows Hcells Hall.
    destruct (concat_map_elem (fun n => serializeNode rewrite n 0) nodes table Hin)
      as (a & b & Hraw).
    rewrite serializeNode_table in Hraw by done.
    rewrite (serializeTable_markdown table header data) in Hraw by done.
    fold cells rows in Hraw.
    destruct (table_markdown_visible cells rows Hall) as (Hs & He & Hrun).
    apply (markdown_keeps doc nodes); try done.
    exists (a ++ [LF]), ([LF] ++ b). rewrite Hraw. by rewrite <- !app_assoc.
Qed.
End ConverterFidelity.

(** C7: bold text with a blank run is not kept verbatim, and a table with an
    empty header row leaves no separator row (nor anything else) behind. *)
Lemma converter_fidelity_fails : ~ converter_fidelity_as_stated.
Proof.
  intros Hstated.
  destruct (Hstated None tricky_doc_nodes [mk_text (str "Title") []]
              [mk_text gapped_text [mark mk_bold]] (mk_text gapped_text [mark mk_bold])
              (mark mk_bold) headless_table (mk_node ty_tableRow [])
              [mk_node ty_tableRow
                 [mk_node ty_tableCell [mk_paragraph [mk_text (str "x") []]]]])
    as (_ & Hbold & Htable);
    try (repeat constructor; fail); try reflexivity.
  apply includes_contains in Hbold. vm_compute in Hbold. discriminate Hbold.
Qed.

Lemma converter_fidelity_witness :
  contains (jsonContentToMarkdown None sample_doc) (str "## Title")
  /\ contains (jsonContentToMarkdown None sample_doc) (str "**bold**")
  /\ contains (jsonContentToMarkdown None sample_doc)
       (table_markdown [str "Name"; str "Age"] [[str "Alice"; str "30"]]).
Proof.
  destruct (converter_fidelity None sample_doc _ eq_refl eq_refl)
    as (Hheading & Hbold & Htable).
  split; [|split].
  - refine (proj2 (Hheading (mk_heading 2 [mk_text (str "Title") []]) _ eq_refl eq_refl)
              eq_refl _).
    + left.
    + by exists (str "Titl"), 101%N.
  - refine (Hbold (mk_paragraph [mk_text (str "hello ") [];
                                 mk_text (str "bold") [mark mk_bold]])
              _ (mk_text (str "bold") [mark mk_bold]) [] (mark mk_bold) []
              _ eq_refl eq_refl _ eq_refl eq_refl eq_refl eq_refl).
    + right; left.
    + right; left.
  - refine (Htable sample_table _ _ _ eq_refl eq_refl _ _).
    + right; right; left.
    + done.
    + repeat constructor.
Defined.

(** ** The workflows *)

Section WorkflowFacts.
Context {R : JsRuntime} {Z : Zod} {G : GrayMatter} {F : Fflate} {J : Json}
        {C : Collaborators} {B : BlobStoreFaults}.

Lemma updateProgress_stored (key : jsstring) (progress : TaskProgress) (w : World) :
  cache (fst (updateProgress key progress w)) !! key = Some progress.
Proof. simpl. apply lookup_insert_eq. Qed.

(** C3. When enumeration finds no post unit, the progress record of the task
    is finalised with status [completed], [total = 0], [completed = 0] and a
    non-empty list of warnings, not as [failed]: for an import whose archive
    has no recognisable entry, and for an export that matches no post. *)
Theorem zero_units_complete (taskId r2Key : jsstring) (mode : ImportMode)
    (postIds : option (list nat)) (status : option PostStatus)
    (import_world export_world : World) :
  snd (enumerate_posts r2Key mode import_world) = Ok [] ->
  findFullPosts (db export_world) postIds status = [] ->
  (exists progress,
      cache (fst (ImportWorkflow_run taskId r2Key mode import_world))
        !! importProgress taskId = Some progress
      /\ task_status progress = completed /\ total progress = 0%nat
      /\ completed_count progress = 0%nat /\ warnings progress <> [])
  /\ (exists progress,
        cache (fst (ExportWorkflow_run taskId postIds status export_world))
          !! exportProgress taskId = Some progress
        /\ task_status progress = completed /\ total progress = 0%nat
        /\ completed_count progress = 0%nat /\ warnings progress <> []).
Proof.
  intros Hnone Hposts. split.
  - unfold ImportWorkflow_run, try_catch, bindM.
    destruct (enumerate_posts r2Key mode import_world) as [w' r].
    simpl in Hnone. subst r.
    eexists. split; [apply updateProgress_stored|]. by repeat split.
  - unfold ExportWorkflow_run, try_catch, bindM. simpl.
    rewrite Hposts.
    eexists. split; [apply updateProgress_stored|]. by repeat split.
Qed.
End WorkflowFacts.

Lemma zero_units_complete_witness :
  snd (enumerate_posts (str "imports/t1.zip") native empty_import_world) = Ok []
  /\ findFullPosts (db empty_import_world) None None = []
  /\ exists progress,
       cache (fst (ImportWorkflow_run (str "t1") (str "imports/t1.zip") native
                     empty_import_world))
         !! importProgress (str "t1") = Some progress
       /\ task_status progress = completed /\ warnings progress <> [].
Proof.
  assert (Henum : snd (enumerate_posts (str "imports/t1.zip") native empty_import_world)
                  = Ok []) by (vm_compute; reflexivity).
  assert (Hposts : findFullPosts (db empty_import_world) None None = [])
    by reflexivity.
  split; [exact Henum|]. split; [exact Hposts|].
  destruct (zero_units_complete (str "t1") (str "imports/t1.zip") native None None
              empty_import_world empty_import_world Henum Hposts)
    as [(progress & Hstored & Hstatus & _ & _ & Hwarn) _].
  exists progress. by repeat split.
Defined.

(** ** Importing one post *)

Section ImportFacts.
Context {R : JsRuntime} {Z : Zod} {G : GrayMatter} {F : Fflate} {J : Json}
        {C : Collaborators} {B : BlobStoreFaults}.

Lemma same_posts_refl (w : World) : same_posts w w.
Proof. by repeat split. Qed.

Lemma same_posts_trans (w1 w2 w3 : World) :
  same_posts w1 w2 -> same_posts w2 w3 -> same_posts w1 w3.
Proof.
  intros (? & ? & ? & ? & ?) (? & ? & ? & ? & ?). repeat split; congruence.
Qed.

(** Reading the native layout touches nothing. *)
Lemma parse_native_pure (zipFiles : Archive) (entry : PostEntry) (w : World) :
  fst (parse_native zipFiles entry w) = w.
Proof.
  unfold parse_native.
  destruct (readTextFile zipFiles (prefix entry ++ str "/index.md")) as [[|c text]|];
    try done.
  unfold bindM, lift.
  destruct (parseFrontmatter (c :: text)) as [[data content]|message]; [|done].
  destruct (readJsonFile zipFiles (prefix entry ++ str "/content.json")
              ≫= json_as_content); [done|].
  destruct (trim content); [done|].
  by destruct (markdownToJsonContent content).
Qed.

Lemma store_image_same_posts (newKey fileName : jsstring) (data : bytes) (w : World) :
  same_posts w (fst (store_image newKey fileName data w)).
Proof.
  unfold store_image, bindM, R2_put.
  destruct (R2_put_error newKey w); by repeat split.
Qed.

Lemma foldM_invariant {A S} (P : World -> Prop) (step : S -> A -> M S)
    (l : list A) (acc : S) (w : World) :
  (forall acc x w0, P w0 -> P (fst (step acc x w0))) ->
  P w -> P (fst (foldM step l acc w)).
Proof.
  intros Hstep. revert acc w. induction l as [|x l IH]; intros acc w Hw; [done|].
  simpl. unfold bindM. specialize (Hstep acc x w Hw).
  destruct (step acc x w) as [w' [acc'|message]]; [by apply IH|done].
Qed.

Lemma upload_markdown_image_same_posts (zipFiles : Archive) (mdDir : jsstring)
    (state : RewriteMap * list jsstring) (img : jsstring * image_kind) (w : World) :
  same_posts w (fst (upload_markdown_image zipFiles mdDir state img w)).
Proof.
  destruct state as [rewriteMap warnings]. unfold upload_markdown_image.
  destruct (archive_get zipFiles (resolveRelativePath mdDir (fst img)))
    as [[|b data]|]; try by repeat split.
  unfold bindM, try_catch, fresh_seed, store_image, bindM, R2_put.
  match goal with |- context [R2_put_error ?k ?w0] => destruct (R2_put_error k w0) end;
    by repeat split.
Qed.

(** Uploading the images of a markdown post adds media rows and blobs only. *)
Lemma uploadMarkdownImages_same_posts (zipFiles : Archive) (text mdDir : jsstring)
    (w : World) :
  same_posts w (fst (uploadMarkdownImages zipFiles text mdDir w)).
Proof.
  unfold uploadMarkdownImages.
  destruct (List.filter _ (extractMarkdownImages text)) as [|img imgs];
    [apply same_posts_refl|].
  unfold bindM.
  pose proof (foldM_invariant (same_posts w) (upload_markdown_image zipFiles mdDir)
                (img :: imgs) ([], []) w) as Hfold.
  destruct (foldM (upload_markdown_image zipFiles mdDir) (img :: imgs) ([], []) w)
    as [w' [[rewriteMap warnings]|message]];
    apply Hfold; try apply same_posts_refl;
    intros acc x w0 Hw0; eapply same_posts_trans; [exact Hw0| |exact Hw0|];
    apply upload_markdown_image_same_posts.
Qed.

Lemma parse_markdown_same_posts (zipFiles : Archive) (entry : PostEntry) (w : World) :
  same_posts w (fst (parse_markdown zipFiles entry w)).
Proof.
  unfold parse_markdown.
  match goal with |- context [readTextFile zipFiles ?p] =>
    destruct (readTextFile zipFiles p) as [[|c text]|] eqn:Eread
  end; try apply same_posts_refl.
  unfold bindM at 1, lift.
  destruct (parseFrontmatter (c :: text)) as [[data content]|message];
    [|apply same_posts_refl].
  destruct (trim content); [apply same_posts_refl|].
  unfold bindM.
  match goal with |- context [uploadMarkdownImages zipFiles content ?d w] =>
    pose proof (uploadMarkdownImages_same_posts zipFiles content d w) as Hup;
    destruct (uploadMarkdownImages zipFiles content d w)
      as [w' [[rewritten warnings]|message]]
  end; simpl in *; [|done].
  by destruct (markdownToJsonContent rewritten).
Qed.

(** Slug collision, as the code has it: when the candidate slug of an entry
    already exists in post storage, [importSinglePost] returns
    [skipped = true] in both modes; in native mode the world is left as it
    was, in markdown mode the posts, tags and links are. *)
Lemma importSinglePost_skips (zipFiles : Archive) (entry : PostEntry)
    (mode : ImportMode) (w w1 : World) (content : option JSONContent)
    (metadata : rawdata) (warnings : list jsstring) (normalized : PostFrontmatter) :
  match mode with
  | native => parse_native zipFiles entry w
  | markdown => parse_markdown zipFiles entry w
  end = (w1, Ok (content, metadata, warnings)) ->
  normalizeFrontmatter metadata = Some normalized ->
  slugExists (db w) (slugify (candidate_slug normalized)) None = true ->
  importSinglePost zipFiles entry mode w
  = (w1, Ok {| result_title := or_else (title normalized) (str "Untitled");
               result_slug := candidate_slug normalized; skipped := true;
               result_warnings := warnings |})
  /\ same_posts w w1
  /\ (mode = native -> w1 = w).
Proof.
  intros Hparse Hnorm Hexists.
  assert (Hsame : same_posts w w1).
  { destruct mode.
    - pose proof (parse_native_pure zipFiles entry w) as Hp.
      rewrite Hparse in Hp. simpl in Hp. subst. apply same_posts_refl.
    - pose proof (parse_markdown_same_posts zipFiles entry w) as Hp.
      by rewrite Hparse in Hp. }
  split; [|split; [exact Hsame|]].
  - assert (Hex1 : slugExists (db w1) (slugify (candidate_slug normalized)) None = true).
    { unfold slugExists in *. destruct Hsame as (Hposts & _). by rewrite Hposts. }
    unfold candidate_slug in Hex1.
    unfold importSinglePost. unfold bindM at 1.
    destruct mode; rewrite Hparse, Hnorm; unfold bindM, get_world; by rewrite Hex1.
  - intros ->. pose proof (parse_native_pure zipFiles entry w) as Hp.
    by rewrite Hparse in Hp.
Qed.
End ImportFacts.

(** C1.  In markdown mode the images are uploaded before the slug is looked
    up: importing [post.md], whose slug [existing-post] is taken, returns
    [skipped = true] and yet leaves a new media row and a new blob behind.
    The same post in the native layout is skipped without a trace. *)
Theorem markdown_skip_inserts_media :
  slugExists (db seeded_world) (slugify (str "existing-post")) None = true
  /\ (exists w,
        importSinglePost markdown_archive markdown_entry markdown seeded_world
        = (w, Ok {| result_title := str "Duplicate"; result_slug := str "existing-post";
                    skipped := true; result_warnings := [] |})
        /\ MediaTable (db seeded_world) = []
        /\ MediaTable (db w)
           = [{| media_id := 1; media_key := str "0-pic.png";
                 media_url := str "/images/0-pic.png"; media_fileName := str "pic.png";
                 media_mimeType := str "image/png"; media_sizeInBytes := 4 |}]
        /\ R2 seeded_world !! str "0-pic.png" = None
        /\ R2 w !! str "0-pic.png" = Some [Byte.x89; Byte.x50; Byte.x4e; Byte.x47])
  /\ importSinglePost native_archive native_entry native seeded_world
     = (seeded_world,
        Ok {| result_title := str "Duplicate"; result_slug := str "existing-post";
              skipped := true; result_warnings := [] |}).
Proof.
  split; [reflexivity|]. split.
  - eexists. split; [vm_compute; reflexivity|].
    repeat split; vm_compute; reflexivity.
  - vm_compute. reflexivity.
Qed.

(** ** The repository's tests, replayed on the embedding *)

(** [image-rewriter.test.ts], [resolveRelativePath]. *)
Example resolve_simple :
  resolveRelativePath (str "posts") (str "images/a.jpg") = str "posts/images/a.jpg".
Proof. reflexivity. Qed.

Example resolve_strips_dot_slash :
  resolveRelativePath (str "posts") (str "./images/a.jpg") = str "posts/images/a.jpg".
Proof. reflexivity. Qed.

Example resolve_parent :
  resolveRelativePath (str "posts/sub") (str "../assets/a.jpg") = str "posts/assets/a.jpg".
Proof. reflexivity. Qed.

Example resolve_empty_base :
  resolveRelativePath [] (str "images/a.jpg") = str "images/a.jpg"
  /\ resolveRelativePath [] (str "./photo.jpg") = str "photo.jpg".
Proof. split; reflexivity. Qed.

Example resolve_sibling :
  resolveRelativePath (str "content/posts") (str "cover.jpg")
  = str "content/posts/cover.jpg".
Proof. reflexivity. Qed.

(** [image-rewriter.test.ts], the markdown side. *)
Example extract_mixed :
  map snd (extractMarkdownImages
             (str "![](./local.jpg) ![](https://remote.com/r.png) ![](data:image/gif;base64,x)"))
  = [relative; remote; data_uri].
Proof. reflexivity. Qed.

Example extract_none : extractMarkdownImages (str "Just text, no images") = [].
Proof. reflexivity. Qed.

Example rewrite_multiple :
  rewriteMarkdownImagePaths (str "![x](a.jpg) ![y](b.jpg)")
    [(str "a.jpg", str "new-a.jpg"); (str "b.jpg", str "new-b.jpg")]
  = str "![x](new-a.jpg) ![y](new-b.jpg)".
Proof. reflexivity. Qed.

Example rewrite_not_matching :
  rewriteMarkdownImagePaths (str "![a](other.jpg)") [(str "old.jpg", str "new.jpg")]
  = str "![a](other.jpg)".
Proof. reflexivity. Qed.

(** [image-rewriter.test.ts], the tree side. *)
Example rewrite_nested_image :
  let image source :=
    Node ty_image {| level := None; language := None; src := Some source;
                     alt := Some []; start := None; highlightedHtml := None |}
         None [] None in
  rewriteImagePaths (mk_doc [mk_paragraph [image (str "/images/nested.png?quality=80")]])
    [(str "nested.png", str "new-nested.png")]
  = mk_doc [mk_paragraph [image (str "/images/new-nested.png?quality=80")]].
Proof. reflexivity. Qed.

(** [frontmatter.test.ts]. *)
Example normalize_missing_title :
  normalizeFrontmatter [(str "slug", JStr (str "no-title"))] = None.
Proof. reflexivity. Qed.

Example normalize_url_slug :
  slug <$> normalizeFrontmatter
             [(str "title", JStr (str "Test Post")); (str "url", JStr (str "/posts/my-post/"))]
  = Some (str "my-post").
Proof. reflexivity. Qed.

Example normalize_prefers_slug :
  slug <$> normalizeFrontmatter
             [(str "title", JStr (str "Test Post")); (str "slug", JStr (str "from-slug"));
              (str "url", JStr (str "/from-url"));
              (str "permalink", JStr (str "/from-permalink"))]
  = Some (str "from-slug").
Proof. reflexivity. Qed.

Example normalize_excerpt :
  summary <$> normalizeFrontmatter
                [(str "title", JStr (str "Test Post")); (str "excerpt", JStr (str "An excerpt"))]
  = Some (Some (str "An excerpt")).
Proof. reflexivity. Qed.

Example normalize_filters_tags :
  tags <$> normalizeFrontmatter
             [(str "title", JStr (str "Test Post"));
              (str "tags", JArr [JStr (str "valid"); JNum 123%Z; JNull; JStr (str "ok")])]
  = Some [str "valid"; str "ok"].
Proof. reflexivity. Qed.

Example normalize_invalid_date :
  publishedAt <$> normalizeFrontmatter
                    [(str "title", JStr (str "Test Post"));
                     (str "date", JStr (str "not-a-date"))]
  = Some None.
Proof. reflexivity. Qed.

Example normalize_defaults :
  normalizeFrontmatter [(str "title", JStr (str "Test Post"))]
  = Some {| title := str "Test Post"; slug := []; summary := None; status := published;
            publishedAt := None; createdAt := None; updatedAt := None;
            readTimeInMinutes := 1%Z; tags := [] |}.
Proof. reflexivity. Qed.

(** [markdown-serializer.test.ts]. *)
Example serialize_heading :
  trim (jsonContentToMarkdown None (mk_doc [mk_heading 1 [mk_text (str "Title") []]]))
  = str "# Title".
Proof. reflexivity. Qed.

Example serialize_marks :
  jsonContentToMarkdown None
    (mk_doc [mk_paragraph
               [mk_text (str "a") [mark mk_italic]; mk_text (str "b") [mark mk_code];
                mk_text (str "c") [mark mk_strike];
                mk_text (str "here") [link_to (str "https://example.com")]]])
  = str "_a_`b`~~c~~[here](https://example.com)" ++ [LF].
Proof. reflexivity. Qed.

Example serialize_blockquote :
  includes (jsonContentToMarkdown None
              (mk_doc [mk_node ty_blockquote [mk_paragraph [mk_text (str "quoted text") []]]]))
           (str "> quoted text") = true.
Proof. reflexivity. Qed.

Example serialize_ordered_list :
  jsonContentToMarkdown None
    (mk_doc [mk_node ty_orderedList
               [mk_node ty_listItem [mk_paragraph [mk_text (str "first") []]];
                mk_node ty_listItem [mk_paragraph [mk_text (str "second") []]]]])
  = str "1. first" ++ [LF] ++ str "2. second" ++ [LF].
Proof. reflexivity. Qed.

Example serialize_nested_list :
  jsonContentToMarkdown None nested_list_doc
  = str "- parent" ++ [LF] ++ str "  - child" ++ [LF].
Proof. reflexivity. Qed.

Example serialize_table :
  jsonContentToMarkdown None (mk_doc [sample_table])
  = str "| Name | Age |" ++ [LF] ++ str "| --- | --- |" ++ [LF]
    ++ str "| Alice | 30 |" ++ [LF].
Proof. reflexivity. Qed.

Example serialize_not_a_doc :
  jsonContentToMarkdown None (Node ty_paragraph no_attrs None [] None) = []
  /\ jsonContentToMarkdown None (Node ty_doc no_attrs None [] None) = [].
Proof. split; reflexivity. Qed.

(** [zip.test.ts]. *)
Example list_directories :
  listDirectories [(str "posts/alpha/index.md", []); (str "posts/alpha/content.json", []);
                   (str "posts/beta/index.md", [])] (str "posts/")
  = [str "alpha"; str "beta"].
Proof. reflexivity. Qed.

Example list_files :
  listFiles [(str "posts/a/1.md", []); (str "posts/a/2.md", []); (str "other/3.md", [])]
            (str "posts/a/")
  = [str "posts/a/1.md"; str "posts/a/2.md"].
Proof. reflexivity. Qed.

Example read_round_trip :
  bind (parseZip (buildZip [(str "hello.txt", Text (str "world"))]))
       (fun files => Ok (readTextFile files (str "hello.txt")))
  = Ok (Some (str "world")).
Proof. vm_compute. reflexivity. Qed.

(** [import.workflow.test.ts]: a collision in the native layout is skipped. *)
Example native_collision_skipped :
  skipped <$> match snd (importSinglePost native_archive native_entry native seeded_world) with
              | Ok r => Some r
              | Throw _ => None
              end
  = Some true.
Proof. vm_compute. reflexivity. Qed.

(** A metadata block that the loader rejects makes the step [enumerate
    posts] throw, so the import is finalised as [failed]. *)
Example malformed_block_fails_import :
  let world : @World ref_runtime :=
    {| db := no_rows;
       R2 := {[ str "imports/t2.zip" :=
                  zipSync [(str "posts/broken/index.md", strToU8 malformed_post)] 6 ]};
       cache := ∅; now := str "2024-06-01"; seed := 0 |} in
  task_status <$> (cache (fst (ImportWorkflow_run (str "t2") (str "imports/t2.zip") native world))
                     !! importProgress (str "t2"))
  = Some failed.
Proof. vm_compute. reflexivity. Qed.

(** * Part III: further properties of the code *)

(** ** Slugs ([features/posts/utils/content.ts]) *)

Lemma drop_while_suffix {A} (p : A -> bool) (l : list A) :
  exists a, l = a ++ drop_while p l.
Proof.
  induction l as [|x l [a IH]]; simpl; [by exists []|].
  destruct (p x); [|by exists []].
  exists (x :: a). simpl. by f_equal.
Qed.

Lemma drop_while_head {A} (p : A -> bool) (l : list A) (x : A) :
  head (drop_while p l) = Some x -> p x = false.
Proof.
  induction l as [|y l IH]; simpl; [done|].
  destruct (p y) eqn:E; [done|]. simpl. by intros [= <-].
Qed.

Lemma drop_while_fixed {A} (p : A -> bool) (l : list A) :
  (forall x, head l = Some x -> p x = false) -> drop_while p l = l.
Proof.
  destruct l as [|y l]; simpl; [done|]. intros Hy. by rewrite Hy.
Qed.

Lemma head_rev {A} (l : list A) : head (rev l) = last l.
Proof.
  induction l as [|x l IH] using rev_ind; [done|].
  by rewrite rev_unit, last_snoc.
Qed.

Lemma last_rev {A} (l : list A) : last (rev l) = head l.
Proof. by rewrite <- head_rev, rev_involutive. Qed.

Lemma head_app_nonempty {A} (a b : list A) : a <> [] -> head (a ++ b) = head a.
Proof. by destruct a. Qed.

Lemma contains_rev (s x : jsstring) : contains (rev s) (rev x) <-> contains s x.
Proof.
  assert (Hone : forall s x, contains s x -> contains (rev s) (rev x)).
  { intros s' x' (a & b & ->). exists (rev b), (rev a).
    by rewrite !rev_app_distr, <- app_assoc. }
  split; [|apply Hone].
  intros H. apply Hone in H. by rewrite !rev_involutive in H.
Qed.

Lemma single_dashes_head (s : jsstring) :
  head (single_dashes true s) <> Some DASH.
Proof.
  induction s as [|c s IH]; simpl; [done|].
  destruct (c =? DASH)%N eqn:E; [done|].
  simpl. intros [= ->]. by rewrite N.eqb_refl in E.
Qed.

Lemma single_dashes_single (after : bool) (s : jsstring) :
  ~ contains (single_dashes after s) (str "--").
Proof.
  revert after. induction s as [|c s IH]; intros after (a & b & Heq); simpl in Heq.
  - by destruct a.
  - destruct (c =? DASH)%N eqn:E.
    + destruct after; [by apply (IH true); exists a, b|].
      destruct a as [|x a]; simpl in Heq.
      * injection Heq as _ Heq. apply (single_dashes_head s). by rewrite Heq.
      * injection Heq as _ Heq. by apply (IH true); exists a, b.
    + destruct a as [|x a]; simpl in Heq.
      * injection Heq as -> _. discriminate E.
      * injection Heq as _ Heq. by apply (IH false); exists a, b.
Qed.

Lemma single_dashes_chars (P : N -> Prop) (after : bool) (s : jsstring) :
  Forall P s -> Forall P (single_dashes after s).
Proof.
  intros Hs. revert after. induction Hs as [|c s Hc Hs IH]; intros after; simpl.
  - constructor.
  - destruct (c =? DASH)%N; [destruct after|]; auto.
Qed.

Lemma drop_while_chars {A} (P : A -> Prop) (p : A -> bool) (l : list A) :
  Forall P l -> Forall P (drop_while p l).
Proof.
  destruct (drop_while_suffix p l) as [a Ha]. intros Hl.
  rewrite Ha in Hl. by apply Forall_app in Hl as [_ ?].
Qed.

(** Trimming dashes at both ends of a string that has no double dash. *)
Lemma dash_trim_shaped (s : jsstring) :
  Forall (fun c => slug_char c = true) s -> ~ contains s (str "--") ->
  slug_shaped (rev (drop_while is_dash (rev (drop_while is_dash s)))).
Proof.
  intros Hchars Hsingle.
  set (x := drop_while is_dash s).
  set (z := drop_while is_dash (rev x)).
  assert (Hx : exists a, s = a ++ x) by apply drop_while_suffix.
  assert (Hz : exists a, rev x = a ++ z) by apply drop_while_suffix.
  destruct Hx as [a Hx], Hz as [b Hz].
  assert (Hxz : x = rev z ++ rev b).
  { rewrite <- (rev_involutive x), Hz. by rewrite rev_app_distr. }
  repeat split.
  - apply Forall_rev, drop_while_chars, Forall_rev, drop_while_chars, Hchars.
  - destruct (rev z) as [|c r] eqn:Hr; [done|]. simpl. intros [= ->].
    assert (Hhead : head x = Some DASH) by (by rewrite Hxz).
    apply drop_while_head in Hhead. discriminate Hhead.
  - rewrite last_rev. intros Hhead. apply drop_while_head in Hhead.
    discriminate Hhead.
  - intros Hc. apply Hsingle. rewrite Hx, Hxz.
    by apply contains_app_l, contains_app_r.
Qed.

Lemma untitled_shaped : slug_shaped (str "untitled-log").
Proof.
  repeat split.
  - by repeat constructor.
  - discriminate.
  - discriminate.
  - intros Hc. by apply includes_contains in Hc.
Qed.

Lemma slugify_well_shaped `{JsRuntime} (text : jsstring) :
  slugify text <> [] /\ slug_shaped (slugify text).
Proof.
  unfold slugify.
  destruct (bool_decide (text = [])); [split; [done|apply untitled_shaped]|].
  match goal with |- context [bool_decide (?c = [])] => set (cleaned := c) end.
  destruct (bool_decide_reflect (cleaned = [])) as [|Hne];
    [split; [done|apply untitled_shaped]|].
  split; [done|].
  apply dash_trim_shaped.
  - apply single_dashes_chars. apply Forall_forall. intros c Hc.
    by apply list_elem_of_filter in Hc as [? _].
  - apply single_dashes_single.
Qed.

(** X1. Whatever the title, [slugify] returns a non-empty slug made of
    lower-case letters, digits, dashes and Chinese characters only, with no
    dash at either end and no two dashes in a row. *)
Theorem slugify_shape `{JsRuntime} (text : jsstring) :
  let slug := slugify text in
  slug <> []
  /\ Forall (fun c => slug_char c = true) slug
  /\ head slug <> Some DASH /\ last slug <> Some DASH
  /\ ~ contains slug (str "--").
Proof.
  destruct (slugify_well_shaped text) as [Hne (Hchars & Hhead & Hlast & Hsingle)].
  by repeat split.
Qed.

Lemma slug_char_visible (c : N) :
  slug_char c = true -> is_whitespace c = false /\ (c =? 95)%N = false.
Proof.
  unfold slug_char, is_whitespace, DASH.
  rewrite !orb_true_iff, !andb_true_iff, !N.leb_le, !N.eqb_eq.
  rewrite !orb_false_iff, !andb_false_iff, !N.leb_gt, !N.eqb_neq. lia.
Qed.

Lemma dash_runs_fixed (s : jsstring) :
  Forall (fun c => slug_char c = true) s -> dash_runs false s = s.
Proof.
  induction 1 as [|c s Hc Hs IH]; simpl; [done|].
  destruct (slug_char_visible c Hc) as [-> ->]. simpl. by rewrite IH.
Qed.

Lemma filter_fixed (s : list N) :
  Forall (fun c => slug_char c = true) s ->
  filter (fun c => slug_char c = true) s = s.
Proof.
  induction 1 as [|c s Hc Hs IH]; [done|].
  rewrite filter_cons_True by done. by rewrite IH.
Qed.

Lemma single_dashes_fixed (after : bool) (s : jsstring) :
  (after = true -> head s <> Some DASH) -> ~ contains s (str "--") ->
  single_dashes after s = s.
Proof.
  revert after. induction s as [|c s IH]; intros after Hhead Hsingle; simpl; [done|].
  assert (Htail : ~ contains s (str "--")).
  { intros Hc. apply Hsingle. by apply (contains_app_l _ _ [c]) in Hc. }
  destruct (c =? DASH)%N eqn:E.
  - apply N.eqb_eq in E. subst c.
    destruct after; [by destruct Hhead|].
    f_equal. apply IH; [|done]. intros _ Hs. apply Hsingle.
    destruct s as [|d s]; [done|]. injection Hs as ->. by exists [], s.
  - f_equal. by apply IH.
Qed.

Lemma trim_fixed (s : jsstring) :
  (forall c, head s = Some c -> is_whitespace c = false) ->
  (forall c, last s = Some c -> is_whitespace c = false) ->
  trim s = s.
Proof.
  intros Hhead Hlast. unfold trim, trimStart, trimEnd.
  rewrite (drop_while_fixed _ s) by done.
  rewrite drop_while_fixed, rev_involutive; [done|].
  intros c. rewrite head_rev. apply Hlast.
Qed.

Lemma Forall_head {A} (P : A -> Prop) (l : list A) (x : A) :
  Forall P l -> head l = Some x -> P x.
Proof. destruct 1; [done|]. by intros [= <-]. Qed.

Lemma Forall_last {A} (P : A -> Prop) (l : list A) (x : A) :
  Forall P l -> last l = Some x -> P x.
Proof.
  intros Hl Hx. rewrite <- head_rev in Hx.
  by apply (Forall_head P (rev l)); [apply Forall_rev|].
Qed.

(** A well-shaped slug is a fixed point of [slugify]. *)
Lemma slugify_fixed `{LowerCaseLaws} (s : jsstring) :
  s <> [] -> slug_shaped s -> slugify s = s.
Proof.
  intros Hne (Hchars & Hhead & Hlast & Hsingle). unfold slugify.
  rewrite bool_decide_eq_false_2 by done.
  rewrite toLowerCase_slug_chars by done.
  rewrite trim_fixed.
  - rewrite dash_runs_fixed, filter_fixed by done.
    rewrite single_dashes_fixed by done.
    rewrite (drop_while_fixed _ s).
    + rewrite drop_while_fixed, rev_involutive.
      * by rewrite bool_decide_eq_false_2.
      * intros c. rewrite head_rev. unfold is_dash. intros Hc.
        apply N.eqb_neq. intros ->. by apply Hlast.
    + intros c Hc. unfold is_dash. apply N.eqb_neq. intros ->. by apply Hhead.
  - intros c Hc. apply slug_char_visible.
    by apply (Forall_head (fun c => slug_char c = true) s).
  - intros c Hc. apply slug_char_visible.
    by apply (Forall_last (fun c => slug_char c = true) s).
Qed.

(** X2. [slugify] is idempotent: a slug it returned is returned unchanged
    when it is given back, so a stored slug can be looked up after being
    slugified again. *)
Theorem slugify_idempotent `{LowerCaseLaws} (text : jsstring) :
  slugify (slugify text) = slugify text.
Proof.
  destruct (slugify_well_shaped text) as [Hne Hshape]. by apply slugify_fixed.
Qed.

#[local] Instance ref_lower_case_laws : LowerCaseLaws ref_runtime.
Proof.
  split. intros s Hs. simpl. induction Hs as [|c s Hc Hs IH]; [done|].
  simpl. rewrite IH. f_equal.
  destruct ((65 <=? c) && (c <=? 90))%N eqn:E; [|done].
  revert Hc E. unfold slug_char, DASH.
  rewrite !orb_true_iff, !andb_true_iff, !N.leb_le, !N.eqb_eq. lia.
Qed.

Lemma slugify_idempotent_witness :
  slugify (slugify (str " Hello, World_2024 -- draft ")) =
  slugify (str " Hello, World_2024 -- draft ").
Proof. apply (slugify_idempotent (R := ref_runtime)). Defined.

(** ** Unique slugs ([features/posts/posts.service.ts]) *)

(** Reading a printed numeral digit by digit. *)
Lemma parse_numeral_from (d : Decimal.uint) (k : N) :
  exists v,
    foldl (fun acc c =>
             match acc, digit_value c with
             | Some n, Some v => Some (10 * n + v)%N
             | _, _ => None
             end)
          (Some k) (str (NilEmpty.string_of_uint d)) = Some v
    /\ v = (DecimalPos.Unsigned.of_lu (Decimal.rev d)
            + k * 10 ^ DecimalPos.Unsigned.usize d)%N.
Proof.
  revert k. induction d; intros k;
    [ exists k; simpl; split; [done|lia] | .. ];
    match goal with
    | |- context [NilEmpty.string_of_uint (?D d)] =>
        match eval cbv in (str (NilEmpty.string_of_uint (D Decimal.Nil))) with
        | [?c] =>
            change (str (NilEmpty.string_of_uint (D d)))
              with (c :: str (NilEmpty.string_of_uint d))
        end
    end;
    cbn [foldl];
    match goal with
    | |- context [digit_value ?c] =>
        let v := eval cbv in (digit_value c) in change (digit_value c) with v
    end;
    cbv beta iota;
    match goal with
    | |- context [foldl _ (Some ?k') _] => destruct (IHd k') as (v & Hv & Hval)
    end;
    exists v; (split; [exact Hv|]);
    unfold Decimal.rev; cbn [Decimal.revapp];
    rewrite (DecimalPos.Unsigned.of_lu_revapp d);
    cbn [DecimalPos.Unsigned.of_lu DecimalPos.Unsigned.usize];
    rewrite Hval, N.pow_succ_r';
    change (N.of_nat 10) with 10%N; unfold Decimal.rev;
    ring.
Qed.

Lemma numeral_digits (d : Decimal.uint) :
  Forall (fun c => (48 <= c <= 57)%N) (str (NilEmpty.string_of_uint d)).
Proof.
  induction d; [constructor|..];
    match goal with
    | |- context [NilEmpty.string_of_uint (?D d)] =>
        match eval cbv in (str (NilEmpty.string_of_uint (D Decimal.Nil))) with
        | [?c] =>
            change (str (NilEmpty.string_of_uint (D d)))
              with (c :: str (NilEmpty.string_of_uint d))
        end
    end;
    (constructor; [lia|done]).
Qed.

Lemma numeral_nonempty (d : Decimal.uint) :
  d <> Decimal.Nil -> str (NilEmpty.string_of_uint d) <> [].
Proof. by destruct d. Qed.

(** What [decimal] prints is read back by [parse_digits]. *)
Lemma parse_digits_decimal (n : N) : parse_digits (decimal n) = Some n.
Proof.
  destruct n as [|p]; [done|].
  unfold decimal, str_of_Z. cbn [Z.of_N Z.to_int NilEmpty.string_of_int].
  assert (Hne := numeral_nonempty (Pos.to_uint p) (DecimalPos.Unsigned.to_uint_nonnil p)).
  destruct (parse_numeral_from (Pos.to_uint p) 0) as (v & Hv & Hval).
  unfold parse_digits.
  destruct (str (NilEmpty.string_of_uint (Pos.to_uint p))) as [|c s] eqn:Hs; [done|].
  rewrite Hv. f_equal.
  rewrite <- DecimalPos.Unsigned.of_uint_alt, DecimalPos.Unsigned.of_to in Hval.
  lia.
Qed.

Lemma decimal_digits (n : N) :
  decimal n <> [] /\ Forall (fun c => (48 <= c <= 57)%N) (decimal n).
Proof.
  destruct n as [|p].
  - change (decimal 0) with [48%N]. split; [done|].
    repeat constructor; lia.
  - unfold decimal, str_of_Z. cbn [Z.of_N Z.to_int NilEmpty.string_of_int]. split.
    + apply numeral_nonempty, DecimalPos.Unsigned.to_uint_nonnil.
    + apply numeral_digits.
Qed.

(** Below [2^53] an integer is a double, its successor too, and both are
    printed digit by digit. *)
Lemma round_to_double_safe (n : N) : (n < 2 ^ 53)%N -> round_to_double n = Finite n.
Proof.
  intros Hn. unfold round_to_double.
  assert (Hsize : (N.size n <= 53)%N).
  { destruct (N.eq_dec n 0%N) as [->|Hpos]; [done|].
    rewrite N.size_log2 by done. apply N.le_succ_l.
    apply N.log2_lt_pow2; lia. }
  apply N.leb_le in Hsize. by rewrite Hsize.
Qed.

Lemma double_succ_safe (n : N) :
  (n < 2 ^ 53)%N -> double_succ (Finite n) = Finite (n + 1).
Proof.
  intros Hn. unfold double_succ.
  destruct (N.eq_dec (n + 1)%N (2 ^ 53)%N) as [Heq|Hne].
  - rewrite Heq. by vm_compute.
  - apply round_to_double_safe. lia.
Qed.

Lemma Number_toString_safe (n : N) :
  (n <= 2 ^ 53)%N -> Number_toString (Finite n) = decimal n.
Proof. intros Hn. unfold Number_toString. apply N.leb_le in Hn. by rewrite Hn. Qed.

Lemma double_dash_app (a b : jsstring) :
  contains (a ++ b) (str "--") ->
  contains a (str "--") \/ contains b (str "--")
  \/ (last a = Some DASH /\ head b = Some DASH).
Proof.
  intros (l & r & Heq). revert l Heq.
  induction a as [|x a IH]; intros l Heq; simpl in Heq.
  - right. left. by exists l, r.
  - destruct l as [|y l]; simpl in Heq.
    + injection Heq as -> Heq. destruct a as [|z a]; simpl in Heq.
      * right. right. split; [done|]. by rewrite Heq.
      * injection Heq as -> Heq. left. by exists [], a.
    + injection Heq as -> Heq. destruct (IH l Heq) as [Ha|[Hb|[Hl Hh]]].
      * left. by apply (contains_app_l _ _ [y]) in Ha.
      * right. by left.
      * right. right. split; [|done]. by destruct a.
Qed.

Lemma contains_elem (s x : jsstring) (c : N) : contains s x -> c ∈ x -> c ∈ s.
Proof. intros (a & b & ->) Hc. set_solver. Qed.

(** A slug followed by a dash and a numeral is a slug again. *)
Lemma suffixed_slug_shaped (base : jsstring) (n : N) :
  base <> [] -> slug_shaped base ->
  slug_shaped (base ++ str "-" ++ decimal n).
Proof.
  intros Hne (Hchars & Hhead & Hlast & Hsingle).
  destruct (decimal_digits n) as [Hnum Hdigits].
  set (numeral := decimal n) in *.
  assert (Hnodash : DASH ∉ numeral).
  { intros Hin. rewrite Forall_forall in Hdigits.
    apply Hdigits in Hin. unfold DASH in Hin. lia. }
  repeat split.
  - apply Forall_app. split; [done|]. constructor; [done|].
    eapply Forall_impl; [exact Hdigits|]. intros c Hc. simpl in Hc.
    unfold slug_char. rewrite !orb_true_iff, !andb_true_iff, !N.leb_le. lia.
  - by rewrite head_app_nonempty.
  - rewrite app_assoc. destruct numeral as [|c rest] using rev_ind; [done|].
    rewrite app_assoc, last_snoc. intros [= ->]. apply Hnodash. set_solver.
  - intros Hc. apply double_dash_app in Hc as [Ha|[Hb|[Hl _]]]; [done| |done].
    apply (double_dash_app (str "-")) in Hb as [Ha|[Hb|[_ Hh]]].
    + destruct Ha as (a & b & Ha). by destruct a as [|? [|]].
    + apply Hnodash. apply (contains_elem _ _ DASH) in Hb; [done|]. constructor.
    + apply Hnodash. destruct numeral; [done|]. injection Hh as ->. set_solver.
Qed.

Section SlugFacts.
Context {R : JsRuntime} {ZD : Zod} {J : Json} {C : Collaborators}.

Lemma slugExists_spec (d : Database) (s : jsstring) :
  slugExists d s None = true <-> exists p, p ∈ PostsTable d /\ post_slug p = s.
Proof.
  unfold slugExists. rewrite existsb_exists. split.
  - intros (p & Hin & Hp). exists p. split; [by apply list_elem_of_In|].
    rewrite andb_true_r in Hp. by apply jsstring_eqb_true.
  - intros (p & Hin & <-). exists p. split; [by apply list_elem_of_In|].
    by rewrite jsstring_eqb_refl.
Qed.

(** While every numeric suffix is a safe integer, the largest one found is
    a safe integer that bounds them all. *)
Lemma max_suffix_safe (baseSlug : jsstring) (similar : list jsstring) (init : N) :
  (init < 2 ^ 53)%N ->
  forallb (fun slug =>
             match parse_digits (drop (length baseSlug + 1) slug) with
             | Some value => (value <? 2 ^ 53)%N
             | None => true
             end)
          similar = true ->
  exists maxSuffix,
    foldl (fun maxSuffix slug =>
             if startsWith slug (baseSlug ++ str "-") then
               match parse_digits (drop (length baseSlug + 1) slug) with
               | Some value =>
                   let number := round_to_double value in
                   if double_ltb maxSuffix number then number else maxSuffix
               | None => maxSuffix
               end
             else maxSuffix)
          (Finite init) similar = Finite maxSuffix
    /\ (init <= maxSuffix < 2 ^ 53)%N
    /\ forall slug value,
         slug ∈ similar -> startsWith slug (baseSlug ++ str "-") = true ->
         parse_digits (drop (length baseSlug + 1) slug) = Some value ->
         (value <= maxSuffix)%N.
Proof.
  revert init. induction similar as [|s similar IH]; intros init Hinit Hsafe.
  - exists init. split; [done|]. split; [lia|].
    intros slug value Hin. by apply elem_of_nil in Hin.
  - cbn [forallb] in Hsafe. apply andb_true_iff in Hsafe as [Hs Hsafe].
    cbn [foldl].
    destruct (startsWith s (baseSlug ++ str "-")) eqn:Hstart.
    + destruct (parse_digits (drop (length baseSlug + 1) s)) as [value|] eqn:Hparse.
      * apply N.ltb_lt in Hs. cbv zeta. rewrite (round_to_double_safe value Hs).
        cbn [double_ltb]. destruct (N.ltb_spec init value) as [Hlt|Hge].
        -- destruct (IH value Hs Hsafe) as (m & Hfold & Hm & Hall).
           exists m. split; [exact Hfold|]. split; [lia|].
           intros slug v [->|Hin]%elem_of_cons Hst Hp; [|by eapply Hall].
           rewrite Hparse in Hp. injection Hp as <-. lia.
        -- destruct (IH init Hinit Hsafe) as (m & Hfold & Hm & Hall).
           exists m. split; [exact Hfold|]. split; [lia|].
           intros slug v [->|Hin]%elem_of_cons Hst Hp; [|by eapply Hall].
           rewrite Hparse in Hp. injection Hp as <-. lia.
      * destruct (IH init Hinit Hsafe) as (m & Hfold & Hm & Hall).
        exists m. split; [exact Hfold|]. split; [lia|].
        intros slug v [->|Hin]%elem_of_cons Hst Hp; [congruence|by eapply Hall].
    + destruct (IH init Hinit Hsafe) as (m & Hfold & Hm & Hall).
      exists m. split; [exact Hfold|]. split; [lia|].
      intros slug v [->|Hin]%elem_of_cons Hst Hp; [congruence|by eapply Hall].
Qed.

(** A free slug is returned as it is; no number is computed. *)
Lemma generateSlug_free (title : jsstring) (w : World) :
  slugExists (db w) (slugify title) None = false ->
  generateSlug title w = (w, Ok (slugify title)).
Proof.
  intros Hfree. unfold generateSlug, bindM, get_world, ret. by rewrite Hfree.
Qed.

(** A taken slug is followed by the successor of the largest suffix, which
    is free while the suffixes are safe integers. *)
Lemma generateSlug_taken (title : jsstring) (w : World) :
  slugExists (db w) (slugify title) None = true ->
  safe_suffixes (db w) (slugify title) = true ->
  exists number,
    generateSlug title w = (w, Ok (slugify title ++ str "-" ++ decimal number))
    /\ slugExists (db w) (slugify title ++ str "-" ++ decimal number) None = false.
Proof.
  intros Htaken Hsafe. unfold generateSlug, bindM, get_world, ret.
  rewrite Htaken. cbn [negb].
  destruct (max_suffix_safe (slugify title)
              (findSimilarSlugs (db w) (slugify title) None) 0)
    as (maxSuffix & Hfold & Hbound & Hall); [done|exact Hsafe|].
  cbv zeta in Hfold |- *.
  rewrite Hfold, double_succ_safe, Number_toString_safe by lia.
  exists (maxSuffix + 1)%N. split; [done|].
  apply not_true_iff_false. intros (p & Hin & Hslug)%slugExists_spec.
  assert (Hstart : startsWith (post_slug p) (slugify title ++ str "-") = true).
  { apply includes_startsWith. exists (decimal (maxSuffix + 1)).
    by rewrite Hslug, <- app_assoc. }
  enough (maxSuffix + 1 <= maxSuffix)%N by lia.
  apply (Hall (post_slug p)); [|done|].
  - unfold findSimilarSlugs. apply list_elem_of_In, in_map, filter_In.
    split; [by apply list_elem_of_In|]. by rewrite Hstart.
  - rewrite Hslug, app_assoc.
    replace (length (slugify title) + 1)%nat
      with (length (slugify title ++ str "-")) by (rewrite length_app; done).
    rewrite drop_app_length. apply parse_digits_decimal.
Qed.

(** X3. Provided every number that follows the slug of the title in a
    stored slug is a safe integer (below [2^53]): [generateSlug] returns,
    without writing, a slug that no stored post has, so it can be inserted
    without a collision.  It is the slug of the title itself when that one
    is free, and otherwise that slug followed by a dash and a decimal
    number; either way it is a non-empty, well-shaped slug. *)
Theorem generateSlug_fresh (title : jsstring) (w : World) :
  safe_suffixes (db w) (slugify title) = true ->
  let run := generateSlug title w in
  fst run = w
  /\ exists slug,
       snd run = Ok slug
       /\ (forall post, post ∈ PostsTable (db w) -> post_slug post <> slug)
       /\ slug <> [] /\ slug_shaped slug
       /\ if slugExists (db w) (slugify title) None
          then exists number, slug = slugify title ++ str "-" ++ decimal number
          else slug = slugify title.
Proof.
  intros Hsafe. destruct (slugify_well_shaped title) as [Hne Hshape].
  assert (Hfresh : forall slug, slugExists (db w) slug None = false ->
                     forall post, post ∈ PostsTable (db w) -> post_slug post <> slug).
  { intros slug Hfree post Hin Hslug. apply not_true_iff_false in Hfree.
    apply Hfree, slugExists_spec. by exists post. }
  destruct (slugExists (db w) (slugify title) None) eqn:Hexists.
  - destruct (generateSlug_taken title w Hexists Hsafe) as (number & Hrun & Hfree).
    cbv zeta. rewrite Hrun. split; [done|]. eexists. split; [done|].
    split; [by apply Hfresh|]. split; [by destruct (slugify title)|].
    split; [by apply suffixed_slug_shaped|]. by exists number.
  - cbv zeta. rewrite (generateSlug_free title w Hexists). split; [done|].
    eexists. split; [done|]. split; [by apply Hfresh|]. done.
Qed.

End SlugFacts.

Lemma generateSlug_fresh_witness :
  safe_suffixes (db drafts_world) (slugify []) = true
  /\ generateSlug [] drafts_world = (drafts_world, Ok (str "untitled-log-2"))
  /\ forall post, post ∈ PostsTable (db drafts_world) ->
                  post_slug post <> str "untitled-log-2".
Proof.
  split; [reflexivity|]. split; [reflexivity|].
  destruct (generateSlug_fresh [] drafts_world eq_refl)
    as (_ & slug & Hrun & Hfresh & _).
  injection Hrun as <-. exact Hfresh.
Defined.

(** Past the safe integers the sum [maxSuffix + 1] is rounded: after the
    suffix [2^53] the slug returned is the stored one, and after a suffix of
    21 nines it carries an exponent. *)
Lemma generateSlug_past_safe_integers :
  generateSlug [] crowded_world
  = (crowded_world, Ok (str "untitled-log-9007199254740992"))
  /\ slugExists (db crowded_world) (str "untitled-log-9007199254740992") None = true
  /\ Number_toString (double_succ (round_to_double 999999999999999999999))
     = str "1e+21".
Proof. split; [|split]; by vm_compute. Qed.

(** ** Computations that return *)

Section Returns.
Context {R : JsRuntime} {ZD : Zod}.

Lemma returns_ret {A} (a : A) (w : World) (post : World -> A -> Prop) :
  post w a -> returns_with (ret a) w post.
Proof. done. Qed.

Lemma returns_bind {A B} (c : M A) (k : A -> M B) (w : World)
    (post : World -> B -> Prop) :
  returns_with c w (fun w' a => returns_with (k a) w' post) ->
  returns_with (bindM c k) w post.
Proof.
  unfold returns_with, bindM. by destruct (c w) as [w' [a|message]].
Qed.

Lemma returns_mono {A} (c : M A) (w : World) (P Q : World -> A -> Prop) :
  returns_with c w P -> (forall w' a, P w' a -> Q w' a) -> returns_with c w Q.
Proof.
  unfold returns_with. destruct (c w) as [w' [a|message]]; [|done].
  intros HP HPQ. by apply HPQ.
Qed.

Lemma returns_inv {A} (c : M A) (w : World) (post : World -> A -> Prop) :
  returns_with c w post -> exists w' a, c w = (w', Ok a) /\ post w' a.
Proof.
  unfold returns_with. destruct (c w) as [w' [a|message]]; [|done].
  intros HP. by exists w', a.
Qed.

Lemma returns_foldM {A S} (inv : World -> S -> Prop) (step : S -> A -> M S)
    (l : list A) (acc : S) (w : World) :
  (forall acc x w0, inv w0 acc -> returns_with (step acc x) w0 inv) ->
  inv w acc -> returns_with (foldM step l acc) w inv.
Proof.
  intros Hstep. revert acc w. induction l as [|x l IH]; intros acc w Hinv; [done|].
  simpl. apply returns_bind. eapply returns_mono; [by apply Hstep|].
  intros w' acc' Hinv'. by apply IH.
Qed.
End Returns.

(** ** Importing one post ([workflows/import-helpers.ts]) *)

Section ImportOutcome.
Context {R : JsRuntime} {ZD : Zod} {G : GrayMatter} {F : Fflate} {J : Json}
        {C : Collaborators} {B : BlobStoreFaults}.

Lemma same_posts_media (w w0 : World) (media : list MediaRow)
    (store : gmap jsstring bytes) (s : nat) :
  same_posts w w0 ->
  same_posts w {| db := {| PostsTable := PostsTable (db w0); TagsTable := TagsTable (db w0);
                          PostTagsTable := PostTagsTable (db w0); MediaTable := media;
                          PostMediaTable := PostMediaTable (db w0) |};
                  R2 := store; cache := cache w0; now := now w0; seed := s |}.
Proof. intros (? & ? & ? & ? & ?). by repeat split. Qed.

Lemma upload_image_returns (zipFiles : Archive) (imagePrefix : jsstring)
    (state : RewriteMap * list jsstring) (imagePath : jsstring) (w w0 : World) :
  same_posts w w0 ->
  returns_with (upload_image zipFiles imagePrefix state imagePath) w0
    (fun w' _ => same_posts w w').
Proof.
  intros Hw0. destruct state as [rewriteMap warnings]. unfold upload_image.
  destruct (archive_get zipFiles imagePath) as [[|b data]|]; try done.
  unfold returns_with, bindM, try_catch, fresh_seed, store_image, bindM, R2_put.
  match goal with |- context [R2_put_error ?k ?w1] => destruct (R2_put_error k w1) end;
    done.
Qed.

(** Uploading the images of a native post does not throw (a failed upload
    becomes a warning) and adds media rows and blobs only. *)
Lemma uploadImages_returns (zipFiles : Archive) (entry : PostEntry) (w : World) :
  returns_with (uploadImages zipFiles entry) w (fun w' _ => same_posts w w').
Proof.
  unfold uploadImages.
  apply (returns_foldM (fun w' _ => same_posts w w')); [|apply same_posts_refl].
  intros acc x w0 Hw0. by apply upload_image_returns.
Qed.

(** Resolving the tags cannot fail and leaves the posts alone. *)
Lemma resolve_tags_returns (names : list jsstring) (w : World) :
  returns_with
    (foldM (fun tagIds tagName =>
              let* w := get_world in
              match findTagByName (db w) tagName with
              | Some tag => ret (tagIds ++ [tag_id tag])
              | None =>
                  let* tag := insertTag tagName in
                  ret (tagIds ++ [tag_id tag])
              end)
           names [])
    w (fun w' _ => PostsTable (db w') = PostsTable (db w)).
Proof.
  apply (returns_foldM (fun w' _ => PostsTable (db w') = PostsTable (db w))); [|done].
  intros acc x w0 Hw0. unfold returns_with, bindM, get_world.
  by destruct (findTagByName (db w0) x).
Qed.

(** The three ways an import of one post can end: it throws before anything
    but media is written; it is skipped because the slug is taken; or it
    appends one post under a slug that was free. *)
Lemma import_outcome (zipFiles : Archive) (entry : PostEntry) (mode : ImportMode)
    (w w' : World) (r : result ImportResult) :
  importSinglePost zipFiles entry mode w = (w', r) ->
  same_posts w w'
  /\ ((exists message,
         r = Throw message
         /\ let parsed :=
              snd (match mode with
                   | native => parse_native zipFiles entry
                   | markdown => parse_markdown zipFiles entry
                   end w) in
            parsed = Throw message
            \/ exists content metadata warnings,
                 parsed = Ok (content, metadata, warnings)
                 /\ normalizeFrontmatter metadata = None)
      \/ (exists res, r = Ok res /\ skipped res = true
           /\ slugExists (db w) (slugify (result_slug res)) None = true))
  \/ exists res post,
       r = Ok res /\ skipped res = false
       /\ slugExists (db w) (result_slug res) None = false
       /\ result_slug res <> [] /\ slug_shaped (result_slug res)
       /\ post_slug post = result_slug res /\ post_title post = result_title res
       /\ ((forall d id tree, PostsTable (syncPostMedia d id tree) = PostsTable d) ->
           PostsTable (db w') = PostsTable (db w) ++ [post]).
Proof.
  unfold importSinglePost. unfold bindM at 1.
  assert (Hsame : same_posts w
            (fst (match mode with
                  | native => parse_native zipFiles entry
                  | markdown => parse_markdown zipFiles entry
                  end w))).
  { destruct mode; [|apply parse_markdown_same_posts].
    rewrite parse_native_pure. apply same_posts_refl. }
  destruct (match mode with
            | native => parse_native zipFiles entry
            | markdown => parse_markdown zipFiles entry
            end w) as [w1 [[[content metadata] warnings]|message]] eqn:Hparse;
    simpl in Hsame.
  2:{ intros [= <- <-]. left. split; [done|]. left. eexists. split; [done|].
      by left. }
  destruct (normalizeFrontmatter metadata) as [normalized|] eqn:Hnorm.
  2:{ intros [= <- <-]. left. split; [done|]. left. eexists. split; [done|].
      right. by exists content, metadata, warnings. }
  unfold bindM at 1. unfold get_world at 1.
  assert (Hposts : PostsTable (db w1) = PostsTable (db w)) by apply Hsame.
  destruct (slugExists (db w1) _ None) eqn:Hexists.
  { intros [= <- <-]. left. split; [done|]. right. eexists. split; [done|].
    split; [done|]. simpl. unfold slugExists in *. by rewrite <- Hposts. }
  match goal with |- ?rest w1 = _ -> _ =>
    assert (Hrest : returns_with rest w1
              (fun w' res =>
                 skipped res = false
                 /\ slugExists (db w1) (result_slug res) None = false
                 /\ result_slug res <> [] /\ slug_shaped (result_slug res)
                 /\ exists post,
                      post_slug post = result_slug res
                      /\ post_title post = result_title res
                      /\ ((forall d id tree,
                              PostsTable (syncPostMedia d id tree) = PostsTable d) ->
                          PostsTable (db w') = PostsTable (db w1) ++ [post])))
  end.
  { apply returns_bind.
    apply (returns_mono _ _ (fun w2 _ => same_posts w1 w2)).
    { destruct content as [tree|]; [destruct mode|]; try apply same_posts_refl.
      apply returns_bind. eapply returns_mono; [apply uploadImages_returns|].
      by intros w2 [rewriteMap imageWarnings]. }
    intros w2 [contentJson warnings0] Hsame2.
    assert (Hposts2 : PostsTable (db w2) = PostsTable (db w1)) by apply Hsame2.
    apply returns_bind.
    match goal with |- context [generateSlug ?t] =>
      assert (Hgen : generateSlug t w2 = (w2, Ok (slugify t)))
        by (apply generateSlug_free; unfold slugExists in *; by rewrite Hposts2);
      destruct (slugify_well_shaped t) as [Hne Hshape];
      assert (Hfresh : slugExists (db w2) (slugify t) None = false)
        by (unfold slugExists in *; by rewrite Hposts2);
      set (slug := slugify t) in *
    end.
    unfold returns_with at 1. rewrite Hgen.
    apply returns_bind. eapply returns_mono; [apply resolve_tags_returns|].
    intros w3 tagIds Hposts3.
    unfold returns_with, bindM, get_world, insertPost, insertPostTags, set_db, ret.
    simpl.
    assert (Hfree : slugExists (db w1) slug None = false).
    { unfold slugExists in *. by rewrite <- Hposts2. }
    destruct (highlightCodeBlocks <$> contentJson) as [tree|]; simpl;
      (split; [done|]); (split; [done|]); (split; [done|]); (split; [done|]);
      match goal with |- context [PostsTable (db w3) ++ [?p]] => exists p end;
      (split; [reflexivity|]); (split; [reflexivity|]); intros Hsync;
      rewrite ?Hsync; simpl; by rewrite Hposts3, Hposts2. }
  intros Hrun. apply returns_inv in Hrest as (w2 & res & Hrun' & Hres).
  rewrite Hrun in Hrun'. injection Hrun' as -> ->.
  destruct Hres as (Hskip & Hfree & Hne & Hshape & post & Hslug & Htitle & Hrows).
  right. exists res, post. split; [done|]. split; [done|].
  split; [by unfold slugExists in *; rewrite <- Hposts|].
  split; [done|]. split; [done|]. split; [done|]. split; [done|].
  intros Hsync. by rewrite Hrows, Hposts.
Qed.

(** X4. An import of one post that throws, or that is skipped because its
    slug is taken, leaves the posts, the tags, their links and the progress
    records exactly as they were. *)
Theorem import_failure_writes_no_post (zipFiles : Archive) (entry : PostEntry)
    (mode : ImportMode) (w : World) :
  (forall res, snd (importSinglePost zipFiles entry mode w) = Ok res ->
               skipped res = true) ->
  same_posts w (fst (importSinglePost zipFiles entry mode w)).
Proof.
  intros Hfailed.
  destruct (importSinglePost zipFiles entry mode w) as [w' r] eqn:Hrun.
  apply import_outcome in Hrun as [[Hsame _]|(res & post & -> & Hskip & _)]; [done|].
  simpl in Hfailed. specialize (Hfailed res eq_refl). congruence.
Qed.

(** X5. The slug under which a post was imported was free before the
    import, is not empty and is well shaped; and a post is only skipped when
    the slug it asks for, once slugified, is already taken. *)
Theorem import_slug_was_free (zipFiles : Archive) (entry : PostEntry)
    (mode : ImportMode) (w : World) (res : ImportResult) :
  snd (importSinglePost zipFiles entry mode w) = Ok res ->
  if skipped res
  then slugExists (db w) (slugify (result_slug res)) None = true
  else slugExists (db w) (result_slug res) None = false
       /\ result_slug res <> [] /\ slug_shaped (result_slug res).
Proof.
  destruct (importSinglePost zipFiles entry mode w) as [w' r] eqn:Hrun.
  simpl. intros ->.
  apply import_outcome in Hrun
    as [[_ [(message & [=] & _)|(res' & [= <-] & -> & Hexists)]]
       |(res' & post & [= <-] & -> & Hfree & Hne & Hshape & _)]; done.
Qed.

(** X6. Provided the synchronisation of post and media links leaves the
    posts table alone, a post that is imported and not skipped is appended
    as one new row carrying the returned slug and title; the rows that were
    there are kept, in their order. *)
Theorem import_appends_one_post (zipFiles : Archive) (entry : PostEntry)
    (mode : ImportMode) (w : World) (res : ImportResult) :
  (forall d id tree, PostsTable (syncPostMedia d id tree) = PostsTable d) ->
  snd (importSinglePost zipFiles entry mode w) = Ok res ->
  skipped res = false ->
  exists post,
    PostsTable (db (fst (importSinglePost zipFiles entry mode w)))
    = PostsTable (db w) ++ [post]
    /\ post_slug post = result_slug res /\ post_title post = result_title res.
Proof.
  intros Hsync.
  destruct (importSinglePost zipFiles entry mode w) as [w' r] eqn:Hrun.
  simpl. intros -> Hskip.
  apply import_outcome in Hrun
    as [[_ [(message & [=] & _)|(res' & [= <-] & Hskip' & _)]]
       |(res' & post & [= <-] & _ & _ & _ & _ & Hslug & Htitle & Hrows)];
    [congruence|].
  exists post. auto.
Qed.

(** X7. Provided the synchronisation of post and media links leaves the
    posts table alone, importing a post never makes two stored posts share a
    slug, whether the import succeeds, is skipped or throws. *)
Theorem import_keeps_slugs_unique (zipFiles : Archive) (entry : PostEntry)
    (mode : ImportMode) (w : World) :
  (forall d id tree, PostsTable (syncPostMedia d id tree) = PostsTable d) ->
  NoDup (map post_slug (PostsTable (db w))) ->
  NoDup (map post_slug
           (PostsTable (db (fst (importSinglePost zipFiles entry mode w))))).
Proof.
  intros Hsync Hunique.
  destruct (importSinglePost zipFiles entry mode w) as [w' r] eqn:Hrun.
  apply import_outcome in Hrun
    as [[(Hposts & _) _]
       |(res & post & _ & _ & Hfree & _ & _ & Hslug & _ & Hrows)]; simpl.
  - by rewrite Hposts.
  - rewrite (Hrows Hsync), map_app. simpl.
    apply NoDup_app. split; [done|]. split; [|apply NoDup_singleton].
    intros s Hs [->|[]%elem_of_nil]%elem_of_cons.
    apply not_true_iff_false in Hfree. apply Hfree, slugExists_spec.
    apply list_elem_of_fmap in Hs as (p & Hp & Hin). exists p.
    split; [done|]. congruence.
Qed.
End ImportOutcome.

Lemma import_failure_writes_no_post_witness :
  same_posts seeded_world
    (fst (importSinglePost markdown_archive markdown_entry markdown seeded_world)).
Proof.
  apply import_failure_writes_no_post.
  intros res Hres. vm_compute in Hres. by injection Hres as <-.
Defined.

Lemma import_slug_was_free_witness :
  slugExists (db empty_import_world) (str "existing-post") None = false
  /\ str "existing-post" <> [] /\ slug_shaped (str "existing-post").
Proof.
  apply (import_slug_was_free native_archive native_entry native empty_import_world
           {| result_title := str "Duplicate"; result_slug := str "existing-post";
              skipped := false; result_warnings := [] |}).
  vm_compute. reflexivity.
Defined.

Lemma import_appends_one_post_witness :
  exists post,
    PostsTable (db (fst (importSinglePost native_archive native_entry native
                           empty_import_world)))
    = PostsTable (db empty_import_world) ++ [post]
    /\ post_slug post = str "existing-post" /\ post_title post = str "Duplicate".
Proof.
  apply (import_appends_one_post native_archive native_entry native empty_import_world
           {| result_title := str "Duplicate"; result_slug := str "existing-post";
              skipped := false; result_warnings := [] |}).
  - reflexivity.
  - vm_compute. reflexivity.
  - reflexivity.
Defined.

Lemma import_keeps_slugs_unique_witness :
  NoDup (map post_slug
           (PostsTable (db (fst (importSinglePost markdown_archive markdown_entry
                                   markdown seeded_world))))).
Proof.
  apply import_keeps_slugs_unique.
  - reflexivity.
  - simpl. apply NoDup_singleton.
Defined.

(** ** Enumerating the posts of an archive ([workflows/import-helpers.ts]) *)

Lemma map_entries_elem {A B} (f : A -> result (option B)) (l : list A)
    (es : list B) (e : B) :
  map_entries f l = Ok es -> e ∈ es -> exists x, x ∈ l /\ f x = Ok (Some e).
Proof.
  revert es. induction l as [|x l IH]; intros es; simpl.
  - intros [= <-] Hin. by apply elem_of_nil in Hin.
  - destruct (f x) as [o|message] eqn:Hfx; [|done]. simpl.
    destruct (map_entries f l) as [es'|message]; [|done]. simpl.
    intros [= <-] Hin.
    assert (Hrest : e ∈ es' -> exists y, y ∈ x :: l /\ f y = Ok (Some e)).
    { intros He. destruct (IH es' eq_refl He) as (y & Hy & Hfy).
      exists y. split; [by right|done]. }
    destruct o as [b|]; [|by apply Hrest].
    apply elem_of_cons in Hin as [->|Hin]; [|by apply Hrest].
    exists x. split; [by left|done].
Qed.

Section EnumerateFacts.
Context {R : JsRuntime} {ZD : Zod} {G : GrayMatter} {F : Fflate} {J : Json}
        {C : Collaborators} {B : BlobStoreFaults}.

Lemma read_entry_inv (zipFiles : Archive) (path : jsstring) (fm : PostFrontmatter) :
  read_entry zipFiles path = Ok (Some fm) ->
  exists c text data content,
    readTextFile zipFiles path = Some (c :: text)
    /\ parseFrontmatter (c :: text) = Ok (data, content)
    /\ normalizeFrontmatter data = Some fm.
Proof.
  unfold read_entry.
  destruct (readTextFile zipFiles path) as [[|c text]|]; try done.
  destruct (parseFrontmatter (c :: text)) as [[data content]|message] eqn:Hparse;
    [|done].
  simpl. intros [= Hnorm]. by exists c, text, data, content.
Qed.





End EnumerateFacts.


(** ** The import workflow ([workflows/import.workflow.ts]) *)

Section ImportWorkflowFacts.
Context {R : JsRuntime} {ZD : Zod} {G : GrayMatter} {F : Fflate} {J : Json}
        {C : Collaborators} {B : BlobStoreFaults}.

Lemma fetchZipFiles_pure (r2Key : jsstring) (w : World) :
  fst (fetchZipFiles r2Key w) = w.
Proof.
  unfold fetchZipFiles, bindM, get_world. by destruct (R2 w !! r2Key).
Qed.

Lemma enumerate_posts_pure (r2Key : jsstring) (mode : ImportMode) (w : World) :
  fst (enumerate_posts r2Key mode w) = w.
Proof.
  unfold enumerate_posts, bindM.
  pose proof (fetchZipFiles_pure r2Key w) as Hfetch.
  destruct (fetchZipFiles r2Key w) as [w0 [zipFiles|message]]; simpl in Hfetch;
    subst; [|done].
  by destruct mode.
Qed.

Lemma report_matches_refl (w : World) : report_matches w w [].
Proof. exists []. by rewrite app_nil_r. Qed.

Lemma report_matches_trans (w1 w2 w3 : World) (a b : list (jsstring * jsstring)) :
  report_matches w1 w2 a -> report_matches w2 w3 b -> report_matches w1 w3 (a ++ b).
Proof.
  intros (m1 & H1 & -> & U1) (m2 & H2 & -> & U2). exists (m1 ++ m2).
  split; [by rewrite H2, H1, app_assoc|]. split; [by rewrite map_app|auto].
Qed.

Lemma report_matches_db (w w1 w2 : World) (a : list (jsstring * jsstring)) :
  db w2 = db w1 -> report_matches w w1 a -> report_matches w w2 a.
Proof. intros Hdb (more & ? & ? & ?). exists more. by rewrite Hdb. Qed.

Lemma report_matches_same_posts (w w' : World) :
  same_posts w w' -> report_matches w w' [].
Proof.
  intros (Hposts & _). exists []. rewrite app_nil_r. split; [done|].
  split; [done|]. by rewrite Hposts.
Qed.

Lemma import_post_step_returns (r2Key : jsstring) (mode : ImportMode)
    (entry : PostEntry) (w : World) :
  returns_with (import_post_step r2Key mode entry) w (fun _ _ => True).
Proof.
  unfold returns_with, import_post_step, try_catch.
  match goal with |- context [bindM ?c ?k w] => destruct (bindM c k w) as [w' [delta|message]] end;
    done.
Qed.

(** The loop over the entries cannot throw: what an entry throws ends up in
    the report. *)
Lemma import_loop_returns (progressKey r2Key : jsstring) (mode : ImportMode)
    (count i : nat) (entries : list PostEntry) (report0 : ImportReport) (w : World) :
  returns_with (import_loop progressKey r2Key mode count i entries report0) w
    (fun _ _ => True).
Proof.
  revert i report0 w. induction entries as [|entry entries IH]; intros i report0 w;
    [done|].
  simpl. apply returns_bind.
  eapply returns_mono; [apply import_post_step_returns|].
  intros w1 delta _. apply returns_bind. unfold returns_with at 1. simpl. apply IH.
Qed.

(** X9. A run of the import workflow never throws and always leaves a
    terminal progress record under the key of the task: [failed], with the
    message as its only warning and the database and blob store untouched,
    exactly when opening the archive or enumerating its posts throws;
    otherwise [completed], with [total] and [completed] both equal to the
    number of entries found, whatever happened to the single entries. *)
Theorem import_workflow_terminal (taskId r2Key : jsstring) (mode : ImportMode)
    (w : World) :
  let run := ImportWorkflow_run taskId r2Key mode w in
  snd run = Ok tt
  /\ exists progress,
       cache (fst run) !! importProgress taskId = Some progress
       /\ match snd (enumerate_posts r2Key mode w) with
          | Throw message =>
              task_status progress = failed /\ warnings progress = [message]
              /\ total progress = 0%nat /\ db (fst run) = db w /\ R2 (fst run) = R2 w
          | Ok entries =>
              task_status progress = completed
              /\ total progress = length entries
              /\ completed_count progress = length entries
          end.
Proof.
  intros run. assert (Hrun : ImportWorkflow_run taskId r2Key mode w = run) by done.
  clearbody run. unfold ImportWorkflow_run, try_catch in Hrun.
  unfold bindM at 1 in Hrun.
  pose proof (enumerate_posts_pure r2Key mode w) as Hpure.
  destruct (enumerate_posts r2Key mode w) as [w0 [entries|message]];
    simpl in Hpure; subst w0; cbn [snd].
  - destruct entries as [|entry entries].
    + subst run. simpl. split; [done|]. eexists.
      split; [apply lookup_insert_eq|done].
    + unfold bindM in Hrun.
      destruct (returns_inv _ _ _
                  (import_loop_returns (importProgress taskId) r2Key mode
                     (length (entry :: entries)) 0 (entry :: entries) empty_report w))
        as (w1 & report & Hloop & _).
      rewrite Hloop in Hrun. unfold R2_delete in Hrun.
      destruct (R2_delete_error r2Key w1); subst run;
        simpl; (split; [done|]); eexists; (split; [apply lookup_insert_eq|done]).
  - subst run. simpl. split; [done|]. eexists.
    split; [apply lookup_insert_eq|done].
Qed.


Section WithSync.
Hypothesis Hsync : forall d id tree, PostsTable (syncPostMedia d id tree) = PostsTable d.

(** One entry: the step returns a delta with at most one line, and a post is
    appended exactly when the delta lists it as succeeded. *)
Lemma import_post_step_spec (r2Key : jsstring) (mode : ImportMode) (entry : PostEntry)
    (w : World) :
  returns_with (import_post_step r2Key mode entry) w
    (fun w' delta =>
       report_matches w w' (succeeded delta)
       /\ (length (succeeded delta) + length (failed_posts delta) <= 1)%nat).
Proof.
  unfold returns_with, import_post_step, try_catch. unfold bindM at 1.
  pose proof (fetchZipFiles_pure r2Key w) as Hfetch.
  destruct (fetchZipFiles r2Key w) as [w0 [zipFiles|message]]; simpl in Hfetch;
    subst w0.
  2:{ simpl. split; [apply report_matches_refl|lia]. }
  unfold bindM.
  destruct (importSinglePost zipFiles entry mode w) as [w' r] eqn:Hrun.
  apply import_outcome in Hrun
    as [[Hsame [(message & -> & _)|(res & -> & -> & _)]]
       |(res & post & -> & -> & Hfree & _ & _ & Hslug & Htitle & Hrows)]; simpl.
  - split; [by apply report_matches_same_posts|lia].
  - split; [by apply report_matches_same_posts|lia].
  - split; [|lia]. exists [post]. split; [by apply Hrows|].
    split; [by simpl; unfold reported; rewrite Hslug, Htitle|].
    intros Hunique. rewrite (Hrows Hsync), map_app. simpl.
    apply NoDup_app. split; [done|]. split; [|apply NoDup_singleton].
    intros s Hs [->|[]%elem_of_nil]%elem_of_cons.
    apply not_true_iff_false in Hfree. apply Hfree, slugExists_spec.
    apply list_elem_of_fmap in Hs as (p & Hp & Hin). exists p.
    split; [done|]. congruence.
Qed.

Lemma import_loop_spec (progressKey r2Key : jsstring) (mode : ImportMode)
    (count i : nat) (entries : list PostEntry) (report0 : ImportReport)
    (w0 w : World) :
  report_matches w0 w (succeeded report0) ->
  returns_with (import_loop progressKey r2Key mode count i entries report0) w
    (fun w' report =>
       report_matches w0 w' (succeeded report)
       /\ (length (succeeded report) + length (failed_posts report)
           <= length (succeeded report0) + length (failed_posts report0)
              + length entries)%nat).
Proof.
  revert i report0 w. induction entries as [|entry entries IH];
    intros i report0 w Hmatch.
  - simpl. split; [done|lia].
  - simpl. apply returns_bind.
    eapply returns_mono; [apply import_post_step_spec|].
    intros w1 delta [Hdelta Hone]. apply returns_bind.
    unfold returns_with at 1. simpl.
    eapply returns_mono.
    + apply IH. simpl. eapply report_matches_trans; [exact Hmatch|].
      eapply report_matches_db; [|exact Hdelta]. done.
    + simpl. intros w2 report [Hreport Hcount]. split; [done|].
      rewrite !length_app in Hcount. simpl. lia.
Qed.

(** X11. Provided the synchronisation of post and media links leaves the
    posts table alone: the report of a finished import tells what happened to
    the posts table.  Rows were only appended, the appended rows are, in
    order, the posts listed as succeeded, with their titles and slugs; the
    slugs of the stored posts are pairwise distinct if they were before the
    run; and each entry is counted at most once. *)
Theorem import_report_matches_posts (taskId r2Key : jsstring) (mode : ImportMode)
    (w : World) (progress : TaskProgress) (rep : ImportReport) :
  let run := ImportWorkflow_run taskId r2Key mode w in
  cache (fst run) !! importProgress taskId = Some progress ->
  report progress = Some rep ->
  (exists more,
      PostsTable (db (fst run)) = PostsTable (db w) ++ more
      /\ succeeded rep = map reported more
      /\ (NoDup (map post_slug (PostsTable (db w))) ->
          NoDup (map post_slug (PostsTable (db (fst run))))))
  /\ errors progress = failed_posts rep
  /\ (length (succeeded rep) + length (failed_posts rep) <= total progress)%nat.
Proof.
  intros run. assert (Hrun : ImportWorkflow_run taskId r2Key mode w = run) by done.
  clearbody run. unfold ImportWorkflow_run, try_catch in Hrun.
  unfold bindM at 1 in Hrun.
  pose proof (enumerate_posts_pure r2Key mode w) as Hpure.
  destruct (enumerate_posts r2Key mode w) as [w0 [entries|message]];
    simpl in Hpure; subst w0.
  - destruct entries as [|entry entries].
    + subst run. simpl. rewrite lookup_insert_eq. intros [= <-] [= <-]. simpl.
      split; [|split; [done|lia]]. exists []. by rewrite app_nil_r.
    + unfold bindM in Hrun.
      destruct (returns_inv _ _ _
                  (import_loop_spec (importProgress taskId) r2Key mode
                     (length (entry :: entries)) 0 (entry :: entries) empty_report
                     w w (report_matches_refl w)))
        as (w1 & report & Hloop & Hmatch & Hcount).
      rewrite Hloop in Hrun. unfold R2_delete in Hrun.
      destruct (R2_delete_error r2Key w1); subst run;
        simpl; rewrite lookup_insert_eq; intros [= <-] [= <-]; simpl;
        (split; [exact Hmatch|]); (split; [done|]); simpl in Hcount; lia.
  - subst run. simpl. rewrite lookup_insert_eq. by intros [= <-] [=].
Qed.
End WithSync.
End ImportWorkflowFacts.

Lemma import_report_matches_posts_witness :
  let run := ImportWorkflow_run (str "t2") (str "imports/t2.zip") native
               native_import_world in
  exists progress rep,
    cache (fst run) !! importProgress (str "t2") = Some progress
    /\ report progress = Some rep
    /\ succeeded rep = [(str "Duplicate", str "existing-post")]
    /\ exists more,
         PostsTable (db (fst run)) = PostsTable (db native_import_world) ++ more
         /\ succeeded rep = map reported more.
Proof.
  intros run.
  assert (Hstored : exists progress rep,
            cache (fst run) !! importProgress (str "t2") = Some progress
            /\ report progress = Some rep
            /\ succeeded rep = [(str "Duplicate", str "existing-post")]).
  { vm_compute. eexists _, _. split; [reflexivity|]. split; reflexivity. }
  destruct Hstored as (progress & rep & Hprogress & Hrep & Hsucceeded).
  exists progress, rep. split; [exact Hprogress|]. split; [exact Hrep|].
  split; [exact Hsucceeded|].
  destruct (import_report_matches_posts (C := ref_collaborators)
              (fun d id tree => eq_refl)
              (str "t2") (str "imports/t2.zip") native native_import_world
              progress rep Hprogress Hrep)
    as [(more & Hrows & Hreported & _) _].
  exists more. split; [exact Hrows|exact Hreported].
Defined.

(** ** The export workflow ([workflows/export.workflow.ts]) *)

Section ExportWorkflowFacts.
Context {R : JsRuntime} {ZD : Zod} {G : GrayMatter} {F : Fflate} {J : Json}
        {C : Collaborators} {B : BlobStoreFaults}.


End ExportWorkflowFacts.

(** ** Selecting the posts to export ([features/posts/data/posts.data.ts]) *)

Section FindFullPostsFacts.
Context {R : JsRuntime} {ZD : Zod}.

Lemma insert_desc_perm (p : PostRow) (sorted : list PostRow) :
  insert_desc p sorted ≡ₚ p :: sorted.
Proof.
  induction sorted as [|q rest IH]; simpl; [done|].
  destruct (time_leb (post_createdAt q) (post_createdAt p)); [done|].
  rewrite IH. apply Permutation_swap.
Qed.

Lemma sort_desc_perm (l : list PostRow) : foldr insert_desc [] l ≡ₚ l.
Proof.
  induction l as [|p l IH]; simpl; [done|].
  by rewrite insert_desc_perm, IH.
Qed.

(** X13. [findFullPosts] returns every stored post that passes the filter
    exactly once, whatever the order of their creation times: a post is
    selected when its id is among the ids asked for (any post when no id, or
    an empty list of ids, is given) and its status is the one asked for (any
    when none is given).  The tags that come with a post are tags of the tags
    table that a link attaches to that post. *)
Theorem findFullPosts_selects (d : Database) (ids : option (list nat))
    (status : option PostStatus) :
  (map fst (findFullPosts d ids status)
   ≡ₚ List.filter
        (fun p =>
           match ids with
           | Some (i :: more) => bool_decide (post_id p ∈ i :: more)
           | _ => true
           end
           && match status with
              | Some st => bool_decide (post_status p = st)
              | None => true
              end)
        (PostsTable d))
  /\ (forall post, post ∈ map fst (findFullPosts d ids status) ->
        post ∈ PostsTable d
        /\ match ids with
           | Some (i :: more) => post_id post ∈ i :: more
           | _ => True
           end
        /\ match status with
           | Some st => post_status post = st
           | None => True
           end)
  /\ (forall post tags tag,
        (post, tags) ∈ findFullPosts d ids status -> tag ∈ tags ->
        tag ∈ TagsTable d /\ (post_id post, tag_id tag) ∈ PostTagsTable d).
Proof.
  unfold findFullPosts.
  match goal with |- context [List.filter ?f (PostsTable d)] =>
    set (selected := List.filter f (PostsTable d));
    assert (Hfilter : forall p, p ∈ selected -> p ∈ PostsTable d /\ f p = true)
      by (intros p Hp; apply list_elem_of_In, filter_In in Hp as [Hp ?];
          split; [by apply list_elem_of_In|done])
  end.
  assert (Hperm : map fst
                    (map (fun p =>
                            (p, omap (fun link =>
                                        if (fst link =? post_id p)%nat then
                                          find (fun t => (tag_id t =? snd link)%nat)
                                               (TagsTable d)
                                        else None)
                                     (PostTagsTable d)))
                         (foldr insert_desc [] selected)) ≡ₚ selected).
  { rewrite map_map. simpl. rewrite map_id. apply sort_desc_perm. }
  split; [exact Hperm|]. split.
  - intros post Hpost. rewrite Hperm in Hpost.
    apply Hfilter in Hpost as [Hin Hpass].
    apply andb_true_iff in Hpass as [Hids Hstatus]. split; [done|]. split.
    + destruct ids as [[|i more]|]; try done. by apply bool_decide_eq_true in Hids.
    + destruct status as [st|]; [|done]. by apply bool_decide_eq_true in Hstatus.
  - intros post tags tag Hin Htag.
    apply list_elem_of_fmap in Hin as (p & [= -> ->] & _).
    apply list_elem_of_omap in Htag as ([pid tid] & Hlink & Hfind). simpl in Hfind.
    destruct (Nat.eqb_spec pid (post_id p)) as [->|]; [|done].
    apply find_some in Hfind as [Htag Hid%Nat.eqb_eq]. simpl in Hid. subst tid.
    split; [by apply list_elem_of_In|done].
Qed.
End FindFullPostsFacts.

(** ** Image references in markdown ([utils/image-rewriter.ts]) *)

Lemma span_until_spec (stop : N) (s : jsstring) :
  s = fst (span_until stop s) ++ snd (span_until stop s)
  /\ (stop ∉ fst (span_until stop s))
  /\ forall c rest, snd (span_until stop s) = c :: rest -> c = stop.
Proof.
  induction s as [|x s (IH1 & IH2 & IH3)]; simpl.
  - split; [done|]. split; [apply not_elem_of_nil|done].
  - destruct (N.eqb_spec x stop) as [->|Hx]; simpl.
    + split; [done|]. split; [apply not_elem_of_nil|]. by intros c rest [= -> _].
    + destruct (span_until stop s) as [taken rest]. simpl in *.
      split; [by f_equal|]. split; [|done].
      intros [->|Hin]%elem_of_cons; [done|]. by apply IH2.
Qed.

Ltac code_unit c :=
  destruct c as [|c]; [done|]; repeat (destruct c as [c|c|]; try done).

(** What a match of the image pattern at the start of a text is. *)
Lemma match_image_inv (s alt source : jsstring) (len : nat) :
  match_image s = Some (alt, source, len) ->
  exists rest,
    s = str "![" ++ alt ++ str "](" ++ source ++ str ")" ++ rest
    /\ (93%N ∉ alt) /\ (41%N ∉ source) /\ source <> []
    /\ len = (length alt + length source + 5)%nat.
Proof.
  unfold match_image.
  destruct s as [|c0 [|c1 s1]]; [done|by code_unit c0|].
  code_unit c0. code_unit c1.
  destruct (span_until_spec 93 s1) as (Hs1 & Halt & _).
  destruct (span_until 93 s1) as [alt' s2]. simpl in Hs1, Halt.
  destruct s2 as [|c2 [|c3 s3]]; [done|by code_unit c2|].
  code_unit c2. code_unit c3.
  destruct (span_until_spec 41 s3) as (Hs3 & Hsource & _).
  destruct (span_until 41 s3) as [source' s4]. simpl in Hs3, Hsource.
  destruct source' as [|d source']; [done|].
  destruct s4 as [|c4 s4]; [done|].
  code_unit c4.
  intros [= <- <- <-]. exists s4. subst s1 s3.
  by repeat split.
Qed.

Lemma extract_images_sound (skip : nat) (markdown source : jsstring)
    (kind : image_kind) :
  (source, kind) ∈ extract_images_from skip markdown ->
  source <> [] /\ (41%N ∉ source) /\ kind = classify_image source
  /\ exists alt, (93%N ∉ alt)
       /\ contains markdown (str "![" ++ alt ++ str "](" ++ source ++ str ")").
Proof.
  revert skip. induction markdown as [|c rest IH]; intros skip;
    cbn [extract_images_from].
  - by intros ?%elem_of_nil.
  - assert (Hrest : forall k, (source, kind) ∈ extract_images_from k rest ->
              source <> [] /\ (41%N ∉ source) /\ kind = classify_image source
              /\ exists alt, (93%N ∉ alt)
                   /\ contains (c :: rest)
                        (str "![" ++ alt ++ str "](" ++ source ++ str ")")).
    { intros k Hk. destruct (IH k Hk) as (? & ? & ? & alt & ? & Hc).
      repeat split; try done. exists alt. split; [done|].
      by apply (contains_app_l _ _ [c]) in Hc. }
    destruct skip as [|skip]; [|apply Hrest].
    destruct (match_image (c :: rest)) as [[[alt src] len]|] eqn:Hmatch; [|apply Hrest].
    intros [[= -> ->]|Hin]%elem_of_cons; [|by eapply Hrest].
    apply match_image_inv in Hmatch as (tail & Heq & Halt & Hsrc & Hne & _).
    repeat split; try done. exists alt. split; [done|].
    rewrite Heq. exists [], tail. by rewrite app_nil_l, <- !app_assoc.
Qed.

(** X14. Every image that [extractMarkdownImages] reports occurs in the
    text as an image reference with that source; the source is not empty,
    holds no closing bracket, and is classified by how it starts. *)
Theorem extractMarkdownImages_sound (markdown source : jsstring) (kind : image_kind) :
  (source, kind) ∈ extractMarkdownImages markdown ->
  source <> [] /\ (41%N ∉ source)
  /\ kind = classify_image source
  /\ exists alt,
       (93%N ∉ alt)
       /\ contains markdown (str "![" ++ alt ++ str "](" ++ source ++ str ")").
Proof. apply extract_images_sound. Qed.

Lemma extractMarkdownImages_sound_witness :
  str "./b.png" <> [] /\ (41%N ∉ str "./b.png")
  /\ relative = classify_image (str "./b.png")
  /\ exists alt,
       (93%N ∉ alt)
       /\ contains (str "see ![a](./b.png) here")
                   (str "![" ++ alt ++ str "](" ++ str "./b.png" ++ str ")").
Proof.
  apply (extractMarkdownImages_sound (str "see ![a](./b.png) here")).
  vm_compute. by left.
Defined.

Lemma rewrite_images_untouched (rewriteMap : RewriteMap) (skip : nat)
    (markdown : jsstring) :
  (forall img, img ∈ extract_images_from skip markdown ->
               default [] (archive_get rewriteMap (fst img)) = []) ->
  rewrite_images_from rewriteMap skip markdown = drop skip markdown.
Proof.
  revert skip. induction markdown as [|c rest IH]; intros skip Hnone;
    cbn [rewrite_images_from].
  - by destruct skip.
  - destruct skip as [|skip]; cbn [extract_images_from] in Hnone; [|by apply IH].
    destruct (match_image (c :: rest)) as [[[alt src] len]|] eqn:Hmatch.
    + apply match_image_inv in Hmatch as (tail & Heq & _ & _ & _ & Hlen).
      rewrite IH by (intros img Himg; apply Hnone; by right).
      assert (Hsrc : default [] (archive_get rewriteMap src) = [])
        by (apply (Hnone (src, classify_image src)); by left).
      destruct (archive_get rewriteMap src) as [[|n newSrc]|]; try done;
        destruct len as [|len]; try lia; simpl;
        rewrite Nat.sub_0_r; by rewrite take_drop.
    + rewrite IH; [done|]. intros img Himg. by apply Hnone.
Qed.

(** X15. [rewriteMarkdownImagePaths] returns the text unchanged when the
    map has no replacement, or an empty one, for every image source that
    [extractMarkdownImages] finds in it; in particular with an empty map and
    for a text without images. *)
Theorem rewriteMarkdownImagePaths_untouched (markdown : jsstring)
    (rewriteMap : RewriteMap) :
  (forall source kind, (source, kind) ∈ extractMarkdownImages markdown ->
                       default [] (archive_get rewriteMap source) = []) ->
  rewriteMarkdownImagePaths markdown rewriteMap = markdown.
Proof.
  intros Hnone. unfold rewriteMarkdownImagePaths.
  rewrite rewrite_images_untouched; [done|].
  intros [source kind] Himg. by eapply Hnone.
Qed.

Lemma rewriteMarkdownImagePaths_untouched_witness :
  rewriteMarkdownImagePaths (str "see ![a](./b.png) here")
    [(str "./other.png", str "/images/1-other.png")]
  = str "see ![a](./b.png) here".
Proof.
  apply rewriteMarkdownImagePaths_untouched.
  intros source kind Himg. vm_compute in Himg.
  apply list_elem_of_singleton in Himg. by injection Himg as -> _.
Defined.

(** ** Document trees ([features/posts/utils/content.ts], [utils/image-rewriter.ts]) *)

(** Induction on a document tree: a property holds of every node if it
    holds of a node whenever it holds of its children. *)
Lemma JSONContent_nested_ind (P : JSONContent -> Prop) :
  (forall ty attrs content marks text,
      (forall children, content = Some children -> Forall P children) ->
      P (Node ty attrs content marks text)) ->
  forall node, P node.
Proof.
  intros Hnode. fix IH 1. intros [ty attrs [children|] marks text]; apply Hnode.
  - intros children' [= <-].
    induction children as [|child children IHchildren]; constructor;
      [apply IH|apply IHchildren].
  - intros children' [=].
Qed.

Lemma unique_spec_from (l seen : list jsstring) :
  NoDup seen ->
  NoDup (foldl (fun seen x => if bool_decide (x ∈ seen) then seen else seen ++ [x])
               seen l)
  /\ forall x,
       x ∈ foldl (fun seen x => if bool_decide (x ∈ seen) then seen else seen ++ [x])
                 seen l
       <-> x ∈ seen \/ x ∈ l.
Proof.
  revert seen. induction l as [|y l IH]; intros seen Hseen; simpl.
  - split; [done|]. intros x. rewrite elem_of_nil. tauto.
  - destruct (bool_decide_reflect (y ∈ seen)) as [Hy|Hy].
    + destruct (IH seen Hseen) as [Hnodup Hin]. split; [done|].
      intros x. rewrite Hin, elem_of_cons. split; [tauto|].
      intros [?|[->|?]]; tauto.
    + assert (Hseen' : NoDup (seen ++ [y])).
      { apply NoDup_app. split; [done|]. split; [|apply NoDup_singleton].
        intros x Hx ->%list_elem_of_singleton. done. }
      destruct (IH _ Hseen') as [Hnodup Hin]. split; [done|].
      intros x. rewrite Hin, elem_of_app, list_elem_of_singleton, elem_of_cons. tauto.
Qed.

Lemma unique_spec (l : list jsstring) :
  NoDup (unique l) /\ forall x, x ∈ unique l <-> x ∈ l.
Proof.
  destruct (unique_spec_from l [] (NoDup_nil_2)) as [Hnodup Hin].
  split; [done|]. intros x. unfold unique. rewrite Hin, elem_of_nil. tauto.
Qed.

Section TreeFacts.
Context {R : JsRuntime} {J : Json} {C : Collaborators}.

Lemma image_keys_nonempty (tree : JSONContent) : [] ∉ image_keys tree.
Proof.
  induction tree as [ty attrs content marks text IH] using JSONContent_nested_ind.
  simpl. rewrite elem_of_app. intros [Hhere|Hbelow].
  - destruct ty; try by apply elem_of_nil in Hhere.
    destruct (src attrs) as [[|c source]|]; try by apply elem_of_nil in Hhere.
    destruct (extractImageKey (c :: source)) as [[|k key]|];
      try by apply elem_of_nil in Hhere.
    by apply list_elem_of_singleton in Hhere.
  - destruct content as [children|]; [|by apply elem_of_nil in Hbelow].
    specialize (IH children eq_refl).
    apply list_elem_of_In, in_concat in Hbelow as (keys & Hkeys & Hin).
    apply in_map_iff in Hkeys as (child & <- & Hchild).
    rewrite Forall_forall in IH.
    by apply (IH child); apply list_elem_of_In.
Qed.

(** X16. [extractAllImageKeys] lists the storage keys of the images of a
    document without repeating one and without an empty key; a key is listed
    exactly when the traversal of the tree meets an image with that key. *)
Theorem extractAllImageKeys_unique (doc : option JSONContent) :
  NoDup (extractAllImageKeys doc)
  /\ ([] ∉ extractAllImageKeys doc)
  /\ forall key,
       key ∈ extractAllImageKeys doc
       <-> exists tree, doc = Some tree /\ key ∈ image_keys tree.
Proof.
  destruct doc as [tree|]; simpl.
  - destruct (unique_spec (image_keys tree)) as [Hnodup Hin].
    split; [done|]. split.
    + rewrite Hin. apply image_keys_nonempty.
    + intros key. rewrite Hin. split; [by exists tree|].
      by intros (tree' & [= <-] & Hkey).
  - split; [apply NoDup_nil_2|]. split; [apply not_elem_of_nil|].
    intros key. rewrite elem_of_nil. split; [done|]. by intros (tree & [=] & _).
Qed.

Lemma rewriteImagePaths_no_key (tree : JSONContent) (rewriteMap : RewriteMap) :
  (forall key, key ∈ image_keys tree -> archive_get rewriteMap key = None) ->
  rewriteImagePaths tree rewriteMap = tree.
Proof.
  induction tree as [ty attrs content marks text IH] using JSONContent_nested_ind.
  intros Hkeys. simpl. f_equal.
  - destruct ty; try done.
    destruct (src attrs) as [[|c source]|] eqn:Hsrc; try done.
    destruct (extractImageKey (c :: source)) as [[|k key]|] eqn:Hkey; try done.
    rewrite Hkeys; [done|]. simpl. rewrite Hsrc, Hkey. apply elem_of_app. left.
    by apply list_elem_of_singleton.
  - destruct content as [children|]; [|done]. f_equal.
    specialize (IH children eq_refl).
    assert (Hbelow : forall child key,
              child ∈ children -> key ∈ image_keys child ->
              archive_get rewriteMap key = None).
    { intros child key Hchild Hkey. apply Hkeys. simpl. apply elem_of_app. right.
      apply list_elem_of_In, in_concat. exists (image_keys child).
      split; [|by apply list_elem_of_In].
      apply in_map. by apply list_elem_of_In. }
    clear Hkeys. induction IH as [|child children Hchild _ IHchildren]; [done|].
    simpl. f_equal.
    + apply Hchild. intros key. apply Hbelow. by left.
    + apply IHchildren. intros child' key Hin. apply Hbelow. by right.
Qed.

(** X17. [rewriteImagePaths] returns the document unchanged when the map
    holds none of the image keys that [extractAllImageKeys] finds in it. *)
Theorem rewriteImagePaths_untouched (tree : JSONContent) (rewriteMap : RewriteMap) :
  (forall key, key ∈ extractAllImageKeys (Some tree) ->
               archive_get rewriteMap key = None) ->
  rewriteImagePaths tree rewriteMap = tree.
Proof.
  intros Hkeys. apply rewriteImagePaths_no_key. intros key Hkey.
  apply Hkeys. simpl. by apply unique_spec.
Qed.
End TreeFacts.

Lemma rewriteImagePaths_untouched_witness :
  rewriteImagePaths image_doc [(str "b.png", str "1-b.png")] = image_doc.
Proof.
  apply rewriteImagePaths_untouched.
  intros key Hkey. vm_compute in Hkey.
  apply list_elem_of_singleton in Hkey. by subst key.
Defined.

Section HighlightFacts.
Context {R : JsRuntime} {J : Json} {C : Collaborators}.
Variable rewrite : option (jsstring -> jsstring).

Lemma highlight_inline_node (node : JSONContent) :
  serializeInlineNode rewrite (highlightCodeBlocks node)
  = serializeInlineNode rewrite node.
Proof. destruct node as [ty attrs content marks text]. by destruct ty. Qed.

Lemma highlight_inline (nodes : list JSONContent) :
  concat (map (serializeInlineNode rewrite) (map highlightCodeBlocks nodes))
  = concat (map (serializeInlineNode rewrite) nodes).
Proof.
  induction nodes as [|node nodes IH]; simpl; [done|].
  by rewrite highlight_inline_node, IH.
Qed.

Lemma highlight_content (node : JSONContent) :
  node_content (highlightCodeBlocks node)
  = map highlightCodeBlocks <$> node_content node.
Proof. destruct node as [ty attrs [children|] marks text]; by destruct ty. Qed.

Lemma highlight_text (nodes : list JSONContent) :
  concat (map (fun n => default [] (node_text n)) (map highlightCodeBlocks nodes))
  = concat (map (fun n => default [] (node_text n)) nodes).
Proof.
  induction nodes as [|[ty attrs content marks text] nodes IH]; simpl; [done|].
  by rewrite IH.
Qed.

Lemma highlight_first_child_content (cell : JSONContent) :
  serializeInline rewrite (first_child_content (highlightCodeBlocks cell))
  = serializeInline rewrite (first_child_content cell).
Proof.
  unfold first_child_content. rewrite highlight_content.
  destruct (node_content cell) as [[|first rest]|]; simpl; try done.
  rewrite highlight_content.
  destruct (node_content first) as [nodes|]; simpl; [|done].
  apply highlight_inline.
Qed.

Lemma highlight_row (row : JSONContent) :
  serializeRow rewrite (highlightCodeBlocks row) = serializeRow rewrite row.
Proof.
  unfold serializeRow. rewrite highlight_content.
  destruct (node_content row) as [cells|]; simpl; [|done].
  induction cells as [|cell cells IH]; simpl; [done|].
  by rewrite highlight_first_child_content, IH.
Qed.

Lemma highlight_table (table : JSONContent) :
  serializeTable rewrite (highlightCodeBlocks table) = serializeTable rewrite table.
Proof.
  unfold serializeTable. rewrite highlight_content.
  destruct (node_content table) as [[|row rows]|]; simpl; try done.
  rewrite highlight_row.
  replace (map (serializeRow rewrite) (map highlightCodeBlocks rows))
    with (map (serializeRow rewrite) rows); [done|].
  induction rows as [|r rows IH]; simpl; [done|]. by rewrite highlight_row, IH.
Qed.

Lemma map_after {A B} (f : A -> B) (h : A -> A) (l : list A) :
  Forall (fun x => f (h x) = f x) l -> map f (map h l) = map f l.
Proof. induction 1 as [|x l Hx _ IH]; simpl; [done|]. by rewrite Hx, IH. Qed.

Lemma map_after_as {A B} (f g : A -> B) (h : A -> A) (l : list A) :
  Forall (fun x => f (h x) = g x) l -> map f (map h l) = map g l.
Proof. induction 1 as [|x l Hx _ IH]; simpl; [done|]. by rewrite Hx, IH. Qed.

Lemma mapi_after {A B} (f : nat -> A -> B) (h : A -> A) (i : nat) (l : list A) :
  Forall (fun x => forall k, f k (h x) = f k x) l ->
  mapi_from f i (map h l) = mapi_from f i l.
Proof.
  intros Hl. revert i. induction Hl as [|x l Hx _ IH]; intros i; simpl; [done|].
  by rewrite Hx, IH.
Qed.

(** Highlighting changes neither how a node nor how a list item is
    serialised. *)
Lemma highlight_serialize (node : JSONContent) :
  (forall depth,
      serializeNode rewrite (highlightCodeBlocks node) depth
      = serializeNode rewrite node depth)
  /\ (forall marker depth,
        serializeListItem rewrite (highlightCodeBlocks node) marker depth
        = serializeListItem rewrite node marker depth).
Proof.
  induction node as [ty attrs content marks text IH] using JSONContent_nested_ind.
  assert (Hnodes : forall children depth,
            content = Some children ->
            map (fun child => serializeNode rewrite child depth)
                (map highlightCodeBlocks children)
            = map (fun child => serializeNode rewrite child depth) children).
  { intros children depth Hc. apply map_after.
    eapply Forall_impl; [by apply IH|]. by intros child [Hchild _]. }
  assert (Hitems : forall children marker depth,
            content = Some children ->
            map (fun item => serializeListItem rewrite item marker depth)
                (map highlightCodeBlocks children)
            = map (fun item => serializeListItem rewrite item marker depth) children).
  { intros children marker depth Hc. apply map_after.
    eapply Forall_impl; [by apply IH|]. by intros child [_ Hchild]. }
  split.
  - intros depth. destruct content as [children|].
    + specialize (Hnodes children depth eq_refl).
      destruct ty; simpl; rewrite ?highlight_inline, ?Hnodes, ?Hitems by done;
        try done.
      * destruct (highlight _ _); simpl; by rewrite highlight_text.
      * f_equal. f_equal. apply mapi_after.
        eapply Forall_impl; [by apply IH|]. by intros child [_ Hchild] k.
      * f_equal. f_equal.
        apply (highlight_table (Node ty_table attrs (Some children) marks text)).
    + destruct ty; simpl; try done. by destruct (highlight _ _).
  - intros marker depth. destruct content as [children|]; [|by destruct ty].
    assert (Hsame : serializeListItem rewrite
                      (Node ty attrs (Some (map highlightCodeBlocks children)) marks text)
                      marker depth
                    = serializeListItem rewrite (Node ty attrs (Some children) marks text)
                        marker depth).
    { cbn [serializeListItem]. erewrite map_after_as; [reflexivity|].
      eapply Forall_impl; [by apply IH|].
      intros [cty cattrs ccontent cmarks ctext] [Hchild _].
      destruct cty;
        try (exact (Hchild depth));
        try (specialize (Hchild (S depth)); destruct ccontent as [subs|];
             simpl in Hchild |- *; by simplify_list_eq). }
    destruct ty; exact Hsame.
Qed.

(** X18. Highlighting the code blocks of a document changes only the
    [highlightedHtml] attribute: the document is exported to the same
    markdown, holds the same image keys and reads as the same plain text
    before and after. *)
Theorem highlightCodeBlocks_keeps_markdown (doc : JSONContent) :
  jsonContentToMarkdown rewrite (highlightCodeBlocks doc)
  = jsonContentToMarkdown rewrite doc
  /\ extractAllImageKeys (Some (highlightCodeBlocks doc))
     = extractAllImageKeys (Some doc)
  /\ convertToPlainText (Some (highlightCodeBlocks doc))
     = convertToPlainText (Some doc).
Proof.
  split; [|split].
  - unfold jsonContentToMarkdown.
    replace (node_kind (highlightCodeBlocks doc)) with (node_kind doc)
      by (destruct doc as [ty attrs content marks text]; by destruct ty).
    rewrite highlight_content.
    destruct (node_kind doc); try done.
    destruct (node_content doc) as [nodes|]; simpl; [|done].
    rewrite (map_after (fun node => serializeNode rewrite node 0)); [done|].
    apply Forall_forall. intros node _. apply highlight_serialize.
  - simpl. f_equal.
    induction doc as [ty attrs content marks text IH] using JSONContent_nested_ind.
    assert (Hbelow : forall children,
              content = Some children ->
              concat (map image_keys (map highlightCodeBlocks children))
              = concat (map image_keys children)).
    { intros children Hc. f_equal. apply map_after. by apply IH. }
    destruct content as [children|]; simpl; rewrite ?Hbelow by done;
      destruct ty; simpl; try done; by destruct (highlight _ _).
  - simpl. do 2 f_equal.
    induction doc as [ty attrs content marks text IH] using JSONContent_nested_ind.
    assert (Hbelow : forall children,
              content = Some children ->
              concat (map text_parts (map highlightCodeBlocks children))
              = concat (map text_parts children)).
    { intros children Hc. f_equal. apply map_after. by apply IH. }
    destruct content as [children|]; simpl; rewrite ?Hbelow by done;
      destruct ty; simpl; try done; by destruct (highlight _ _).
Qed.
End HighlightFacts.

(** ** The shape of the exported markdown ([utils/markdown-serializer.ts]) *)

Lemma trimEnd_prefix (s : jsstring) : exists tail, s = trimEnd s ++ tail.
Proof.
  unfold trimEnd. destruct (drop_while_suffix is_whitespace (rev s)) as [a Ha].
  exists (rev a). rewrite <- rev_app_distr, <- Ha. by rewrite rev_involutive.
Qed.

Lemma trimEnd_ends (s : jsstring) : trimEnd s = [] \/ ends_visibly (trimEnd s).
Proof.
  unfold trimEnd.
  pose proof (drop_while_head is_whitespace (rev s)) as Hhead.
  destruct (drop_while is_whitespace (rev s)) as [|c rest]; [by left|].
  right. exists (rev rest), c. split; [done|]. by apply Hhead.
Qed.

Lemma no_blank_run_squeeze (run : nat) (s : jsstring) :
  (run <= 2)%nat -> no_blank_run run (squeeze run s) = true.
Proof.
  revert run. induction s as [|c s IH]; intros run Hrun; simpl; [done|].
  destruct (c =? LF)%N eqn:Hc.
  - destruct (Nat.ltb_spec run 2); [|by apply IH].
    simpl. rewrite Hc. apply andb_true_iff. split; [by apply Nat.ltb_lt|].
    apply IH. lia.
  - simpl. rewrite Hc. apply IH. lia.
Qed.

Lemma no_blank_run_prefix (run : nat) (a b : jsstring) :
  no_blank_run run (a ++ b) = true -> no_blank_run run a = true.
Proof.
  revert run. induction a as [|c a IH]; intros run; simpl; [done|].
  destruct (c =? LF)%N; [|apply IH].
  intros [? ?]%andb_true_iff. apply andb_true_iff. split; [done|]. by eapply IH.
Qed.

Lemma squeeze_head (s : jsstring) (c : N) :
  head s = Some c -> (c =? LF)%N = false -> head (squeeze 0 s) = Some c.
Proof. destruct s as [|d s]; [done|]. simpl. intros [= ->] ->. done. Qed.

(** X19. The markdown of a document is empty when the root is not a [doc]
    node with content.  Otherwise it ends with exactly one line feed that
    follows a visible character (or is that line feed alone), it does not
    begin with a line feed, and it never holds three line feeds in a row. *)
Theorem jsonContentToMarkdown_shape (rewrite : option (jsstring -> jsstring))
    (doc : JSONContent) :
  let out := jsonContentToMarkdown rewrite doc in
  match node_kind doc, node_content doc with
  | ty_doc, Some _ =>
      no_blank_run 0 out = true
      /\ exists body,
           out = body ++ [LF]
           /\ (body = [] \/ (ends_visibly body /\ head body <> Some LF))
  | _, _ => out = []
  end.
Proof.
  unfold jsonContentToMarkdown.
  destruct (node_kind doc); try done.
  destruct (node_content doc) as [nodes|]; [|done]. cbv zeta.
  set (lines := concat (map (fun node => serializeNode rewrite node 0) nodes)).
  set (squeezed := squeeze 0 (strip_leading_newlines lines)).
  assert (Hrun : no_blank_run 0 (trimEnd squeezed) = true).
  { destruct (trimEnd_prefix squeezed) as [tail Htail].
    apply (no_blank_run_prefix _ _ tail). rewrite <- Htail.
    apply no_blank_run_squeeze. lia. }
  destruct (trimEnd_ends squeezed) as [Hempty|Hends].
  - rewrite Hempty. split; [done|]. exists []. split; [done|]. by left.
  - split.
    + destruct Hends as (body' & c & Hbody & Hc).
      rewrite (no_blank_run_app_end _ _ _ body' c Hbody (visible_not_LF c Hc)).
      by rewrite Hrun.
    + eexists. split; [reflexivity|]. right. split; [done|].
      destruct (trimEnd_prefix squeezed) as [tail Htail].
      destruct (trimEnd squeezed) as [|c body'] eqn:Hbody;
        [by destruct Hends as ([|? ?] & ? & ? & ?)|].
      simpl. intros [= ->].
      assert (Hhead : head squeezed = Some LF) by (by rewrite Htail).
      unfold squeezed, strip_leading_newlines in Hhead.
      pose proof (drop_while_head (fun c => (c =? LF)%N) lines) as Hstrip.
      destruct (drop_while (fun c => (c =? LF)%N) lines) as [|d rest]; [done|].
      specialize (Hstrip d eq_refl). simpl in Hstrip.
      rewrite (squeeze_head (d :: rest) d eq_refl Hstrip) in Hhead.
      injection Hhead as ->. done.
Qed.

(** ** Plain text of a document ([features/posts/utils/content.ts]) *)

Lemma single_newlines_head (s : jsstring) :
  head (single_newlines true s) <> Some LF.
Proof.
  induction s as [|c s IH]; simpl; [done|].
  destruct (c =? LF)%N eqn:E; [done|].
  simpl. intros [= ->]. by rewrite N.eqb_refl in E.
Qed.

Lemma single_newlines_single (after : bool) (s : jsstring) :
  ~ contains (single_newlines after s) [LF; LF].
Proof.
  revert after. induction s as [|c s IH]; intros after (a & b & Heq); simpl in Heq.
  - by destruct a.
  - destruct (c =? LF)%N eqn:E.
    + destruct after; [by apply (IH true); exists a, b|].
      destruct a as [|x a]; simpl in Heq.
      * injection Heq as _ Heq. apply (single_newlines_head s). by rewrite Heq.
      * injection Heq as _ Heq. by apply (IH true); exists a, b.
    + destruct a as [|x a]; simpl in Heq.
      * injection Heq as -> _. discriminate E.
      * injection Heq as _ Heq. by apply (IH false); exists a, b.
Qed.

Lemma trim_inside (s : jsstring) : contains s (trim s).
Proof.
  unfold trim, trimStart.
  destruct (drop_while_suffix is_whitespace s) as [a Ha].
  destruct (trimEnd_prefix (drop_while is_whitespace s)) as [b Hb].
  exists a, b. by rewrite <- Hb.
Qed.

Lemma trim_visible (s : jsstring) :
  trim s = [] \/ (starts_visibly (trim s) /\ ends_visibly (trim s)).
Proof.
  unfold trim, trimStart.
  destruct (trimEnd_ends (drop_while is_whitespace s)) as [Hempty|Hends]; [by left|].
  right. split; [|done].
  destruct (trimEnd_prefix (drop_while is_whitespace s)) as [b Hb].
  pose proof (drop_while_head is_whitespace s) as Hhead.
  destruct (trimEnd (drop_while is_whitespace s)) as [|c rest];
    [by destruct Hends as ([|? ?] & ? & ? & ?)|].
  exists c, rest. split; [done|]. apply Hhead. by rewrite Hb.
Qed.

(** X20. The plain text of a document has no white space at either end and
    no empty line: it is empty, or begins and ends with a visible character,
    and never holds two line feeds in a row.  Without a document it is
    empty. *)
Theorem convertToPlainText_shape (doc : option JSONContent) :
  let out := convertToPlainText doc in
  (out = [] \/ (starts_visibly out /\ ends_visibly out))
  /\ ~ contains out [LF; LF]
  /\ (doc = None -> out = []).
Proof.
  destruct doc as [tree|]; simpl.
  - split; [apply trim_visible|]. split; [|done].
    intros Hc. apply (single_newlines_single false (text_parts tree)).
    eapply contains_trans; [apply trim_inside|exact Hc].
  - split; [by left|]. split; [|done]. intros (a & b & Hab). by destruct a.
Qed.

(** ** Listing an archive ([utils/zip.ts]) *)

Lemma str_split_first (c : N) (s seg : jsstring) (rest : list jsstring) :
  str_split c s = seg :: rest ->
  (c ∉ seg) /\ (s = seg \/ exists tail, s = seg ++ c :: tail).
Proof.
  revert seg rest. induction s as [|x s IH]; intros seg rest; simpl.
  - intros [= <- <-]. split; [apply not_elem_of_nil|by left].
  - destruct (N.eqb_spec x c) as [->|Hx].
    + intros [= <- <-]. split; [apply not_elem_of_nil|]. right. by exists s.
    + destruct (str_split_cons c s) as (seg0 & rest0 & Hs). rewrite Hs.
      intros [= <- <-]. destruct (IH seg0 rest0 Hs) as [Hno Hshape]. split.
      * apply not_elem_of_cons. split; [congruence|done].
      * destruct Hshape as [->|[tail ->]]; [by left|]. right. by exists tail.
Qed.

Lemma str_split_app (c : N) (seg tail : jsstring) :
  c ∉ seg -> str_split c (seg ++ c :: tail) = seg :: str_split c tail.
Proof.
  induction seg as [|x seg IH]; simpl; intros Hno.
  - by rewrite N.eqb_refl.
  - apply not_elem_of_cons in Hno as [Hx Hno].
    destruct (N.eqb_spec x c); [congruence|]. by rewrite IH.
Qed.

Lemma fold_set_add {A} (g : A -> option jsstring) (l : list A) (acc : list jsstring) :
  NoDup acc ->
  let result :=
    fold_left (fun dirs x =>
                 match g x with
                 | Some d => set_add dirs d
                 | None => dirs
                 end) l acc in
  NoDup result
  /\ forall d, d ∈ result <-> d ∈ acc \/ exists x, x ∈ l /\ g x = Some d.
Proof.
  revert acc. induction l as [|x l IH]; intros acc Hacc; simpl.
  - split; [done|]. intros d. split; [by left|].
    by intros [?|(x & ?%elem_of_nil & _)].
  - assert (Hstep : NoDup match g x with
                          | Some d => set_add acc d
                          | None => acc
                          end
                    /\ forall d, d ∈ match g x with
                                    | Some d => set_add acc d
                                    | None => acc
                                    end
                                 <-> d ∈ acc \/ g x = Some d).
    { destruct (g x) as [d0|]; [|split; [done|]; intros d; split; [by left|]; by intros [?|?]].
      unfold set_add. destruct (bool_decide_reflect (d0 ∈ acc)) as [Hin|Hout].
      - split; [done|]. intros d. split; [by left|]. by intros [?|[= <-]].
      - split.
        + apply NoDup_app. split; [done|]. split; [|apply NoDup_singleton].
          by intros d Hd ->%list_elem_of_singleton.
        + intros d. rewrite elem_of_app, list_elem_of_singleton.
          split; (intros [?|?]; [by left|right; congruence]). }
    destruct Hstep as [Hnodup Hin].
    destruct (IH _ Hnodup) as [Hresult Hmem]. split; [done|].
    intros d. rewrite Hmem, Hin. split.
    + intros [[?|?]|(y & Hy & Hg)]; [by left| |].
      * right. exists x. split; [by left|done].
      * right. exists y. split; [by right|done].
    + intros [?|(y & [->|Hy]%elem_of_cons & Hg)]; [by left; left|by left; right|].
      right. by exists y.
Qed.

Lemma fold_left_ext {A B} (f g : B -> A -> B) (l : list A) (acc : B) :
  (forall b a, f b a = g b a) -> fold_left f l acc = fold_left g l acc.
Proof.
  intros Hfg. revert acc. induction l as [|x l IH]; intros acc; simpl; [done|].
  by rewrite Hfg, IH.
Qed.

(** X21. [listDirectories] returns each directory name once.  A name is
    returned exactly when it is not empty, holds no slash and some path of
    the archive is the prefix followed by the name, alone or followed by a
    slash and more; so a file that sits directly under the prefix is listed
    as a directory too. *)
Theorem listDirectories_spec (files : Archive) (prefix : jsstring) :
  NoDup (listDirectories files prefix)
  /\ forall d,
       d ∈ listDirectories files prefix
       <-> d <> [] /\ (SLASH ∉ d)
           /\ exists path,
                path ∈ map fst files
                /\ (path = prefix ++ d \/ exists rest, path = prefix ++ d ++ SLASH :: rest).
Proof.
  set (g := fun path : jsstring =>
              if startsWith path prefix then
                match str_split 47%N (drop (length prefix) path) with
                | dirName :: _ => if bool_decide (dirName = []) then None else Some dirName
                | [] => None
                end
              else None).
  assert (Hfold : listDirectories files prefix
                  = fold_left (fun dirs x =>
                                 match g x with
                                 | Some d => set_add dirs d
                                 | None => dirs
                                 end) (map fst files) []).
  { unfold listDirectories. apply fold_left_ext. intros dirs path. unfold g.
    destruct (startsWith path prefix); [|done].
    destruct (str_split 47 (drop (length prefix) path)) as [|dirName ?]; [done|].
    by destruct (bool_decide (dirName = [])). }
  destruct (fold_set_add g (map fst files) [] (NoDup_nil_2)) as [Hnodup Hmem].
  rewrite Hfold. split; [exact Hnodup|].
  intros d. rewrite Hmem. clear Hmem Hnodup Hfold. split.
  - intros [Hin|(path & Hpath & Hg)]; [by apply elem_of_nil in Hin|].
    unfold g in Hg. destruct (startsWith path prefix) eqn:Hstart; [|done].
    apply includes_startsWith in Hstart as [tail ->].
    rewrite drop_app_length in Hg.
    destruct (str_split 47 tail) as [|dirName more] eqn:Hsplit; [done|].
    destruct (bool_decide_reflect (dirName = [])) as [|Hne]; [done|].
    injection Hg as ->. apply str_split_first in Hsplit as [Hno Hshape].
    split; [done|]. split; [done|]. exists (prefix ++ tail). split; [done|].
    destruct Hshape as [->|[rest ->]]; [by left|right; by exists rest].
  - intros (Hne & Hno & path & Hpath & Hshape). right. exists path.
    split; [done|]. unfold g.
    assert (Hstart : startsWith path prefix = true).
    { apply includes_startsWith. destruct Hshape as [->|[rest ->]]; by eexists. }
    rewrite Hstart.
    destruct Hshape as [->|[rest ->]]; rewrite drop_app_length.
    + rewrite str_split_whole by done. by rewrite bool_decide_eq_false_2.
    + rewrite str_split_app by done. by rewrite bool_decide_eq_false_2.
Qed.

Lemma map_entries_complete {A B} (f : A -> result (option B)) (l : list A)
    (es : list B) (x : A) (e : B) :
  map_entries f l = Ok es -> x ∈ l -> f x = Ok (Some e) -> e ∈ es.
Proof.
  revert es. induction l as [|y l IH]; intros es; simpl.
  - intros _ Hin. by apply elem_of_nil in Hin.
  - destruct (f y) as [o|message] eqn:Hfy; [|done]. simpl.
    destruct (map_entries f l) as [es'|message]; [|done]. simpl.
    intros [= <-] [->|Hin]%elem_of_cons Hfx.
    + rewrite Hfx in Hfy. injection Hfy as <-. by left.
    + specialize (IH es' eq_refl Hin Hfx). destruct o; [by right|done].
Qed.

Section EnumerateSpec.
Context {R : JsRuntime} {ZD : Zod} {G : GrayMatter} {F : Fflate}.

(** X22. When the enumeration of an archive returns, it lists exactly the
    posts whose file has text with metadata that normalises.  In the native
    layout these are the directories under [posts/] with such an [index.md];
    in the markdown layout the paths that end in [.md] and do not begin with
    [__MACOSX].  Each entry carries the title of the normalised metadata and
    the place of the file. *)
Theorem enumerate_posts_exact (zipFiles : Archive) (mode : ImportMode)
    (entries : list PostEntry) :
  match mode with
  | native => enumerateNativePosts zipFiles
  | markdown => enumerateMarkdownPosts zipFiles
  end = Ok entries ->
  forall entry,
    entry ∈ entries
    <-> exists path c text data content fm,
          readTextFile zipFiles path = Some (c :: text)
          /\ parseFrontmatter (c :: text) = Ok (data, content)
          /\ normalizeFrontmatter data = Some fm
          /\ match mode with
             | native =>
                 exists d,
                   d ∈ listDirectories zipFiles (str "posts/")
                   /\ path = str "posts/" ++ d ++ str "/index.md"
                   /\ entry = {| dir := d; entry_title := title fm;
                                 prefix := str "posts/" ++ d; mdPath := None |}
             | markdown =>
                 path ∈ map fst zipFiles
                 /\ endsWith path (str ".md") = true
                 /\ startsWith path (str "__MACOSX") = false
                 /\ entry = {| dir := or_else (last_part (strip_md path)) path;
                               entry_title := title fm;
                               prefix := directory_of path; mdPath := Some path |}
             end.
Proof.
  intros Henum entry. split.
  - intros Hin. destruct mode.
    + apply (map_entries_elem _ _ _ _ Henum) in Hin as (d & Hd & Hentry).
      destruct (read_entry zipFiles (str "posts/" ++ d ++ str "/index.md"))
        as [[fm|]|message] eqn:Hread; try done.
      simpl in Hentry. injection Hentry as <-.
      apply read_entry_inv in Hread as (c & text & data & content & ? & ? & ?).
      exists (str "posts/" ++ d ++ str "/index.md"), c, text, data, content, fm.
      repeat split; try done. by exists d.
    + apply (map_entries_elem _ _ _ _ Henum) in Hin as (p & Hp & Hentry).
      destruct (read_entry zipFiles p) as [[fm|]|message] eqn:Hread; try done.
      simpl in Hentry. injection Hentry as <-.
      apply read_entry_inv in Hread as (c & text & data & content & ? & ? & ?).
      apply list_elem_of_In, filter_In in Hp as [Hp Hfilter].
      apply andb_true_iff in Hfilter as [Hmd Hmac%negb_true_iff].
      exists p, c, text, data, content, fm.
      repeat split; try done. by apply list_elem_of_In.
  - intros (path & c & text & data & content & fm & Hfile & Hparse & Hnorm & Hmode).
    assert (Hread : read_entry zipFiles path = Ok (Some fm)).
    { unfold read_entry. rewrite Hfile, Hparse. simpl. by rewrite Hnorm. }
    destruct mode.
    + destruct Hmode as (d & Hd & -> & ->).
      eapply (map_entries_complete _ _ _ d); [exact Henum|done|].
      cbv beta. by rewrite Hread.
    + destruct Hmode as (Hpath & Hmd & Hmac & ->).
      eapply (map_entries_complete _ _ _ path); [exact Henum| |].
      * apply list_elem_of_In, filter_In. split; [by apply list_elem_of_In|].
        by rewrite Hmd, Hmac.
      * cbv beta. by rewrite Hread.
Qed.
End EnumerateSpec.

Lemma enumerate_posts_exact_witness :
  native_entry ∈ [native_entry]
  <-> exists path c text data content fm,
        readTextFile native_archive path = Some (c :: text)
        /\ parseFrontmatter (c :: text) = Ok (data, content)
        /\ normalizeFrontmatter data = Some fm
        /\ exists d,
             d ∈ listDirectories native_archive (str "posts/")
             /\ path = str "posts/" ++ d ++ str "/index.md"
             /\ native_entry = {| dir := d; entry_title := title fm;
                                  prefix := str "posts/" ++ d; mdPath := None |}.
Proof.
  apply (enumerate_posts_exact native_archive native [native_entry]).
  vm_compute. reflexivity.
Defined.

(** ** Image paths of a markdown post ([workflows/import-helpers.ts]) *)

Lemma str_split_join (c : N) (parts : list jsstring) :
  parts <> [] -> Forall (fun p => c ∉ p) parts ->
  str_split c (str_join [c] parts) = parts.
Proof.
  intros Hne Hparts. induction Hparts as [|p parts Hp Hparts IH]; [done|].
  destruct parts as [|q parts].
  - simpl. by apply str_split_whole.
  - change (str_join [c] (p :: q :: parts)) with (p ++ c :: str_join [c] (q :: parts)).
    rewrite str_split_app by done. by rewrite IH.
Qed.

Lemma Forall_removelast {A} (P : A -> Prop) (l : list A) :
  Forall P l -> Forall P (removelast l).
Proof.
  induction 1 as [|x l Hx Hl IH]; simpl; [constructor|].
  destruct l; [constructor|]. by constructor.
Qed.

Lemma resolve_loop_segments (P : jsstring -> Prop) (parts segments : list jsstring) :
  Forall P parts ->
  Forall (fun seg => seg <> str ".." -> seg <> str "." -> P seg) segments ->
  Forall P (resolve_loop parts segments).
Proof.
  intros Hparts Hsegments. revert parts Hparts.
  induction Hsegments as [|seg segments Hseg _ IH]; intros parts Hparts; simpl; [done|].
  destruct (bool_decide_reflect (seg = str "..")) as [|Hup];
    [by apply IH, Forall_removelast|].
  destruct (bool_decide_reflect (seg = str ".")) as [|Hdot]; simpl; [by apply IH|].
  apply IH, Forall_app. split; [done|]. constructor; [by apply Hseg|constructor].
Qed.

(** X23. With a non-empty base that has no [.] or [..] segment, the path
    that [resolveRelativePath] returns has none either, whatever the
    reference: going up past the first segment stops there, so the result
    never points out of the archive. *)
Theorem resolveRelativePath_normal (base relative : jsstring) :
  base <> [] ->
  Forall (fun seg => seg <> str ".." /\ seg <> str ".") (str_split SLASH base) ->
  Forall (fun seg => seg <> str ".." /\ seg <> str ".")
         (str_split SLASH (resolveRelativePath base relative)).
Proof.
  intros Hbase Hsegments. unfold resolveRelativePath.
  rewrite bool_decide_eq_false_2 by done.
  set (parts := resolve_loop (str_split SLASH base)
                             (str_split SLASH (strip_dot_slash relative))).
  assert (Hparts : Forall (fun seg => (seg <> str ".." /\ seg <> str ".") /\ SLASH ∉ seg)
                          parts).
  { apply resolve_loop_segments.
    - apply Forall_forall. intros seg Hseg. split.
      + rewrite Forall_forall in Hsegments. by apply Hsegments.
      + by eapply str_split_no_sep.
    - apply Forall_forall. intros seg Hseg Hup Hdot. split; [done|].
      by eapply str_split_no_sep. }
  clearbody parts. destruct parts as [|p more].
  - simpl. by repeat constructor.
  - change (str "/") with [SLASH]. rewrite str_split_join; [|done|].
    + eapply Forall_impl; [exact Hparts|]. by intros seg [? _].
    + eapply Forall_impl; [exact Hparts|]. by intros seg [_ ?].
Qed.

Lemma resolveRelativePath_normal_witness :
  Forall (fun seg => seg <> str ".." /\ seg <> str ".")
         (str_split SLASH (resolveRelativePath (str "posts/sub") (str "../../../a/./b.png"))).
Proof.
  apply resolveRelativePath_normal; [done|].
  vm_compute. by repeat constructor.
Defined.

(** ** Uploading the images of a native post ([workflows/import-helpers.ts]) *)

Lemma archive_get_set {V} (files : list (jsstring * V)) (path : jsstring) (v : V)
    (other : jsstring) :
  archive_get (archive_set files path v) other
  = if bool_decide (other = path) then Some v else archive_get files other.
Proof.
  assert (Heqb : forall a b : jsstring, jsstring_eqb a b = bool_decide (b = a)).
  { intros a b. unfold jsstring_eqb. apply bool_decide_ext. split; congruence. }
  induction files as [|[p w] files IH]; simpl.
  - by rewrite Heqb.
  - rewrite !Heqb.
    destruct (bool_decide_reflect (path = p)) as [->|Hp]; simpl; rewrite !Heqb.
    + by destruct (bool_decide_reflect (other = p)).
    + destruct (bool_decide_reflect (other = p)) as [->|Hne]; [|done].
      by rewrite bool_decide_eq_false_2.
Qed.

Section UploadFacts.
Context {R : JsRuntime} {ZD : Zod} {J : Json} {C : Collaborators}
        {B : BlobStoreFaults}.

Lemma returns_foldM_elem {A S} (inv : World -> S -> Prop) (step : S -> A -> M S)
    (l : list A) (acc : S) (w : World) :
  (forall acc x w0, x ∈ l -> inv w0 acc -> returns_with (step acc x) w0 inv) ->
  inv w acc -> returns_with (foldM step l acc) w inv.
Proof.
  revert acc w. induction l as [|x l IH]; intros acc w Hstep Hinv; [done|].
  simpl. apply returns_bind. eapply returns_mono; [apply Hstep; [by left|done]|].
  intros w' acc' Hinv'. apply IH; [|done].
  intros acc0 y w0 Hy. apply Hstep. by right.
Qed.

(** X24. [uploadImages] never throws, and no entry of the map it returns
    dangles: the new key is the key of a blob in the store and of a media row
    that records the old key as its file name, and the old key names a file
    with a non-empty payload under the [images/] directory of the post. *)
Theorem uploadImages_stores_targets (zipFiles : Archive) (entry : PostEntry)
    (w : World) :
  let run := uploadImages zipFiles entry w in
  exists rewriteMap warnings,
    snd run = Ok (rewriteMap, warnings)
    /\ forall oldKey newKey,
         archive_get rewriteMap oldKey = Some newKey ->
         is_Some (R2 (fst run) !! newKey)
         /\ (exists row,
               row ∈ MediaTable (db (fst run))
               /\ media_key row = newKey /\ media_fileName row = oldKey)
         /\ exists data,
              archive_get zipFiles (prefix entry ++ str "/images/" ++ oldKey)
              = Some data
              /\ data <> [].
Proof.
  intros run.
  set (imagePrefix := prefix entry ++ str "/images/").
  set (inv := fun (w' : World) (state : RewriteMap * list jsstring) =>
                forall oldKey newKey,
                  archive_get (fst state) oldKey = Some newKey ->
                  is_Some (R2 w' !! newKey)
                  /\ (exists row,
                        row ∈ MediaTable (db w')
                        /\ media_key row = newKey /\ media_fileName row = oldKey)
                  /\ exists data,
                       archive_get zipFiles (imagePrefix ++ oldKey) = Some data
                       /\ data <> []).
  assert (Hrun : returns_with (uploadImages zipFiles entry) w inv).
  { unfold uploadImages. fold imagePrefix. apply returns_foldM_elem; [|done].
    intros [rewriteMap warnings] imagePath w0 Hpath Hinv. unfold upload_image.
    destruct (archive_get zipFiles imagePath) as [[|b data]|] eqn:Hfile; try done.
    unfold returns_with, bindM, try_catch, fresh_seed, store_image, bindM, R2_put.
    match goal with |- context [R2_put_error ?k ?w1] => destruct (R2_put_error k w1) end.
    { simpl. intros oldKey newKey Hget. exact (Hinv oldKey newKey Hget). }
    simpl. intros oldKey newKey. cbn [fst R2 db MediaTable].
    rewrite archive_get_set.
    apply list_elem_of_filter in Hpath as [Hstart _].
    apply includes_startsWith in Hstart as [name ->].
    rewrite drop_app_length.
    destruct (bool_decide_reflect (oldKey = name)) as [->|Hother].
    - intros [= <-]. split; [by rewrite lookup_insert_eq|]. split.
      + eexists. split; [apply elem_of_app; right; by left|done].
      + by exists (b :: data).
    - intros Hget. destruct (Hinv oldKey newKey Hget) as (Hblob & (row & Hrow & Hkeys) & Hdata).
      split; [|split; [|done]].
      + apply lookup_insert_is_Some. destruct (decide (generateKey (seed w0) name = newKey));
          [by left|by right].
      + exists row. split; [|done]. apply elem_of_app. by left. }
  apply returns_inv in Hrun as (w' & [rewriteMap warnings] & Heq & Hinv).
  exists rewriteMap, warnings. subst run. rewrite Heq. split; [done|].
  intros oldKey newKey Hget. specialize (Hinv oldKey newKey Hget).
  unfold imagePrefix in Hinv. by rewrite <- app_assoc in Hinv.
Qed.
End UploadFacts.

(** ** Starting an import ([import-export.service.ts]) *)

Lemma archive_set_keys {V} (files : list (jsstring * V)) (path : jsstring) (v : V) :
  NoDup (map fst files) ->
  NoDup (map fst (archive_set files path v))
  /\ forall p, p ∈ map fst (archive_set files path v) <-> p = path \/ p ∈ map fst files.
Proof.
  induction files as [|[q w] files IH]; simpl; intros Hnodup.
  - split; [apply NoDup_singleton|]. intros p. rewrite list_elem_of_singleton, elem_of_nil.
    tauto.
  - apply NoDup_cons in Hnodup as [Hq Hnodup]. destruct (IH Hnodup) as [IH1 IH2].
    destruct (jsstring_eqb q path) eqn:E; simpl.
    + apply jsstring_eqb_true in E. subst q. split; [by apply NoDup_cons|].
      intros p. rewrite elem_of_cons. tauto.
    + apply jsstring_eqb_false in E. split.
      * apply NoDup_cons. split; [|done]. rewrite IH2. intros [?|?]; congruence.
      * intros p. rewrite !elem_of_cons, IH2. tauto.
Qed.

Lemma uploaded_entries (files : list UploadedFile) (acc : list (jsstring * Content)) :
  str "__proto__" ∉ map file_name files ->
  NoDup (map fst acc) ->
  let zipEntries :=
    fold_left (fun zipEntries file =>
                 object_set zipEntries (file_name file) (Binary (file_data file)))
              files acc in
  NoDup (map fst zipEntries)
  /\ (forall p, p ∈ map fst zipEntries <-> p ∈ map fst acc \/ p ∈ map file_name files)
  /\ forall name,
       archive_get zipEntries name
       = match last (List.filter (fun f => jsstring_eqb (file_name f) name) files) with
         | Some f => Some (Binary (file_data f))
         | None => archive_get acc name
         end.
Proof.
  intros Hproto. revert acc.
  induction files as [|f files IH]; intros acc Hacc; simpl.
  - split; [done|]. split; [|done]. intros p. rewrite elem_of_nil. tauto.
  - simpl in Hproto. rewrite not_elem_of_cons in Hproto. destruct Hproto as [Hf Hproto].
    assert (Hset : object_set acc (file_name f) (Binary (file_data f))
                   = archive_set acc (file_name f) (Binary (file_data f))).
    { unfold object_set. by rewrite bool_decide_eq_false_2. }
    rewrite Hset.
    destruct (archive_set_keys acc (file_name f) (Binary (file_data f)) Hacc)
      as [Hnodup Hkeys].
    destruct (IH Hproto _ Hnodup) as (IH1 & IH2 & IH3). split; [done|]. split.
    + intros p. rewrite IH2, Hkeys, elem_of_cons. tauto.
    + intros name. rewrite IH3, archive_get_set.
      destruct (jsstring_eqb (file_name f) name) eqn:E.
      * apply jsstring_eqb_true in E. subst name.
        rewrite bool_decide_eq_true_2 by done.
        destruct (List.filter _ files) as [|g rest] eqn:Hrest; simpl; [done|].
        by destruct (last (g :: rest)) eqn:Hlast;
          [|apply last_None in Hlast].
      * apply jsstring_eqb_false in E.
        rewrite bool_decide_eq_false_2 by congruence. done.
Qed.

Lemma archive_get_prepared `{Fflate} (zipEntries : list (jsstring * Content))
    (name : jsstring) :
  archive_get (map (fun '(path, content) => (path, toU8 content)) zipEntries) name
  = toU8 <$> archive_get zipEntries name.
Proof.
  induction zipEntries as [|[p c] zipEntries IH]; simpl; [done|].
  by destruct (jsstring_eqb p name).
Qed.

Section ServiceFacts.
Context {R : JsRuntime} {ZD : Zod} {G : GrayMatter} {F : Fflate} {J : Json}
        {C : Collaborators} {B : BlobStoreFaults} {P : ServicePlatform}.

(** X25. [startImport] never throws and never writes to the database.
    Without a file it answers [NO_FILES] and touches nothing; when the
    archive cannot be opened it answers [UPLOAD_FAILED] and leaves the
    stores as they were.  When it answers a task, the progress record of
    the task is the pending one, the archive is in the blob store where
    the workflow will fetch it, it opens, and the mode is [native] exactly
    when its [manifest.json] passes the manifest schema.  When the workflow
    cannot be created, the progress record is removed, but the uploaded
    archive stays in the blob store. *)
Theorem startImport_outcome (files : list UploadedFile) (w : World) :
  let run := startImport files w in
  let taskId := randomUUID (seed w) in
  db (fst run) = db w
  /\ match snd run with
     | Throw _ => False
     | Ok (inl NO_FILES) => files = [] /\ fst run = w
     | Ok (inl UPLOAD_FAILED) =>
         files <> [] /\ R2 (fst run) = R2 w /\ cache (fst run) = cache w
     | Ok (inl WORKFLOW_CREATE_FAILED) =>
         cache (fst run) !! importProgress taskId = None
         /\ is_Some (R2 (fst run) !! importZip taskId)
     | Ok (inr (started, mode)) =>
         started = taskId
         /\ cache (fst run) !! importProgress taskId
            = Some (pending_progress msg_preparing_import)
         /\ exists zipFiles,
              fetchZipFiles (importZip taskId) (fst run) = (fst run, Ok zipFiles)
              /\ (mode = native
                  <-> is_Some (fst (readValidatedJsonFile zipFiles (str "manifest.json")
                                      ExportManifestSchema_safeParse)))
     end.
Proof.
  intros run taskId.
  assert (Hrun : startImport files w = run) by done. clearbody run.
  unfold startImport in Hrun.
  destruct files as [|first more]; [subst run; by repeat split|].
  unfold bindM at 1 in Hrun. unfold fresh_seed at 1 in Hrun. cbv zeta in Hrun.
  fold taskId in Hrun.
  match type of Hrun with context [parseZip ?d] => set (zipData := d) in Hrun end.
  destruct (parseZip zipData) as [zipFiles|message] eqn:Hparse;
    [|subst run; by repeat split].
  match type of Hrun with context [readValidatedJsonFile zipFiles ?p ?schema] =>
    set (manifest := fst (readValidatedJsonFile zipFiles p schema)) in Hrun |- *
  end.
  unfold bindM, try_catch, R2_put, updateProgress, deleteKey, set_R2, set_cache, ret
    in Hrun.
  match type of Hrun with context [R2_put_error ?k ?w1] =>
    destruct (R2_put_error k w1)
  end; [subst run; by repeat split|].
  destruct (IMPORT_WORKFLOW_create taskId (importZip taskId) _) as [[]|message];
    subst run; cbn [fst snd db R2 cache].
  - split; [done|]. split; [done|]. split; [apply lookup_insert_eq|].
    exists zipFiles. split.
    + unfold fetchZipFiles, bindM, get_world, lift. cbn [R2].
      by rewrite lookup_insert_eq, Hparse.
    + fold manifest. by destruct manifest; split; try done; intros [? [=]].
  - split; [done|]. split; [apply lookup_delete_eq|].
    rewrite lookup_insert_eq. by eexists.
Qed.

(** X26. Loose files, none of them named [manifest.json] or [__proto__],
    that are uploaded together (or one file that is not a [.zip]) start an
    import in markdown mode when the upload to the blob store does not throw
    and the workflow is created; the archive that the workflow will fetch
    opens to one entry per file name, holding the bytes of the last file
    uploaded under that name. *)
Theorem startImport_loose_files {FL : FflateLaws F} (files : list UploadedFile)
    (w : World) :
  files <> [] ->
  (forall file, files = [file] -> endsWith (file_name file) (str ".zip") = false) ->
  str "manifest.json" ∉ map file_name files ->
  str "__proto__" ∉ map file_name files ->
  (forall w', R2_put_error (importZip (randomUUID (seed w))) w' = None) ->
  (forall taskId r2Key mode, IMPORT_WORKFLOW_create taskId r2Key mode = Ok tt) ->
  let run := startImport files w in
  let taskId := randomUUID (seed w) in
  snd run = Ok (inr (taskId, markdown))
  /\ exists zipFiles,
       fetchZipFiles (importZip taskId) (fst run) = (fst run, Ok zipFiles)
       /\ NoDup (map fst zipFiles)
       /\ (forall name, name ∈ map fst zipFiles <-> name ∈ map file_name files)
       /\ forall name,
            archive_get zipFiles name
            = file_data
                <$> last (List.filter (fun f => jsstring_eqb (file_name f) name) files).
Proof.
  intros Hfiles Hloose Hmanifest Hproto Hput Hcreate run taskId.
  assert (Hrun : startImport files w = run) by done. clearbody run.
  unfold startImport in Hrun.
  destruct files as [|first more]; [done|]. clear Hfiles.
  unfold bindM at 1 in Hrun. unfold fresh_seed at 1 in Hrun. cbv zeta in Hrun.
  fold taskId in Hrun.
  assert (HisZip : match more with
                   | [] => endsWith (file_name first) (str ".zip")
                   | _ :: _ => false
                   end = false).
  { destruct more; [by apply Hloose|done]. }
  rewrite HisZip in Hrun.
  destruct (uploaded_entries (first :: more) [] Hproto (NoDup_nil_2))
    as (Hnodup & Hkeys & Hget).
  match type of Hrun with context [buildZip ?e] => set (zipEntries := e) in * end.
  set (prepared := map (fun '(path, content) => (path, toU8 content)) zipEntries).
  assert (Hparse : parseZip (buildZip zipEntries) = Ok prepared).
  { unfold parseZip, buildZip. rewrite (prepared_entries zipEntries []); [|..|done].
    - rewrite app_nil_l. apply unzipSync_zipSync. unfold prepared.
      by rewrite prepared_paths.
    - intros Hin. apply Hkeys in Hin as [Hin|Hin]; [by apply elem_of_nil in Hin|done]. }
  assert (Hnone : archive_get prepared (str "manifest.json") = None).
  { unfold prepared. rewrite archive_get_prepared, Hget.
    destruct (last _) as [f|] eqn:Hlast; [|done].
    apply last_elem_of, list_elem_of_In, filter_In in Hlast as [Hin Hname].
    apply jsstring_eqb_true in Hname. destruct Hmanifest. rewrite <- Hname.
    apply list_elem_of_In, in_map. exact Hin. }
  rewrite Hparse in Hrun.
  unfold readValidatedJsonFile, readTextFile in Hrun. rewrite Hnone in Hrun.
  cbn [fst] in Hrun. rewrite Hcreate in Hrun.
  unfold bindM, try_catch, R2_put in Hrun. fold taskId in Hput. rewrite Hput in Hrun.
  unfold updateProgress, set_R2, set_cache, ret in Hrun.
  subst run. cbn [fst snd]. split; [done|]. exists prepared. split.
  - unfold fetchZipFiles, bindM, get_world, lift. cbn [R2].
    by rewrite lookup_insert_eq, Hparse.
  - split; [by unfold prepared; rewrite prepared_paths|]. split.
    + intros name. unfold prepared. rewrite prepared_paths, Hkeys, elem_of_nil. tauto.
    + intros name. unfold prepared. rewrite archive_get_prepared, Hget.
      by destruct (last _).
Qed.

(** X27. Provided every number that follows [untitled-log-] in a stored
    slug is a safe integer (below [2^53]): [createEmptyPost] returns the id
    of exactly one row that it appends, an untitled draft; its slug is
    [untitled-log], or [untitled-log-] followed by a decimal number, and
    differs from the slug of every post that was stored. *)
Theorem createEmptyPost_adds_draft (w : World) :
  safe_suffixes (db w) (str "untitled-log") = true ->
  let run := createEmptyPost w in
  exists post,
    snd run = Ok (post_id post)
    /\ PostsTable (db (fst run)) = PostsTable (db w) ++ [post]
    /\ post_title post = [] /\ post_status post = draft
    /\ (forall stored, stored ∈ PostsTable (db w) -> post_slug stored <> post_slug post)
    /\ (post_slug post = str "untitled-log"
        \/ exists number, post_slug post = str "untitled-log-" ++ decimal number).
Proof.
  intros Hsafe run. assert (Hcall : createEmptyPost w = run) by done. clearbody run.
  unfold createEmptyPost in Hcall. unfold bindM at 1 in Hcall.
  assert (Hgen : exists slug,
            generateSlug [] w = (w, Ok slug)
            /\ slugExists (db w) slug None = false
            /\ (slug = str "untitled-log"
                \/ exists number, slug = str "untitled-log-" ++ decimal number)).
  { destruct (slugExists (db w) (slugify []) None) eqn:Hexists.
    - destruct (generateSlug_taken [] w Hexists Hsafe) as (number & Hrun & Hfree).
      eexists. split; [exact Hrun|]. split; [exact Hfree|]. right. by exists number.
    - eexists. split; [by apply generateSlug_free|]. split; [exact Hexists|]. by left. }
  destruct Hgen as (slug & Hrun & Hfresh & Hslug).
  rewrite Hrun in Hcall. unfold bindM, insertPost, get_world, set_db, ret in Hcall.
  subst run. cbn [fst snd db].
  eexists. split; [reflexivity|].
  cbn [PostsTable post_title post_status post_slug new_title new_status new_slug].
  split; [done|]. split; [done|]. split; [done|]. split; [|done].
  intros stored Hin Hstored. apply not_true_iff_false in Hfresh.
  apply Hfresh, slugExists_spec. by exists stored.
Qed.
End ServiceFacts.

Lemma startImport_loose_files_witness :
  let run := startImport loose_files seeded_world in
  snd run = Ok (inr (str "task-0", markdown))
  /\ exists zipFiles,
       fetchZipFiles (importZip (str "task-0")) (fst run) = (fst run, Ok zipFiles)
       /\ archive_get zipFiles (str "b.md") = Some (strToU8 (str "second")).
Proof.
  destruct (startImport_loose_files (FL := store_codec_laws) loose_files seeded_world)
    as (Hmode & zipFiles & Hfetch & _ & _ & Hget).
  - done.
  - intros file [= <-].
  - vm_compute. intros Hin. repeat (apply elem_of_cons in Hin as [[=]|Hin]).
    by apply elem_of_nil in Hin.
  - vm_compute. intros Hin. repeat (apply elem_of_cons in Hin as [[=]|Hin]).
    by apply elem_of_nil in Hin.
  - reflexivity.
  - reflexivity.
  - split; [exact Hmode|]. exists zipFiles. split; [exact Hfetch|].
    rewrite Hget. reflexivity.
Defined.

Lemma createEmptyPost_adds_draft_witness :
  exists post,
    snd (createEmptyPost drafts_world) = Ok (post_id post)
    /\ PostsTable (db (fst (createEmptyPost drafts_world)))
       = PostsTable (db drafts_world) ++ [post]
    /\ post_slug post = str "untitled-log-2".
Proof.
  destruct (createEmptyPost_adds_draft drafts_world eq_refl)
    as (post & Hid & Hrows & _).
  exists post. split; [exact Hid|]. split; [exact Hrows|].
  vm_compute in Hrows. by injection Hrows as <-.
Defined.

(** ** A blob store that fails

    On [broken_store] every call to the blob store throws: the upload of
    [startImport] is answered with [UPLOAD_FAILED], the import still
    completes and leaves the archive where it was, the images of a post are
    reported as warnings, and the export ends [failed]. *)
Lemma startImport_upload_fails :
  snd (startImport (B := broken_store) loose_files seeded_world) = Ok (inl UPLOAD_FAILED).
Proof. reflexivity. Qed.

Lemma import_cleanup_error_ignored :
  let run := ImportWorkflow_run (B := broken_store) (str "t2") (str "imports/t2.zip")
               native native_import_world in
  snd run = Ok tt
  /\ task_status <$> (cache (fst run) !! importProgress (str "t2")) = Some completed
  /\ R2 (fst run) = R2 native_import_world.
Proof. by vm_compute. Qed.

Lemma export_upload_fails :
  let run := ExportWorkflow_run (B := broken_store) (str "t3") None None seeded_world in
  snd run = Ok tt
  /\ (fun progress => (task_status progress, warnings progress))
       <$> (cache (fst run) !! exportProgress (str "t3"))
     = Some (failed, [str "R2 unavailable"]).
Proof. by vm_compute. Qed.
